(** * The extension editor pane of the workbench

    A shallow embedding of
    [src/vs/workbench/parts/extensions/electron-browser/extensionEditor.ts]:
    the README document template, the navigation bar, the manifest-derived
    "Contributions" tables and the load/cancel/cache wiring of the editor,
    followed by the properties the specification states about them. *)

From Stdlib Require Import Ascii String.
From stdpp Require Import base option list strings gmap pretty.

Open Scope string_scope.
Open Scope list_scope.
Set Warnings "-register-all".

(** ** JavaScript values the file relies on *)

(** Exceptions raised by the JavaScript runtime while a handler runs.  The
    only one the file can raise by itself is the [TypeError] of a property
    access on [undefined]. *)
Inductive Exn :=
| TypeError.

Inductive Result (A : Type) :=
| Ok (a : A)
| Throw (e : Exn).
Arguments Ok {A} a.
Arguments Throw {A} e.

Definition isOk {A} (r : Result A) : bool :=
  match r with Ok _ => true | Throw _ => false end.

(** A plain JavaScript object read from JSON and used as a dictionary: its own
    enumerable properties, in the order [Object.keys] lists them (keys are
    pairwise distinct in any object the runtime can build). *)
Definition JsObject (V : Type) : Type := list (string * V).

Definition objectKeys {V} (o : JsObject V) : list string := o.*1.

(** JavaScript truthiness of a string: only the empty string is falsy. *)
Definition truthy (s : string) : bool := negb (String.eqb s "").

(** [a || b] on an optional string and a string. *)
Definition orElse (a : option string) (b : string) : string :=
  match a with
  | Some s => if truthy s then s else b
  | None => b
  end.

(** ** The DOM *)

Module Dom.

(** Nodes built by [$] and [append] of [vs/base/browser/dom], and the
    element a [WebView] attaches to its parent, which carries the documents
    it displays. *)
Inductive Node :=
| Text (data : string)
| Element (tag : string) (attrs : list (string * string)) (children : list Node)
| WebViewElement (contents : list string).

(** [$(tag, attrs, ...children)]: string children become text nodes. *)
Definition el (tag : string) (attrs : list (string * string))
    (children : list Node) : Node :=
  Element tag attrs children.

Definition tagOf (n : Node) : string :=
  match n with
  | Element tag _ _ => tag
  | Text _ => "#text"
  | WebViewElement _ => "webview"
  end.

Definition childrenOf (n : Node) : list Node :=
  match n with
  | Element _ _ children => children
  | _ => []
  end.

Definition hasTag (tag : string) (n : Node) : bool := String.eqb (tagOf n) tag.

End Dom.
Import Dom.

(** ** Localisation *)

(** [format] of [vs/nls]: the placeholder [{0}] is replaced by the first
    argument. *)
Fixpoint format (message : string) (arg : string) : string :=
  match message with
  | String "{" (String "0" (String "}" rest)) => arg +:+ format rest arg
  | String c rest => String c (format rest arg)
  | EmptyString => EmptyString
  end.

(** [localize(key, message, arg)] in the default locale: the key selects a
    translation, none is loaded, and the default message is formatted. *)
Definition localize (key message : string) (arg : option string) : string :=
  match arg with
  | Some a => format message a
  | None => message
  end.

(** Conversion of [contrib.length] to the string put in the message. *)
Definition numberToString (n : nat) : string := pretty n.

(** ** The extension manifest *)

(** The fields of [IExtensionManifest] the editor reads.  A field is optional
    exactly where the source guards its absence. *)
Module Manifest.

Record ICommand := {
  command : string;
  title : string
}.

Record IMenu := {
  menuCommand : string
}.

Record IKeyBinding := {
  keyCommand : string;
  key : string
}.

Record ITheme := {
  label : string
}.

Record IJSONValidation := {
  fileMatch : string
}.

Record IDebugger := {
  debuggerLabel : option string;
  type : string;
  runtime : string
}.

Record IConfigurationProperty := {
  description : string
}.

Record IConfiguration := {
  properties : option (JsObject IConfigurationProperty)
}.

Record IExtensionContributions := {
  commands : option (list ICommand);
  configuration : option IConfiguration;
  debuggers : option (list IDebugger);
  jsonValidation : option (list IJSONValidation);
  keybindings : option (list IKeyBinding);
  menus : option (JsObject (list IMenu));
  themes : option (list ITheme)
}.

Record IExtensionManifest := {
  name : string;
  contributes : option IExtensionContributions
}.

(** The contributions object with every category absent. *)
Definition noContributions : IExtensionContributions :=
  {| commands := None; configuration := None; debuggers := None;
     jsonValidation := None; keybindings := None; menus := None;
     themes := None |}.

End Manifest.

(** ** Rendering into a container *)

(** A renderer appends children to its container and may throw: state passing
    over the container's children, with an exception result. *)
Definition Render (A : Type) : Type := list Node → list Node * Result A.

Global Instance render_ret : MRet Render := λ A x container, (container, Ok x).

Global Instance render_bind : MBind Render := λ A B f m container,
  match m container with
  | (container', Ok x) => f x container'
  | (container', Throw e) => (container', Throw e)
  end.

Definition throw {A} (e : Exn) : Render A := λ container, (container, Throw e).

(** [append(container, child)]. *)
Definition append (child : Node) : Render () :=
  λ container, ((container ++ [child]), Ok ()).

Definition liftResult {A} (r : Result A) : Render A :=
  match r with
  | Ok a => mret a
  | Throw e => throw e
  end.

(** [manifest.contributes.<field>]: reading a field of [undefined] throws. *)
Definition getContributes (manifest : Manifest.IExtensionManifest)
    : Render Manifest.IExtensionContributions :=
  match Manifest.contributes manifest with
  | Some contributes => mret contributes
  | None => throw TypeError
  end.

(** The [details] element every renderer appends: a summary line and one
    table or list. *)
Definition section (summary : string) (body : Node) : Node :=
  el "details" [("open", "true")] [el "summary" [] [Text summary]; body].

Definition th (text : string) : Node := el "th" [] [Text text].
Definition code (text : string) : Node := el "code" [] [Text text].

Definition renderSettings (manifest : Manifest.IExtensionManifest) : Render () :=
  contributes ← getContributes manifest;
  let configuration := Manifest.configuration contributes in
  let properties := configuration ≫= Manifest.properties in
  let contrib := from_option objectKeys [] properties in
  if bool_decide (length contrib = 0) then mret () else
  append (section
    (localize "settings" "Settings ({0})" (Some (numberToString (length contrib))))
    (el "table" []
      (el "tr" [] [th (localize "setting name" "Name" None);
                   th (localize "description" "Description" None)]
       :: map (λ p : string * Manifest.IConfigurationProperty,
                 el "tr" [] [el "td" [] [code p.1];
                             el "td" [] [Text (Manifest.description p.2)]])
              (default [] properties)))).

Definition renderDebuggers (manifest : Manifest.IExtensionManifest) : Render () :=
  contributes ← getContributes manifest;
  let contrib := default [] (Manifest.debuggers contributes) in
  if bool_decide (length contrib = 0) then mret () else
  append (section
    (localize "debuggers" "Debuggers ({0})" (Some (numberToString (length contrib))))
    (el "table" []
      (el "tr" [] [th (localize "debugger name" "Name" None);
                   th (localize "runtime" "Runtime" None)]
       :: map (λ d, el "tr" []
                 [el "td" [] [Text (orElse (Manifest.debuggerLabel d) (Manifest.type d))];
                  el "td" [] [Text (Manifest.runtime d)]])
              contrib))).

Definition renderThemes (manifest : Manifest.IExtensionManifest) : Render () :=
  contributes ← getContributes manifest;
  let contrib := default [] (Manifest.themes contributes) in
  if bool_decide (length contrib = 0) then mret () else
  append (section
    (localize "themes" "Themes ({0})" (Some (numberToString (length contrib))))
    (el "ul" [] (map (λ theme, el "li" [] [Text (Manifest.label theme)]) contrib))).

Definition renderJSONValidation (manifest : Manifest.IExtensionManifest) : Render () :=
  contributes ← getContributes manifest;
  let contrib := default [] (Manifest.jsonValidation contributes) in
  if bool_decide (length contrib = 0) then mret () else
  append (section
    (localize "JSON Validation" "JSON Validation ({0})"
       (Some (numberToString (length contrib))))
    (el "ul" [] (map (λ v, el "li" [] [Text (Manifest.fileMatch v)]) contrib))).

(** ** The Commands table *)

(** The local interface [Command] of [renderCommands]. *)
Module Command.
Record t := mk {
  id : string;
  title : string;
  keybindings : list string;
  menus : list string
}.

(** [command.menus.push(context)] and [command.keybindings.push(key)]. *)
Definition pushMenu (context : string) (c : t) : t :=
  mk (id c) (title c) (keybindings c) (menus c ++ [context]).
Definition pushKeybinding (key : string) (c : t) : t :=
  mk (id c) (title c) (keybindings c ++ [key]) (menus c).
End Command.

(** The keybinding machinery the table delegates to:
    [Keybinding.fromUserSettingsLabel] of [vs/base/common/keyCodes] and
    [getLabelFor] of the injected [IKeybindingService]. *)
Class KeybindingServices := {
  keyValue : Type;
  fromUserSettingsLabel : string → keyValue;
  Keybinding : Type;
  newKeybinding : keyValue → Keybinding;
  getLabelFor : Keybinding → string
}.

(** [allCommands] is an object literal [{}] used as a dictionary from command
    id to [Command].  The [Command] objects are shared with the [commands]
    array, so the dictionary holds their indices in that array.  Reading a key
    of such an object also finds what it inherits: the members of
    [Object.prototype], and the members of whatever object an assignment to the
    key [__proto__] installed as its prototype. *)
Record Dictionary := {
  own : gmap string nat;
  proto : option nat
}.

Definition emptyDictionary : Dictionary := {| own := ∅; proto := None |}.

(** The property names every object inherits from [Object.prototype]. *)
Definition objectPrototypeKeys : list string :=
  [ "constructor"; "hasOwnProperty"; "isPrototypeOf"; "propertyIsEnumerable";
    "toLocaleString"; "toString"; "valueOf"; "__defineGetter__";
    "__defineSetter__"; "__lookupGetter__"; "__lookupSetter__"; "__proto__" ].

(** What [allCommands[key]] evaluates to, as far as the code can tell: a
    [Command] of the array, a falsy value ([undefined] or an empty string),
    or a truthy value that is no [Command] and has neither a [menus] nor a
    [keybindings] array. *)
Inductive Lookup :=
| Found (index : nat)
| Missing
| Inherited.

Definition ofString (s : string) : Lookup :=
  if truthy s then Inherited else Missing.

Definition viaObjectPrototype (key : string) : Lookup :=
  if bool_decide (key ∈ objectPrototypeKeys) then Inherited else Missing.

Definition dictionaryGet (commands : list Command.t) (d : Dictionary)
    (key : string) : Lookup :=
  if String.eqb key "__proto__" then
    match proto d with
    | Some i => Found i
    | None => Inherited
    end
  else
    match own d !! key with
    | Some i => Found i
    | None =>
        match proto d ≫= (commands !!.) with
        | Some c =>
            if String.eqb key "id" then ofString (Command.id c)
            else if String.eqb key "title" then ofString (Command.title c)
            else if String.eqb key "keybindings" then Inherited
            else if String.eqb key "menus" then Inherited
            else viaObjectPrototype key
        | None => viaObjectPrototype key
        end
    end.

(** [allCommands[key] = command]: the key [__proto__] replaces the prototype,
    any other key defines an own property. *)
Definition dictionarySet (d : Dictionary) (key : string) (index : nat) : Dictionary :=
  if String.eqb key "__proto__" then {| own := own d; proto := Some index |}
  else {| own := <[key := index]> (own d); proto := proto d |}.

(** [commands.reduce((r, c) => { r[c.id] = c; return r; }, {})], the array
    being walked from index [i]. *)
Fixpoint reduceFrom (i : nat) (cs : list Command.t) (r : Dictionary) : Dictionary :=
  match cs with
  | [] => r
  | c :: cs' => reduceFrom (S i) cs' (dictionarySet r (Command.id c) i)
  end.

Record Table := {
  commands : list Command.t;
  allCommands : Dictionary
}.

(** [array.forEach(f)] for a callback that may throw. *)
Fixpoint forEach {A S} (f : A → S → Result S) (l : list A) (s : S) : Result S :=
  match l with
  | [] => Ok s
  | x :: l' =>
      match f x s with
      | Ok s' => forEach f l' s'
      | Throw e => Throw e
      end
  end.

(** The body shared by the two loops: look the id up; when the lookup is
    falsy, register a fresh command, otherwise push onto the array of the
    command found; a push onto an array that is not there throws. *)
Definition refer (fresh : Command.t) (push : Command.t → Command.t)
    (t : Table) : Result Table :=
  match dictionaryGet (commands t) (allCommands t) (Command.id fresh) with
  | Missing =>
      Ok {| commands := (commands t ++ [fresh]);
            allCommands := dictionarySet (allCommands t) (Command.id fresh)
                             (length (commands t)) |}
  | Found i =>
      Ok {| commands := alter push i (commands t);
            allCommands := allCommands t |}
  | Inherited => Throw TypeError
  end.

Definition addMenu (context : string) (menu : Manifest.IMenu) : Table → Result Table :=
  refer (Command.mk (Manifest.menuCommand menu) "" [] [context])
        (Command.pushMenu context).

Section Commands.
Context `{KeybindingServices}.

Definition keyLabel (userString : Manifest.IKeyBinding) : string :=
  getLabelFor (newKeybinding (fromUserSettingsLabel (Manifest.key userString))).

Definition addKeybinding (userString : Manifest.IKeyBinding) : Table → Result Table :=
  let key := keyLabel userString in
  refer (Command.mk (Manifest.keyCommand userString) "" [key] [])
        (Command.pushKeybinding key).

Definition declaredCommands (contributes : Manifest.IExtensionContributions)
    : list Command.t :=
  map (λ c, Command.mk (Manifest.command c) (Manifest.title c) [] [])
      (default [] (Manifest.commands contributes)).

(** The [commands] array once both loops have run. *)
Definition collectCommands (contributes : Manifest.IExtensionContributions)
    : Result (list Command.t) :=
  let commands0 := declaredCommands contributes in
  let allCommands0 := reduceFrom 0 commands0 emptyDictionary in
  let menus := default [] (Manifest.menus contributes) in
  match forEach (λ entry : string * list Manifest.IMenu,
                   forEach (addMenu entry.1) entry.2)
                menus {| commands := commands0; allCommands := allCommands0 |} with
  | Throw e => Throw e
  | Ok t =>
      match forEach addKeybinding (default [] (Manifest.keybindings contributes)) t with
      | Throw e => Throw e
      | Ok t' => Ok (commands t')
      end
  end.

Definition commandRow (c : Command.t) : Node :=
  el "tr" []
    [ el "td" [] [Text (Command.id c)];
      el "td" [] [Text (Command.title c)];
      el "td" [] (map code (Command.keybindings c));
      el "td" [] (map code (Command.menus c)) ].

Definition renderCommands (manifest : Manifest.IExtensionManifest) : Render () :=
  contributes ← getContributes manifest;
  commands ← liftResult (collectCommands contributes);
  if bool_decide (length commands = 0) then mret () else
  append (section
    (localize "commands" "Commands ({0})" (Some (numberToString (length commands))))
    (el "table" []
      (el "tr" [] [th (localize "command name" "Name" None);
                   th (localize "description" "Description" None);
                   th (localize "keyboard shortcuts" "Keyboard Shortcuts" None);
                   th (localize "menuContexts" "Menu Contexts" None)]
       :: map commandRow commands))).

(** The handler of [openContributions]: the five renderers in the order of
    the source, each appending to the [subcontent] container. *)
Definition renderContributions (manifest : Manifest.IExtensionManifest) : Render () :=
  renderSettings manifest;;
  renderCommands manifest;;
  renderThemes manifest;;
  renderJSONValidation manifest;;
  renderDebuggers manifest.

End Commands.

(** ** The README document *)

Definition quote : string := String "034"%char EmptyString.
Definition newline : string := String "010"%char EmptyString.
Definition tab : string := String "009"%char EmptyString.

Fixpoint tabs (n : nat) : string :=
  match n with
  | 0 => ""
  | S n' => tab +:+ tabs n'
  end.

(** What became of the [WebView] the README handler creates: it shows the
    document, or something on the way threw, before or after the view attached
    its element to the content panel (and then before or after the document
    was assigned to it). *)
Inductive Display :=
| Displayed
| FailedDetached
| FailedAttached (assigned : bool).

(** The services behind the README panel: [marked.parse], [require.toUrl] and
    the [WebView] with the theme service styling it. *)
Class ReadmeServices := {
  markedParse : string → Result string;
  toUrl : string → string;
  display : string → Display
}.

Section Readme.
Context `{ReadmeServices}.

Definition documentHead : string :=
  "<!DOCTYPE html>" +:+ newline +:+
  tabs 2 +:+ "<html>" +:+ newline +:+
  tabs 3 +:+ "<head>" +:+ newline +:+
  tabs 4 +:+ "<meta http-equiv=" +:+ quote +:+ "Content-type" +:+ quote +:+
    " content=" +:+ quote +:+ "text/html;charset=UTF-8" +:+ quote +:+ ">" +:+ newline +:+
  tabs 4 +:+ "<link rel=" +:+ quote +:+ "stylesheet" +:+ quote +:+
    " type=" +:+ quote +:+ "text/css" +:+ quote +:+
    " href=" +:+ quote +:+ toUrl "./media/markdown.css" +:+ quote +:+ " >" +:+ newline +:+
  tabs 3 +:+ "</head>" +:+ newline +:+
  tabs 3 +:+ "<body>".

Definition documentTail : string :=
  "</body>" +:+ newline +:+ tabs 2 +:+ "</html>".

Definition renderBody (body : string) : string :=
  documentHead +:+ body +:+ documentTail.

End Readme.

(** [needle] occurs somewhere in [text]. *)
Definition occursIn (needle text : string) : bool :=
  bool_decide (is_Some (String.index 0 needle text)).

(** ** Promises, caches and disposables *)

Inductive Settled (A : Type) :=
| Resolved (a : A)
| Rejected.
Arguments Resolved {A} a.
Arguments Rejected {A}.

(** Modelled from the spec: the promise library ([vs/base/common/winjs.base])
    is not among the sources.  A promise is pending or settled once and for
    all; a continuation attached to a settled promise runs at once, one
    attached to a pending promise runs when the promise settles; cancelling a
    pending chain ("cancel a pending load when a new one starts") keeps its
    continuation from ever running. *)
Definition Promise (A : Type) : Type := option (Settled A).

(** The extension shown, reduced to its two fetches: the promise each call
    hands back, in the state it has on return. *)
Record IExtension := {
  getReadme : Promise string;
  getManifest : Promise Manifest.IExtensionManifest
}.

(** Modelled from the spec: the class [Cache] ([vs/base/common/cache]) is not
    among the sources.  It is built from a task and its [get()] does what the
    spec says, "cache a promise so repeat views reuse prior fetch results":
    the first call runs the task and keeps the promise, later calls hand the
    kept promise back.  [task] is the extension whose fetch the closure calls,
    [promise] the reference kept. *)
Record Cache := {
  task : IExtension;
  promise : option nat
}.

Inductive Panel :=
| Readme
| Contributions.

Global Instance Panel_eq_dec : EqDecision Panel.
Proof. solve_decision. Defined.

Inductive LoadStatus :=
| Running
| Completed
| Failed
| Cancelled.

Global Instance LoadStatus_eq_dec : EqDecision LoadStatus.
Proof. solve_decision. Defined.

(** The promise chain a call of [loadContents] builds: which panel it loads,
    which fetch it waits for, and how far it got. *)
Record Load := {
  panel : Panel;
  source : nat;
  status : LoadStatus
}.

Definition withStatus (st : LoadStatus) (l : Load) : Load :=
  {| panel := panel l; source := source l; status := st |}.

Inductive Disposable :=
| CancelLoad (load : nat)
| WebViewHandle
| LinkListener
| ThemeListener
| NavbarListener (registration : nat)
| Widget (name : string).

Global Instance Disposable_eq_dec : EqDecision Disposable.
Proof. solve_decision. Defined.

(** A call this component makes on the extension, with the number of the
    [setInput] call that installed the extension. *)
Inductive Call :=
| GetReadme (input : nat)
| GetManifest (input : nat).

Global Instance Call_eq_dec : EqDecision Call.
Proof. solve_decision. Defined.

(** ** The navigation bar *)

Module NavBar.

Record Action := {
  id : string;
  label : string;
  enabled : bool
}.

Record t := {
  actions : list Action;
  listeners : list nat
}.

Definition empty : t := {| actions := []; listeners := [] |}.

(** [clear()]: the actions are disposed and dropped. *)
Definition clear (n : t) : t := {| actions := []; listeners := listeners n |}.

(** [onChange(listener)], the registration being numbered [k]. *)
Definition onChange (k : nat) (n : t) : t :=
  {| actions := actions n; listeners := (listeners n ++ [k]) |}.

Definition removeListener (k : nat) (n : t) : t :=
  {| actions := actions n;
     listeners := filter (λ k', k' ≠ k) (listeners n) |}.

(** [this.actions.forEach(a => a.enabled = a.id !== action.id)]. *)
Definition select (id' : string) (n : t) : t :=
  {| actions := map (λ a, {| id := id a; label := label a;
                             enabled := negb (String.eqb (id a) id') |})
                    (actions n);
     listeners := listeners n |}.

Definition addAction (id' label' : string) (n : t) : t :=
  {| actions := (actions n ++ [{| id := id'; label := label'; enabled := true |}]);
     listeners := listeners n |}.

Definition hasAction (id' : string) (n : t) : bool :=
  existsb (λ a, String.eqb (id a) id') (actions n).

End NavBar.

Module NavbarSection.
Definition Readme : string := "readme".
Definition Contributions : string := "contributions".
End NavbarSection.

(** ** The editor *)

(** The fields of [ExtensionEditor] that the navigation bar, the caches and
    [loadContents] work on, the promises and promise chains alive in the heap,
    and the trace of calls made on the extension. *)
Record Editor := {
  navbar : NavBar.t;
  extensionReadme : option Cache;
  extensionManifest : option Cache;
  content : list Node;
  loading : bool;
  contentDisposables : list Disposable;
  transientDisposables : list Disposable;
  readmes : list (Promise string);
  manifests : list (Promise Manifest.IExtensionManifest);
  loads : list Load;
  calls : list Call;
  input : nat
}.

Definition setNavbar v (s : Editor) : Editor :=
  {| navbar := v; extensionReadme := extensionReadme s;
     extensionManifest := extensionManifest s; content := content s;
     loading := loading s; contentDisposables := contentDisposables s;
     transientDisposables := transientDisposables s; readmes := readmes s;
     manifests := manifests s; loads := loads s; calls := calls s;
     input := input s |}.

Definition setCaches r m (s : Editor) : Editor :=
  {| navbar := navbar s; extensionReadme := r;
     extensionManifest := m; content := content s;
     loading := loading s; contentDisposables := contentDisposables s;
     transientDisposables := transientDisposables s; readmes := readmes s;
     manifests := manifests s; loads := loads s; calls := calls s;
     input := input s |}.

Definition setContent v (s : Editor) : Editor :=
  {| navbar := navbar s; extensionReadme := extensionReadme s;
     extensionManifest := extensionManifest s; content := v;
     loading := loading s; contentDisposables := contentDisposables s;
     transientDisposables := transientDisposables s; readmes := readmes s;
     manifests := manifests s; loads := loads s; calls := calls s;
     input := input s |}.

Definition setLoading v (s : Editor) : Editor :=
  {| navbar := navbar s; extensionReadme := extensionReadme s;
     extensionManifest := extensionManifest s; content := content s;
     loading := v; contentDisposables := contentDisposables s;
     transientDisposables := transientDisposables s; readmes := readmes s;
     manifests := manifests s; loads := loads s; calls := calls s;
     input := input s |}.

Definition setContentDisposables v (s : Editor) : Editor :=
  {| navbar := navbar s; extensionReadme := extensionReadme s;
     extensionManifest := extensionManifest s; content := content s;
     loading := loading s; contentDisposables := v;
     transientDisposables := transientDisposables s; readmes := readmes s;
     manifests := manifests s; loads := loads s; calls := calls s;
     input := input s |}.

Definition setTransientDisposables v (s : Editor) : Editor :=
  {| navbar := navbar s; extensionReadme := extensionReadme s;
     extensionManifest := extensionManifest s; content := content s;
     loading := loading s; contentDisposables := contentDisposables s;
     transientDisposables := v; readmes := readmes s;
     manifests := manifests s; loads := loads s; calls := calls s;
     input := input s |}.

Definition setReadmes v (s : Editor) : Editor :=
  {| navbar := navbar s; extensionReadme := extensionReadme s;
     extensionManifest := extensionManifest s; content := content s;
     loading := loading s; contentDisposables := contentDisposables s;
     transientDisposables := transientDisposables s; readmes := v;
     manifests := manifests s; loads := loads s; calls := calls s;
     input := input s |}.

Definition setManifests v (s : Editor) : Editor :=
  {| navbar := navbar s; extensionReadme := extensionReadme s;
     extensionManifest := extensionManifest s; content := content s;
     loading := loading s; contentDisposables := contentDisposables s;
     transientDisposables := transientDisposables s; readmes := readmes s;
     manifests := v; loads := loads s; calls := calls s;
     input := input s |}.

Definition setLoads v (s : Editor) : Editor :=
  {| navbar := navbar s; extensionReadme := extensionReadme s;
     extensionManifest := extensionManifest s; content := content s;
     loading := loading s; contentDisposables := contentDisposables s;
     transientDisposables := transientDisposables s; readmes := readmes s;
     manifests := manifests s; loads := v; calls := calls s;
     input := input s |}.

Definition setCalls v (s : Editor) : Editor :=
  {| navbar := navbar s; extensionReadme := extensionReadme s;
     extensionManifest := extensionManifest s; content := content s;
     loading := loading s; contentDisposables := contentDisposables s;
     transientDisposables := transientDisposables s; readmes := readmes s;
     manifests := manifests s; loads := loads s; calls := v;
     input := input s |}.

Definition setInputNumber v (s : Editor) : Editor :=
  {| navbar := navbar s; extensionReadme := extensionReadme s;
     extensionManifest := extensionManifest s; content := content s;
     loading := loading s; contentDisposables := contentDisposables s;
     transientDisposables := transientDisposables s; readmes := readmes s;
     manifests := manifests s; loads := loads s; calls := calls s;
     input := v |}.

(** The editor after its constructor and [createEditor]. *)
Definition initial : Editor :=
  {| navbar := NavBar.empty; extensionReadme := None; extensionManifest := None;
     content := []; loading := false; contentDisposables := [];
     transientDisposables := []; readmes := []; manifests := []; loads := [];
     calls := []; input := 0 |}.

(** [promise.cancel()] on the chain of a load: a chain that is still waiting
    is cancelled, a settled one is left as it is. *)
Definition cancel (l : Load) : Load :=
  match status l with
  | Running => withStatus Cancelled l
  | _ => l
  end.

Definition dispose (d : Disposable) (s : Editor) : Editor :=
  match d with
  | CancelLoad l => setLoads (alter cancel l (loads s)) s
  | NavbarListener k => setNavbar (NavBar.removeListener k (navbar s)) s
  | WebViewHandle | LinkListener | ThemeListener | Widget _ => s
  end.

(** [dispose(array)]. *)
Definition disposeAll (ds : list Disposable) (s : Editor) : Editor :=
  foldl (λ s' d, dispose d s') s ds.

(** The first three statements of [loadContents]. *)
Definition beginLoad (s : Editor) : Editor :=
  setLoading true
    (setContent [] (setContentDisposables [] (disposeAll (contentDisposables s) s))).

(** A load settles: its chain takes its final status and the wrapper installed
    by [always] removes the [loading] class. *)
Definition settleLoad (l : nat) (st : LoadStatus) (s : Editor) : Editor :=
  setLoading false (setLoads (alter (withStatus st) l (loads s)) s).

Definition noReadme : Node :=
  el "p" [] [Text (localize "noReadme" "No README available." None)].

Definition subcontent (children : list Node) : Node :=
  el "div" [("class", "subcontent")] children.

Section Editor.
Context `{KeybindingServices} `{ReadmeServices}.

(** The rejection handler at the end of the README chain. *)
Definition showNoReadme (l : nat) (s : Editor) : Editor :=
  settleLoad l Completed (setContent (content s ++ [noReadme]) s).

(** The README chain from the fetched text on: [marked.parse], [renderBody],
    the [WebView], and the rejection handler behind them. *)
Definition readmeLoaded (l : nat) (r : Settled string) (s : Editor) : Editor :=
  match r with
  | Rejected => showNoReadme l s
  | Resolved readme =>
      match markedParse readme with
      | Throw _ => showNoReadme l s
      | Ok html =>
          let body := renderBody html in
          match display body with
          | Displayed =>
              settleLoad l Completed
                (setContentDisposables
                   (contentDisposables s ++ [WebViewHandle; LinkListener; ThemeListener])
                   (setContent (content s ++ [WebViewElement [body]]) s))
          | FailedDetached => showNoReadme l s
          | FailedAttached assigned =>
              showNoReadme l
                (setContent
                   (content s ++ [WebViewElement (if assigned then [body] else [])]) s)
          end
      end
  end.

(** The Contributions chain from the fetched manifest on.  It has no
    rejection handler: a rejected fetch and a throwing renderer reject the
    load, the latter with whatever was appended before. *)
Definition contributionsLoaded (l : nat)
    (r : Settled Manifest.IExtensionManifest) (s : Editor) : Editor :=
  match r with
  | Rejected => settleLoad l Failed s
  | Resolved manifest =>
      let rendered := renderContributions manifest [] in
      settleLoad l (if isOk rendered.2 then Completed else Failed)
        (setContent [subcontent rendered.1] s)
  end.

(** [this.extensionReadme.get()]; [None] when the field is still [null]. *)
Definition readmeGet (s : Editor) : option (nat * Editor) :=
  c ← extensionReadme s;
  match promise c with
  | Some p => Some (p, s)
  | None =>
      let p := length (readmes s) in
      Some (p, setCaches (Some {| task := task c; promise := Some p |})
                 (extensionManifest s)
                 (setCalls (calls s ++ [GetReadme (input s)])
                    (setReadmes (readmes s ++ [getReadme (task c)]) s)))
  end.

(** [this.extensionManifest.get()]. *)
Definition manifestGet (s : Editor) : option (nat * Editor) :=
  c ← extensionManifest s;
  match promise c with
  | Some p => Some (p, s)
  | None =>
      let p := length (manifests s) in
      Some (p, setCaches (extensionReadme s)
                 (Some {| task := task c; promise := Some p |})
                 (setCalls (calls s ++ [GetManifest (input s)])
                    (setManifests (manifests s ++ [getManifest (task c)]) s)))
  end.

(** The continuation of a load of panel [pn] on the outcome of its fetch. *)
Definition continue (pn : Panel) (p l : nat) (s : Editor) : Editor :=
  match pn with
  | Readme =>
      match readmes s !! p with
      | Some (Some r) => readmeLoaded l r s
      | _ => s
      end
  | Contributions =>
      match manifests s !! p with
      | Some (Some r) => contributionsLoaded l r s
      | _ => s
      end
  end.

(** The rest of [loadContents] once the task has its promise [p]: the chain
    is built (and runs at once on a settled promise), and its cancellation
    is registered. *)
Definition attach (pn : Panel) (p : nat) (s : Editor) : Editor :=
  let l := length (loads s) in
  let s1 := setLoads (loads s ++ [{| panel := pn; source := p; status := Running |}]) s in
  let s2 := continue pn p l s1 in
  setContentDisposables (contentDisposables s2 ++ [CancelLoad l]) s2.

Definition openReadme (s : Editor) : Editor :=
  let s1 := beginLoad s in
  match readmeGet s1 with
  | Some (p, s2) => attach Readme p s2
  | None => s1
  end.

Definition openContributions (s : Editor) : Editor :=
  let s1 := beginLoad s in
  match manifestGet s1 with
  | Some (p, s2) => attach Contributions p s2
  | None => s1
  end.

Definition onNavbarChange (id : string) (s : Editor) : Editor :=
  if String.eqb id NavbarSection.Readme then openReadme s
  else if String.eqb id NavbarSection.Contributions then openContributions s
  else s.

(** The closure [run] of [NavBar.push]: fire [onChange], then enable every
    action but the one run. *)
Definition run (id : string) (s : Editor) : Editor :=
  let s1 := foldl (λ s' _, onNavbarChange id s') s (NavBar.listeners (navbar s)) in
  setNavbar (NavBar.select id (navbar s1)) s1.

(** [NavBar.push]. *)
Definition push (id label : string) (s : Editor) : Editor :=
  let s1 := setNavbar (NavBar.addAction id label (navbar s)) s in
  if bool_decide (length (NavBar.actions (navbar s1)) = 1) then run id s1 else s1.

Definition setInput (extension : IExtension) (s : Editor) : Editor :=
  let s1 := setTransientDisposables [] (disposeAll (transientDisposables s) s) in
  let k := S (input s1) in
  let s2 := setInputNumber k s1 in
  let s3 := setCaches (Some {| task := extension; promise := None |})
                      (Some {| task := extension; promise := None |}) s2 in
  let s4 := setTransientDisposables
              [Widget "iconError"; Widget "install"; Widget "ratings";
               Widget "enableAction"; Widget "updateAction"; Widget "installAction"] s3 in
  let s5 := setNavbar (NavBar.clear (navbar s4)) s4 in
  let s6 := setTransientDisposables (transientDisposables s5 ++ [NavbarListener k])
              (setNavbar (NavBar.onChange k (navbar s5)) s5) in
  let s7 := push NavbarSection.Readme (localize "details" "Details" None) s6 in
  let s8 := push NavbarSection.Contributions
                 (localize "contributions" "Contributions" None) s7 in
  setContent [] s8.

(** A pending promise settles and the chains waiting on it run, in the order
    they were attached. *)
Definition deliver (pn : Panel) (p : nat) (s : Editor) : Editor :=
  foldl (λ s' l,
           match loads s' !! l with
           | Some ld =>
               if bool_decide (panel ld = pn ∧ source ld = p ∧ status ld = Running)
               then continue pn p l s' else s'
           | None => s'
           end)
        s (seq 0 (length (loads s))).

Inductive Event :=
| SetInput (extension : IExtension)
| Select (id : string)
| SettleReadme (p : nat) (r : Settled string)
| SettleManifest (p : nat) (r : Settled Manifest.IExtensionManifest).

Definition handle (e : Event) (s : Editor) : Editor :=
  match e with
  | SetInput extension => setInput extension s
  | Select id => if NavBar.hasAction id (navbar s) then run id s else s
  | SettleReadme p r =>
      match readmes s !! p with
      | Some None => deliver Readme p (setReadmes (<[p := Some r]> (readmes s)) s)
      | _ => s
      end
  | SettleManifest p r =>
      match manifests s !! p with
      | Some None => deliver Contributions p (setManifests (<[p := Some r]> (manifests s)) s)
      | _ => s
      end
  end.

Definition runEvents (es : list Event) (s : Editor) : Editor :=
  foldl (λ s' e, handle e s') s es.

Inductive reachable : Editor → Prop :=
| reachable_initial : reachable initial
| reachable_handle e s : reachable s → reachable (handle e s).

End Editor.

(** ** Reading a rendered panel *)

(** The five categories of the Contributions panel, in the order their
    renderers are called. *)
Inductive Category :=
| Settings
| Commands
| Themes
| JSONValidation
| Debuggers.

Definition categories : list Category :=
  [Settings; Commands; Themes; JSONValidation; Debuggers].

Definition categoryName (cat : Category) : string :=
  match cat with
  | Settings => "Settings"
  | Commands => "Commands"
  | Themes => "Themes"
  | JSONValidation => "JSON Validation"
  | Debuggers => "Debuggers"
  end.

(** The length of the list each renderer derives from the manifest; the list
    of the Commands renderer is the array its two loops leave behind. *)
Definition contributionCount (contributes : Manifest.IExtensionContributions)
    (commands : list Command.t) (cat : Category) : nat :=
  match cat with
  | Settings =>
      length (from_option objectKeys []
                (Manifest.configuration contributes ≫= Manifest.properties))
  | Commands => length commands
  | Themes => length (default [] (Manifest.themes contributes))
  | JSONValidation => length (default [] (Manifest.jsonValidation contributes))
  | Debuggers => length (default [] (Manifest.debuggers contributes))
  end.

(** The text of the summary line of a rendered section. *)
Definition summaryText (sec : Node) : option string :=
  match sec with
  | Element _ _ (Element _ _ [Text t] :: _) => Some t
  | _ => None
  end.

(** The entries of a rendered section: the rows of its table that hold data
    cells, or the items of its list. *)
Definition entries (sec : Node) : list Node :=
  match sec with
  | Element _ _ [_; body] =>
      if hasTag "table" body
      then filter (λ row, existsb (hasTag "td") (childrenOf row)) (childrenOf body)
      else childrenOf body
  | _ => []
  end.

(** The summary a section of [n] entries of category [cat] carries. *)
Definition summaryFor (cat : Category) (n : nat) : string :=
  categoryName cat +:+ " (" +:+ numberToString n +:+ ")".

(** The texts of the [code] elements of a cell, and the cells of a row of the
    Commands table. *)
Definition codeTexts (cell : Node) : list string :=
  omap (λ n, match n with
             | Element _ _ [Text t] => Some t
             | _ => None
             end) (childrenOf cell).

Definition cellText (cell : Node) : string :=
  match childrenOf cell with
  | [Text t] => t
  | _ => ""
  end.

Definition rowId (row : Node) : string :=
  from_option cellText "" (childrenOf row !! 0).
Definition rowTitle (row : Node) : string :=
  from_option cellText "" (childrenOf row !! 1).
Definition rowShortcuts (row : Node) : list string :=
  from_option codeTexts [] (childrenOf row !! 2).
Definition rowMenus (row : Node) : list string :=
  from_option codeTexts [] (childrenOf row !! 3).

(** ** The references of a manifest to command ids *)

(** What the two loops of [renderCommands] walk through: the entries of
    [menus], context by context, then the entries of [keybindings]. *)
Inductive Reference :=
| MenuReference (context : string) (menu : Manifest.IMenu)
| KeyReference (userString : Manifest.IKeyBinding).

Definition referenceId (r : Reference) : string :=
  match r with
  | MenuReference _ menu => Manifest.menuCommand menu
  | KeyReference userString => Manifest.keyCommand userString
  end.

Definition menuReferences (menus : JsObject (list Manifest.IMenu)) : list Reference :=
  concat (map (λ entry : string * list Manifest.IMenu,
                 map (MenuReference entry.1) entry.2) menus).

Definition references (contributes : Manifest.IExtensionContributions) : list Reference :=
  (menuReferences (default [] (Manifest.menus contributes))
   ++ map KeyReference (default [] (Manifest.keybindings contributes))).

(** The contexts of the menu entries among [refs] that name the command [id],
    in the order they are read. *)
Definition menusOf (id : string) (refs : list Reference) : list string :=
  omap (λ r, match r with
             | MenuReference context menu =>
                 if bool_decide (Manifest.menuCommand menu = id) then Some context else None
             | KeyReference _ => None
             end) refs.

(** The title [contributes.commands] declares for [id], or the empty title. *)
Definition declaredTitle (declared : list Manifest.ICommand) (id : string) : string :=
  from_option Manifest.title ""
    (find (λ c, String.eqb (Manifest.command c) id) declared).

Definition declaredIds (contributes : Manifest.IExtensionContributions) : list string :=
  map Manifest.command (default [] (Manifest.commands contributes)).

Section References.
Context `{KeybindingServices}.

Definition addReference (r : Reference) : Table → Result Table :=
  match r with
  | MenuReference context menu => addMenu context menu
  | KeyReference userString => addKeybinding userString
  end.

(** The labels of the keybinding entries among [refs] that name the command
    [id], each obtained from the keybinding service. *)
Definition shortcutsOf (id : string) (refs : list Reference) : list string :=
  omap (λ r, match r with
             | KeyReference userString =>
                 if bool_decide (Manifest.keyCommand userString = id)
                 then Some (getLabelFor (newKeybinding
                              (fromUserSettingsLabel (Manifest.key userString))))
                 else None
             | MenuReference _ _ => None
             end) refs.

(** The labels of all keybinding entries among [refs]. *)
Definition shortcuts (refs : list Reference) : list string :=
  omap (λ r, match r with
             | KeyReference userString =>
                 Some (getLabelFor (newKeybinding
                         (fromUserSettingsLabel (Manifest.key userString))))
             | MenuReference _ _ => None
             end) refs.

(** The table both loops start from. *)
Definition initialTable (contributes : Manifest.IExtensionContributions) : Table :=
  {| commands := declaredCommands contributes;
     allCommands := reduceFrom 0 (declaredCommands contributes) emptyDictionary |}.

End References.

(** ** Sample inputs *)

(** Stand-ins for the injected services, to run the definitions on concrete
    manifests: a key string is its own key value and its label is the string
    between angle brackets; markdown is handed on untouched and every
    document is displayed. *)
Definition sampleKeybindings : KeybindingServices :=
  {| keyValue := string;
     fromUserSettingsLabel := λ key, key;
     Keybinding := string;
     newKeybinding := λ value, value;
     getLabelFor := λ keybinding, "<" +:+ keybinding +:+ ">" |}.

Definition sampleReadme : ReadmeServices :=
  {| markedParse := Ok;
     toUrl := λ path, path;
     display := λ _, Displayed |}.

Definition manifestOf (contributes : Manifest.IExtensionContributions)
    : Manifest.IExtensionManifest :=
  {| Manifest.name := "sample"; Manifest.contributes := Some contributes |}.

(** [contributes.commands] declaring the id [a] twice. *)
Definition declaredTwice : Manifest.IExtensionContributions :=
  {| Manifest.commands :=
       Some [ {| Manifest.command := "a"; Manifest.title := "First" |};
              {| Manifest.command := "a"; Manifest.title := "Second" |} ];
     Manifest.configuration := None; Manifest.debuggers := None;
     Manifest.jsonValidation := None; Manifest.keybindings := None;
     Manifest.menus := None; Manifest.themes := None |}.

(** One declared command, referenced by a menu and a keybinding, one command
    only a menu refers to, one theme and one setting. *)
Definition smallContributes : Manifest.IExtensionContributions :=
  {| Manifest.commands :=
       Some [ {| Manifest.command := "ext.hello"; Manifest.title := "Hello" |} ];
     Manifest.configuration :=
       Some {| Manifest.properties :=
                 Some [("ext.enabled", {| Manifest.description := "Enable" |})] |};
     Manifest.debuggers := None;
     Manifest.jsonValidation := None;
     Manifest.keybindings :=
       Some [ {| Manifest.keyCommand := "ext.hello"; Manifest.key := "ctrl+h" |} ];
     Manifest.menus :=
       Some [("editor/title", [ {| Manifest.menuCommand := "ext.hello" |};
                                {| Manifest.menuCommand := "ext.other" |} ])];
     Manifest.themes := Some [ {| Manifest.label := "Dark" |} ] |}.

(** A menu entry naming a command id that every object inherits. *)
Definition inheritedId : Manifest.IExtensionContributions :=
  {| Manifest.commands := None; Manifest.configuration := None;
     Manifest.debuggers := None; Manifest.jsonValidation := None;
     Manifest.keybindings := None;
     Manifest.menus := Some [("editor/title", [ {| Manifest.menuCommand := "valueOf" |} ])];
     Manifest.themes := Some [ {| Manifest.label := "Dark" |} ] |}.

(** ** Reading the content panel *)

(** What the README panel puts into the content element: the element of its
    [WebView] and the paragraph of its rejection handler.  What the
    Contributions panel puts there: its [subcontent] container. *)
Definition readmeNode (n : Node) : bool :=
  match n with
  | WebViewElement _ => true
  | Element tag _ _ => String.eqb tag "p"
  | Text _ => false
  end.

Definition contributionsNode (n : Node) : bool :=
  match n with
  | Element tag _ _ => String.eqb tag "div"
  | _ => false
  end.

Definition showsReadme (s : Editor) : bool := existsb readmeNode (content s).
Definition showsContributions (s : Editor) : bool := existsb contributionsNode (content s).

(** No promise chain of the editor is waiting. *)
Definition idle (s : Editor) : Prop :=
  ∀ l ld, loads s !! l = Some ld → status ld ≠ Running.

(** The number of chains that are waiting. *)
Definition runningLoads (s : Editor) : nat :=
  length (filter (λ ld, status ld = Running) (loads s)).

(** How often a call occurs in the trace. *)
Definition callCount (c : Call) (s : Editor) : nat :=
  length (filter (λ c', c' = c) (calls s)).

Definition callInput (c : Call) : nat :=
  match c with
  | GetReadme k => k
  | GetManifest k => k
  end.

(** The content panel holds what one panel put there: nodes of the README
    panel only, or the container of the Contributions panel only. *)
Definition onePanel (nodes : list Node) : Prop :=
  Forall (λ n, readmeNode n = true) nodes ∨ ∃ children, nodes = [subcontent children].

(** A chain ran its continuation: how the state after it relates to the state
    before. *)
Record Continued (l : nat) (s s' : Editor) : Prop := {
  continued_loads :
    ∃ st, st ≠ Running ∧ loads s' = alter (withStatus st) l (loads s);
  continued_content :
    (∃ extra, content s' = content s ++ extra ∧ Forall (λ n, readmeNode n = true) extra)
    ∨ (∃ children, content s' = [subcontent children]);
  continued_disposables :
    ∃ ds, contentDisposables s' = contentDisposables s ++ ds
          ∧ ∀ k, NavbarListener k ∉ ds;
  continued_navbar : navbar s' = navbar s;
  continued_transient : transientDisposables s' = transientDisposables s;
  continued_calls : calls s' = calls s;
  continued_input : input s' = input s;
  continued_readme : extensionReadme s' = extensionReadme s;
  continued_manifest : extensionManifest s' = extensionManifest s;
  continued_readmes : readmes s' = readmes s;
  continued_manifests : manifests s' = manifests s
}.

(** What the editor keeps true of its loads and its content panel: a waiting
    chain has its cancellation registered, it is the newest chain, and the
    panel is empty while it waits; the panel never mixes the two panels. *)
Record LoadsInv (s : Editor) : Prop := {
  inv_cancel : ∀ l ld, loads s !! l = Some ld → status ld = Running →
               CancelLoad l ∈ contentDisposables s;
  inv_last : ∀ l ld, loads s !! l = Some ld → status ld = Running →
             S l = length (loads s);
  inv_blank : ∀ l ld, loads s !! l = Some ld → status ld = Running → content s = [];
  inv_content : onePanel (content s)
}.

(** Two states agree on the caches and on the trace of calls. *)
Definition sameCalls (s s' : Editor) : Prop :=
  calls s' = calls s ∧ input s' = input s
  ∧ extensionReadme s' = extensionReadme s
  ∧ extensionManifest s' = extensionManifest s.

(** Two states agree on the navigation bar and the transient disposables. *)
Definition sameNav (s s' : Editor) : Prop :=
  navbar s' = navbar s ∧ transientDisposables s' = transientDisposables s.

(** No listener of the navigation bar is among the disposables. *)
Definition quiet (ds : list Disposable) : Prop := ∀ k, NavbarListener k ∉ ds.

(** What the editor keeps true of its calls on the extension: a call belongs
    to an input already set, no call is made twice, and a cache that holds no
    promise has not called its task. *)
Record CallsInv (s : Editor) : Prop := {
  calls_bound : ∀ c, c ∈ calls s → (callInput c ≤ input s)%nat;
  calls_once : ∀ c, (callCount c s ≤ 1)%nat;
  calls_readme : ∀ c, extensionReadme s = Some c → promise c = None →
                 GetReadme (input s) ∉ calls s;
  calls_manifest : ∀ c, extensionManifest s = Some c → promise c = None →
                   GetManifest (input s) ∉ calls s
}.

(** What the editor keeps true of its listeners: each listener of the
    navigation bar is disposed with the transient disposables, and none with
    the content disposables. *)
Record NavInv (s : Editor) : Prop := {
  nav_listeners : ∀ k, k ∈ NavBar.listeners (navbar s) →
                  NavbarListener k ∈ transientDisposables s;
  nav_content : quiet (contentDisposables s)
}.

(** The README chain fails on the outcome [r] of the fetch: the fetch was
    rejected, [marked.parse] threw, or the document could not be displayed. *)
Definition readmeFails `{ReadmeServices} (r : Settled string) : Prop :=
  match r with
  | Rejected => True
  | Resolved readme =>
      match markedParse readme with
      | Throw _ => True
      | Ok html => display (renderBody html) ≠ Displayed
      end
  end.

(** An extension whose two fetches are still pending when they return. *)
Definition pendingExtension : IExtension :=
  {| getReadme := None; getManifest := None |}.

(** A rendered README body with script markup. *)
Definition scriptBody : string := "<script>alert(1)</script>".

(** ** What the renderers build and keep true *)

(** What a renderer that appends one section for a non-empty list leaves in
    its container. *)
Definition appended (n : nat) (sec : Node) : list Node :=
  if bool_decide (n = 0) then [] else [sec].

(** The section each renderer appends when its list is not empty. *)
Definition settingsSection (contributes : Manifest.IExtensionContributions) : Node :=
  section (summaryFor Settings (contributionCount contributes [] Settings))
    (el "table" []
      (el "tr" [] [th "Name"; th "Description"]
       :: map (λ p : string * Manifest.IConfigurationProperty,
                 el "tr" [] [el "td" [] [code p.1];
                             el "td" [] [Text (Manifest.description p.2)]])
              (default [] (Manifest.configuration contributes ≫= Manifest.properties)))).

Definition themesSection (contributes : Manifest.IExtensionContributions) : Node :=
  section (summaryFor Themes (contributionCount contributes [] Themes))
    (el "ul" [] (map (λ theme, el "li" [] [Text (Manifest.label theme)])
                     (default [] (Manifest.themes contributes)))).

Definition jsonValidationSection (contributes : Manifest.IExtensionContributions) : Node :=
  section (summaryFor JSONValidation (contributionCount contributes [] JSONValidation))
    (el "ul" [] (map (λ v, el "li" [] [Text (Manifest.fileMatch v)])
                     (default [] (Manifest.jsonValidation contributes)))).

Definition debuggersSection (contributes : Manifest.IExtensionContributions) : Node :=
  section (summaryFor Debuggers (contributionCount contributes [] Debuggers))
    (el "table" []
      (el "tr" [] [th "Name"; th "Runtime"]
       :: map (λ d, el "tr" []
                 [el "td" [] [Text (orElse (Manifest.debuggerLabel d) (Manifest.type d))];
                  el "td" [] [Text (Manifest.runtime d)]])
              (default [] (Manifest.debuggers contributes)))).

Section CommandsSection.
Context `{KeybindingServices}.

Definition commandsSection (commands : list Command.t) : Node :=
  section (summaryFor Commands (length commands))
    (el "table" []
      (el "tr" [] [th "Name"; th "Description"; th "Keyboard Shortcuts"; th "Menu Contexts"]
       :: map commandRow commands)).

End CommandsSection.

(** [holds d key i]: the dictionary answers a lookup of [key] with the command
    at index [i]. *)
Definition holds (d : Dictionary) (key : string) (i : nat) : Prop :=
  if String.eqb key "__proto__" then proto d = Some i else own d !! key = Some i.

(** Every answer of the dictionary is a command of the array, and it has the
    id that was asked for. *)
Definition dictOk (commands : list Command.t) (d : Dictionary) : Prop :=
  ∀ key i, holds d key i → ∃ c, commands !! i = Some c ∧ Command.id c = key.

(** Every command of the array is found under its id. *)
Definition covered (commands : list Command.t) (d : Dictionary) : Prop :=
  ∀ c, c ∈ commands → ∃ i, holds d (Command.id c) i.

(** [loads'] comes from [loads] by settling or cancelling some chains. *)
Definition settles (loads loads' : list Load) : Prop :=
  length loads' = length loads
  ∧ ∀ l ld', loads' !! l = Some ld' →
      ∃ ld, loads !! l = Some ld ∧ (status ld' = Running → ld' = ld).

(** The navigation bar [setInput] leaves behind. *)
Definition twoTabs (k : nat) : NavBar.t :=
  {| NavBar.actions :=
       [ {| NavBar.id := "readme"; NavBar.label := "Details"; NavBar.enabled := false |};
         {| NavBar.id := "contributions"; NavBar.label := "Contributions";
            NavBar.enabled := true |} ];
     NavBar.listeners := [k] |}.

Section Invariant.
Context `{KeybindingServices}.

(** The part that holds for any manifest: the dictionary answers with
    commands of the right id, every label shown was obtained for a
    keybinding entry naming the command of its row, and no label is lost. *)
Record Sound (done : list Reference) (t : Table) : Prop := {
  sound_dict : dictOk (commands t) (allCommands t);
  sound_all : concat (map Command.keybindings (commands t)) ≡ₚ shortcuts done;
  sound_row : ∀ c k, c ∈ commands t → k ∈ Command.keybindings c →
              k ∈ shortcutsOf (Command.id c) done
}.

Variable contributes : Manifest.IExtensionContributions.

(** What holds when the declared ids are pairwise distinct: the array has
    one command for each id declared or referenced so far, found by the
    dictionary, carrying the declared title and everything that referenced
    the id. *)
Record Exact (done : list Reference) (t : Table) : Prop := {
  exact_dict : dictOk (commands t) (allCommands t);
  exact_covered : covered (commands t) (allCommands t);
  exact_nodup : NoDup (map Command.id (commands t));
  exact_ids : ∀ x, x ∈ map Command.id (commands t)
                   ↔ x ∈ declaredIds contributes ∨ x ∈ map referenceId done;
  exact_rows : ∀ c, c ∈ commands t →
    Command.title c
      = declaredTitle (default [] (Manifest.commands contributes)) (Command.id c)
    ∧ Command.menus c = menusOf (Command.id c) done
    ∧ Command.keybindings c = shortcutsOf (Command.id c) done
}.

End Invariant.

(** ** The order of the rows *)

(** The ids in the order they are first met, after those already [seen]: the
    order in which [commands.push] grows the array. *)
Definition firstSeen (seen ids : list string) : list string :=
  foldl (λ acc id, if bool_decide (id ∈ acc) then acc else acc ++ [id]) seen ids.

(** The dictionary answers a lookup of an id with the last command of the
    array that carries the id. *)
Definition pointsLast (commands : list Command.t) (d : Dictionary) : Prop :=
  ∀ key i, holds d key i →
    ∀ j c, commands !! j = Some c → Command.id c = key → (j ≤ i)%nat.

(** A command the dictionary does not answer with has nothing pushed onto
    it. *)
Definition shadowedBare (commands : list Command.t) (d : Dictionary) : Prop :=
  ∀ j c i, commands !! j = Some c → holds d (Command.id c) i → i ≠ j →
    Command.menus c = [] ∧ Command.keybindings c = [].

(** What both loops keep true of the array, whatever the manifest declares. *)
Definition tableInvariant `{KeybindingServices}
    (contributes : Manifest.IExtensionContributions)
    (done : list Reference) (t : Table) : Prop :=
  dictOk (commands t) (allCommands t)
  ∧ covered (commands t) (allCommands t)
  ∧ pointsLast (commands t) (allCommands t)
  ∧ shadowedBare (commands t) (allCommands t)
  ∧ map Command.id (commands t)
    = firstSeen (declaredIds contributes) (map referenceId done)
  ∧ (∀ j id, declaredIds contributes !! j = Some id →
       ∃ c, commands t !! j = Some c ∧ Command.id c = id)
  ∧ ∀ key i c, holds (allCommands t) key i → commands t !! i = Some c →
      Command.menus c = menusOf key done
      ∧ Command.keybindings c = shortcutsOf key done.

(** ** The rest of the editor *)

(** [dispose()] of the editor, on the fields modelled: the transient
    disposables are disposed and dropped.  (The editor's own [disposables]
    hold the viewlet listener and the action bar of the header; the content
    disposables are not touched.) *)
Definition disposeEditor (s : Editor) : Editor :=
  setTransientDisposables [] (disposeAll (transientDisposables s) s).

(** The other panel. *)
Definition otherPanel (pn : Panel) : Panel :=
  match pn with
  | Readme => Contributions
  | Contributions => Readme
  end.

(** The content panel shows something of panel [pn]. *)
Definition shows (pn : Panel) (s : Editor) : bool :=
  match pn with
  | Readme => showsReadme s
  | Contributions => showsContributions s
  end.

(** The promise [p] of the fetch behind panel [pn] is pending. *)
Definition pendingAt (pn : Panel) (p : nat) (s : Editor) : Prop :=
  match pn with
  | Readme => readmes s !! p = Some None
  | Contributions => manifests s !! p = Some None
  end.

(** [declaredTwice] with a menu entry and a keybinding naming the id. *)
Definition declaredTwiceReferenced : Manifest.IExtensionContributions :=
  {| Manifest.commands := Manifest.commands declaredTwice;
     Manifest.configuration := None; Manifest.debuggers := None;
     Manifest.jsonValidation := None;
     Manifest.keybindings :=
       Some [ {| Manifest.keyCommand := "a"; Manifest.key := "ctrl+a" |} ];
     Manifest.menus := Some [("editor/title", [ {| Manifest.menuCommand := "a" |} ])];
     Manifest.themes := None |}.

(** A chain of the editor is waiting. *)
Definition busy (s : Editor) : bool :=
  existsb (λ ld, bool_decide (status ld = Running)) (loads s).

(** Both caches were made, which [setInput] does. *)
Definition hasCaches (s : Editor) : Prop :=
  is_Some (extensionReadme s) ∧ is_Some (extensionManifest s).

(** What the editor keeps true of the [loading] class once an input was set:
    the content element has it exactly while a chain is waiting. *)
Definition loadingInvariant (s : Editor) : Prop :=
  LoadsInv s ∧ hasCaches s ∧ loading s = busy s.

(** A chain of panel [pn] is waiting for the promise [p]. *)
Definition waiting (pn : Panel) (p : nat) (s : Editor) : Prop :=
  ∃ l, loads s !! l = Some {| panel := pn; source := p; status := Running |}.

(** What the editor keeps true of its promises: a cache that holds a promise
    holds one that was made, and a chain that is waiting waits for a promise
    that is still pending. *)
Record PromisesInv (s : Editor) : Prop := {
  promises_readme : ∀ c p, extensionReadme s = Some c → promise c = Some p →
                    (p < length (readmes s))%nat;
  promises_manifest : ∀ c p, extensionManifest s = Some c → promise c = Some p →
                      (p < length (manifests s))%nat;
  promises_pending : ∀ l ld, loads s !! l = Some ld → status ld = Running →
                     pendingAt (panel ld) (source ld) s
}.

(** What stays true once the tab of panel [pn] was opened, as long as only
    fetches settle. *)
Definition panelOpen (pn : Panel) (s : Editor) : Prop :=
  LoadsInv s
  ∧ (∀ l ld, loads s !! l = Some ld → status ld = Running → panel ld = pn)
  ∧ shows (otherPanel pn) s = false.

(** ** The header *)

Module Header.

(** The fields of the extension that the header shows. *)
Record Extension := {
  iconUrl : string;
  displayName : string;
  publisherDisplayName : string;
  description : string;
  publisher : string;
  name : string;
  licenseUrl : option string
}.

(** [product.extensionsGallery]. *)
Record Gallery := {
  itemUrl : string
}.

(** What a click handler installed by [setInput] does when it runs. *)
Inductive Handler :=
| OpenExternal (url : string)
| SearchPublisher (query : string).

(** The elements of the header that [createEditor] keeps in fields: what
    they show and the click handler of each link.  (The listener for the
    [error] event of the icon is one of the transient disposables of the
    editor.) *)
Record t := {
  iconSrc : option string;
  nameText : string;
  publisherText : string;
  descriptionText : string;
  licenseText : string;
  licenseDisplay : string;
  nameOnclick : option Handler;
  ratingOnclick : option Handler;
  publisherOnclick : option Handler;
  licenseOnclick : option Handler
}.

(** The header [createEditor] builds. *)
Definition create : t :=
  {| iconSrc := None; nameText := ""; publisherText := ""; descriptionText := "";
     licenseText := localize "license" "License" None; licenseDisplay := "none";
     nameOnclick := None; ratingOnclick := None; publisherOnclick := None;
     licenseOnclick := None |}.

Definition extensionUrl (gallery : Gallery) (extension : Extension) : string :=
  itemUrl gallery +:+ "?itemName=" +:+ publisher extension +:+ "." +:+ name extension.

(** [if (extension.licenseUrl)]. *)
Definition hasLicense (extension : Extension) : bool :=
  match licenseUrl extension with
  | Some url => truthy url
  | None => false
  end.

(** The statements of [setInput] on the header, [gallery] being
    [product.extensionsGallery]. *)
Definition setInput (gallery : option Gallery) (extension : Extension) (h : t) : t :=
  match gallery with
  | None =>
      {| iconSrc := Some (iconUrl extension);
         nameText := displayName extension;
         publisherText := publisherDisplayName extension;
         descriptionText := description extension;
         licenseText := licenseText h; licenseDisplay := licenseDisplay h;
         nameOnclick := nameOnclick h; ratingOnclick := ratingOnclick h;
         publisherOnclick := publisherOnclick h; licenseOnclick := licenseOnclick h |}
  | Some g =>
      let url := extensionUrl g extension in
      {| iconSrc := Some (iconUrl extension);
         nameText := displayName extension;
         publisherText := publisherDisplayName extension;
         descriptionText := description extension;
         licenseText := licenseText h;
         licenseDisplay := if hasLicense extension then "initial" else "none";
         nameOnclick := Some (OpenExternal url);
         ratingOnclick := Some (OpenExternal (url +:+ "#review-details"));
         publisherOnclick :=
           Some (SearchPublisher
                   ("publisher:" +:+ quote +:+ publisherDisplayName extension +:+ quote));
         licenseOnclick :=
           if hasLicense extension
           then OpenExternal <$> licenseUrl extension else None |}
  end.

(** The header after the editor was given the inputs [extensions] in turn. *)
Definition run (gallery : option Gallery) (extensions : list Extension) : t :=
  foldl (λ h extension, setInput gallery extension h) create extensions.

(** What no [setInput] changes when the product has no gallery. *)
Definition untouched (h : t) : Prop :=
  licenseText h = licenseText create
  ∧ licenseDisplay h = "none"
  ∧ nameOnclick h = None ∧ ratingOnclick h = None
  ∧ publisherOnclick h = None ∧ licenseOnclick h = None.

(** An extension with a license, and a gallery. *)
Definition sampleExtension : Extension :=
  {| iconUrl := "icon.png"; displayName := "Sample"; publisherDisplayName := "Ms";
     description := "A sample."; publisher := "ms"; name := "sample";
     licenseUrl := Some "https://example.org/license" |}.

Definition sampleGallery : Gallery := {| itemUrl := "https://example.org/items" |}.

End Header.

(** What the editor keeps true between a [setInput] and the first selection
    of the Contributions tab: the manifest was not asked for, and the
    navigation bar has its two tabs and the listener of the input. *)
Definition manifestUnfetched (k : nat) (s : Editor) : Prop :=
  input s = k
  ∧ (∃ c, extensionManifest s = Some c ∧ promise c = None)
  ∧ NavBar.listeners (navbar s) = [k]
  ∧ map NavBar.id (NavBar.actions (navbar s))
    = [NavbarSection.Readme; NavbarSection.Contributions].

Section EditorEvents.
Context `{KeybindingServices} `{ReadmeServices}.

(** The handler of [onNavbarChange] for the tab of panel [pn]. *)
Definition openPanel (pn : Panel) : Editor → Editor :=
  match pn with
  | Readme => openReadme
  | Contributions => openContributions
  end.

(** An event of the environment, a fetch that settles, as opposed to an
    action of the user. *)
Definition isSettle (e : Event) : bool :=
  match e with
  | SettleReadme _ _ | SettleManifest _ _ => true
  | SetInput _ | Select _ => false
  end.

(** An event that does not open the Contributions panel and does not change
    the input. *)
Definition keepsManifest (e : Event) : bool :=
  match e with
  | SetInput _ => false
  | Select id => negb (String.eqb id NavbarSection.Contributions)
  | SettleReadme _ _ | SettleManifest _ _ => true
  end.

End EditorEvents.

(** * Properties *)

(** ** The render monad *)

Lemma bind_ok {A B} (m : Render A) (f : A → Render B) container container' x :
  m container = (container', Ok x) →
  (m ≫= f) container = f x container'.
Proof. intros Hm. unfold mbind, render_bind. by rewrite Hm. Qed.

Lemma bind_throw {A B} (m : Render A) (f : A → Render B) container container' e :
  m container = (container', Throw e) →
  (m ≫= f) container = (container', Throw e).
Proof. intros Hm. unfold mbind, render_bind. by rewrite Hm. Qed.

Lemma guarded_append (n : nat) (sec : Node) container :
  (if bool_decide (n = 0) then mret () else append sec) container
  = ((container ++ appended n sec), Ok ()).
Proof.
  unfold appended. case_bool_decide; simpl.
  - by rewrite app_nil_r.
  - done.
Qed.

Section RenderersCorrect.
Context `{KeybindingServices}.
Variable manifest : Manifest.IExtensionManifest.
Variable contributes : Manifest.IExtensionContributions.
Hypothesis Hcontributes : Manifest.contributes manifest = Some contributes.

Lemma getContributes_defined container :
  getContributes manifest container = (container, Ok contributes).
Proof. unfold getContributes. by rewrite Hcontributes. Qed.

Lemma renderSettings_appends container :
  renderSettings manifest container
  = ((container ++ appended (contributionCount contributes [] Settings) (settingsSection contributes)),
     Ok ()).
Proof.
  unfold renderSettings.
  rewrite (bind_ok _ _ _ _ _ (getContributes_defined container)).
  apply guarded_append.
Qed.

Lemma renderThemes_appends container :
  renderThemes manifest container
  = ((container ++ appended (contributionCount contributes [] Themes) (themesSection contributes)),
     Ok ()).
Proof.
  unfold renderThemes.
  rewrite (bind_ok _ _ _ _ _ (getContributes_defined container)).
  apply guarded_append.
Qed.

Lemma renderJSONValidation_appends container :
  renderJSONValidation manifest container
  = ((container
      ++ appended (contributionCount contributes [] JSONValidation) (jsonValidationSection contributes)),
     Ok ()).
Proof.
  unfold renderJSONValidation.
  rewrite (bind_ok _ _ _ _ _ (getContributes_defined container)).
  apply guarded_append.
Qed.

Lemma renderDebuggers_appends container :
  renderDebuggers manifest container
  = ((container ++ appended (contributionCount contributes [] Debuggers) (debuggersSection contributes)),
     Ok ()).
Proof.
  unfold renderDebuggers.
  rewrite (bind_ok _ _ _ _ _ (getContributes_defined container)).
  apply guarded_append.
Qed.

Lemma renderCommands_appends container commands :
  collectCommands contributes = Ok commands →
  renderCommands manifest container
  = ((container ++ appended (length commands) (commandsSection commands)), Ok ()).
Proof.
  intros Hc. unfold renderCommands.
  rewrite (bind_ok _ _ _ _ _ (getContributes_defined container)).
  rewrite Hc. simpl liftResult.
  erewrite bind_ok by reflexivity.
  apply guarded_append.
Qed.

Lemma renderCommands_throws container e :
  collectCommands contributes = Throw e →
  renderCommands manifest container = (container, Throw e).
Proof.
  intros Hc. unfold renderCommands.
  rewrite (bind_ok _ _ _ _ _ (getContributes_defined container)).
  rewrite Hc. reflexivity.
Qed.

End RenderersCorrect.

(** ** Sections and their counts *)

Lemma filter_data_rows {A} (f : A → Node) (l : list A) :
  (∀ x, existsb (hasTag "td") (childrenOf (f x)) = true) →
  filter (λ row, existsb (hasTag "td") (childrenOf row)) (map f l) = map f l.
Proof.
  intros Hf. induction l as [|x l IH]; [done|].
  simpl. rewrite filter_cons_True by (rewrite Hf; done).
  by rewrite IH.
Qed.

Lemma entries_table summary header {A} (f : A → Node) (l : list A) :
  existsb (hasTag "td") (childrenOf header) = false →
  (∀ x, existsb (hasTag "td") (childrenOf (f x)) = true) →
  entries (section summary (el "table" [] (header :: map f l))) = map f l.
Proof.
  intros Hh Hf. unfold section, el, entries. simpl.
  rewrite filter_cons_False by (rewrite Hh; simpl; tauto).
  by apply filter_data_rows.
Qed.

Lemma entries_list summary (items : list Node) :
  entries (section summary (el "ul" [] items)) = items.
Proof. reflexivity. Qed.

Section SectionsCorrect.
Context `{KeybindingServices}.
Variable contributes : Manifest.IExtensionContributions.

Lemma settingsSection_counted :
  summaryText (settingsSection contributes)
    = Some (summaryFor Settings (contributionCount contributes [] Settings))
  ∧ length (entries (settingsSection contributes))
    = contributionCount contributes [] Settings.
Proof.
  split; [reflexivity|].
  unfold settingsSection. rewrite entries_table by (intros; reflexivity).
  rewrite length_map. unfold contributionCount.
  destruct (Manifest.configuration contributes) as [cfg|]; simpl; [|done].
  destruct (Manifest.properties cfg) as [props|]; simpl; [|done].
  unfold objectKeys. by rewrite length_fmap.
Qed.

Lemma themesSection_counted :
  summaryText (themesSection contributes)
    = Some (summaryFor Themes (contributionCount contributes [] Themes))
  ∧ length (entries (themesSection contributes))
    = contributionCount contributes [] Themes.
Proof.
  split; [reflexivity|].
  unfold themesSection. rewrite entries_list. by rewrite length_map.
Qed.

Lemma jsonValidationSection_counted :
  summaryText (jsonValidationSection contributes)
    = Some (summaryFor JSONValidation (contributionCount contributes [] JSONValidation))
  ∧ length (entries (jsonValidationSection contributes))
    = contributionCount contributes [] JSONValidation.
Proof.
  split; [reflexivity|].
  unfold jsonValidationSection. rewrite entries_list. by rewrite length_map.
Qed.

Lemma debuggersSection_counted :
  summaryText (debuggersSection contributes)
    = Some (summaryFor Debuggers (contributionCount contributes [] Debuggers))
  ∧ length (entries (debuggersSection contributes))
    = contributionCount contributes [] Debuggers.
Proof.
  split; [reflexivity|].
  unfold debuggersSection. rewrite entries_table by (intros; reflexivity).
  by rewrite length_map.
Qed.

Lemma commandsSection_counted commands :
  summaryText (commandsSection commands) = Some (summaryFor Commands (length commands))
  ∧ entries (commandsSection commands) = map commandRow commands.
Proof.
  split; [reflexivity|].
  unfold commandsSection. by rewrite entries_table by (intros; reflexivity).
Qed.

End SectionsCorrect.

Section PanelCorrect.
Context `{KeybindingServices}.

(** The panel as a whole, for a manifest with a [contributes] object. *)
Lemma renderContributions_ok manifest contributes commands :
  Manifest.contributes manifest = Some contributes →
  collectCommands contributes = Ok commands →
  renderContributions manifest []
  = ((appended (contributionCount contributes commands Settings) (settingsSection contributes)
      ++ appended (contributionCount contributes commands Commands) (commandsSection commands)
      ++ appended (contributionCount contributes commands Themes) (themesSection contributes)
      ++ appended (contributionCount contributes commands JSONValidation)
           (jsonValidationSection contributes)
      ++ appended (contributionCount contributes commands Debuggers)
           (debuggersSection contributes)), Ok ()).
Proof.
  intros Hc Hcmds. unfold renderContributions.
  erewrite bind_ok by (apply (renderSettings_appends _ _ Hc)).
  erewrite bind_ok by (apply (renderCommands_appends _ _ Hc _ _ Hcmds)).
  erewrite bind_ok by (apply (renderThemes_appends _ _ Hc)).
  erewrite bind_ok by (apply (renderJSONValidation_appends _ _ Hc)).
  rewrite (renderDebuggers_appends _ _ Hc).
  simpl. by rewrite <- !app_assoc.
Qed.

Lemma renderContributions_undefined manifest :
  Manifest.contributes manifest = None →
  renderContributions manifest [] = ([], Throw TypeError).
Proof.
  intros Hc. unfold renderContributions, renderSettings, getContributes.
  rewrite Hc. reflexivity.
Qed.

Lemma renderContributions_throws manifest contributes e :
  Manifest.contributes manifest = Some contributes →
  collectCommands contributes = Throw e →
  renderContributions manifest []
  = (appended (contributionCount contributes [] Settings) (settingsSection contributes),
     Throw e).
Proof.
  intros Hc Hcmds. unfold renderContributions.
  erewrite bind_ok by (apply (renderSettings_appends _ _ Hc)).
  erewrite bind_throw by (apply (renderCommands_throws _ _ Hc _ _ Hcmds)).
  reflexivity.
Qed.

(** X1.  Whenever the Contributions panel is rendered to the end, its
    sections are, in order, those of the categories (settings, commands,
    themes, JSON validators, debuggers) whose derived contribution list is
    not empty: one section for each such category and none for the others.
    The summary of each section shows the length of the list, and that
    length is the number of data rows of the section's table, or of the
    items of its list. *)
Theorem contributions_sections_counted manifest children :
  renderContributions manifest [] = (children, Ok ()) →
  ∃ contributes commands,
    Manifest.contributes manifest = Some contributes ∧
    collectCommands contributes = Ok commands ∧
    Forall2
      (λ cat sec,
         summaryText sec = Some (summaryFor cat (contributionCount contributes commands cat))
         ∧ length (entries sec) = contributionCount contributes commands cat)
      (filter (λ cat, contributionCount contributes commands cat ≠ 0) categories)
      children.
Proof.
  intros Hr.
  destruct (Manifest.contributes manifest) as [contributes|] eqn:Hc;
    [|by rewrite (renderContributions_undefined _ Hc) in Hr].
  destruct (collectCommands contributes) as [commands|e] eqn:Hcmds;
    [|by rewrite (renderContributions_throws _ _ _ Hc Hcmds) in Hr].
  exists contributes, commands. split; [done|]. split; [done|].
  rewrite (renderContributions_ok _ _ _ Hc Hcmds) in Hr.
  injection Hr as <-.
  pose proof (settingsSection_counted contributes) as HS.
  pose proof (themesSection_counted contributes) as HT.
  pose proof (jsonValidationSection_counted contributes) as HJ.
  pose proof (debuggersSection_counted contributes) as HD.
  destruct (commandsSection_counted commands) as [HC1 HC2].
  assert (HC : summaryText (commandsSection commands)
               = Some (summaryFor Commands (contributionCount contributes commands Commands))
             ∧ length (entries (commandsSection commands))
               = contributionCount contributes commands Commands).
  { split; [done|]. rewrite HC2. by rewrite length_map. }
  clear HC1 HC2.
  change (contributionCount contributes [] Settings)
    with (contributionCount contributes commands Settings) in HS.
  change (contributionCount contributes [] Themes)
    with (contributionCount contributes commands Themes) in HT.
  change (contributionCount contributes [] JSONValidation)
    with (contributionCount contributes commands JSONValidation) in HJ.
  change (contributionCount contributes [] Debuggers)
    with (contributionCount contributes commands Debuggers) in HD.
  unfold categories, appended.
  repeat (rewrite filter_cons; case_decide; case_bool_decide; try done; simpl).
  all: rewrite ?filter_nil; repeat constructor; tauto.
Qed.

End PanelCorrect.

(** ** The dictionary of commands *)

Lemma dictionaryGet_found commands d key i :
  dictionaryGet commands d key = Found i ↔ holds d key i.
Proof.
  unfold dictionaryGet, holds, ofString, viaObjectPrototype.
  destruct (String.eqb key "__proto__").
  - destruct (proto d); split; intros Heq; by simplify_eq.
  - destruct (own d !! key); [split; intros Heq; by simplify_eq|].
    split; [|done].
    repeat (case_match; try done).
Qed.

Lemma dictionaryGet_missing commands d key i :
  dictionaryGet commands d key = Missing → ¬ holds d key i.
Proof.
  intros Hm Hh. apply (dictionaryGet_found commands) in Hh. congruence.
Qed.

Lemma holds_set d key i key' j :
  holds (dictionarySet d key i) key' j
  ↔ (key' = key ∧ j = i) ∨ (key' ≠ key ∧ holds d key' j).
Proof.
  unfold holds, dictionarySet.
  destruct (String.eqb_spec key "__proto__") as [->|Hk];
    destruct (String.eqb_spec key' "__proto__") as [->|Hk']; simpl.
  - split; [intros [= ->]; by left|intros [[_ ->]|[? _]]; done].
  - split; [intros Hh; right; split; [done|done]|intros [[? _]|[_ ?]]; done].
  - split; [intros Hh; right; split; [done|done]|intros [[? _]|[_ ?]]; [by subst|done]].
  - destruct (decide (key' = key)) as [->|Hne].
    + rewrite lookup_insert_eq.
      split; [intros [= ->]; by left|intros [[_ ->]|[? _]]; done].
    + rewrite lookup_insert_ne by done.
      split; [intros Hh; by right|intros [[? _]|[_ ?]]; done].
Qed.

Lemma holds_empty key i : ¬ holds emptyDictionary key i.
Proof. unfold holds, emptyDictionary. simpl. by destruct (String.eqb key "__proto__"). Qed.

Lemma dictOk_set commands d key i c :
  dictOk commands d → commands !! i = Some c → Command.id c = key →
  dictOk commands (dictionarySet d key i).
Proof.
  intros Hok Hi Hid key' j [[-> ->]|[_ Hh]]%holds_set; [eauto|by apply Hok].
Qed.

Lemma dictOk_app commands extra d :
  dictOk commands d → dictOk (commands ++ extra) d.
Proof.
  intros Hok key i Hh. destruct (Hok key i Hh) as (c & Hc & Hid).
  exists c. split; [|done]. by apply lookup_app_l_Some.
Qed.

Lemma dictOk_alter commands d f i :
  (∀ c, Command.id (f c) = Command.id c) →
  dictOk commands d → dictOk (alter f i commands) d.
Proof.
  intros Hf Hok key j Hh. destruct (Hok key j Hh) as (c & Hc & Hid).
  destruct (decide (i = j)) as [->|Hne].
  - exists (f c). rewrite list_lookup_alter_eq, Hc. split; [done|]. by rewrite Hf.
  - exists c. by rewrite list_lookup_alter_ne.
Qed.

Lemma reduceFrom_dictOk pre cs r :
  dictOk (pre ++ cs) r → dictOk (pre ++ cs) (reduceFrom (length pre) cs r).
Proof.
  revert pre r. induction cs as [|c cs IH]; intros pre r Hok; [done|].
  simpl. replace (pre ++ c :: cs) with ((pre ++ [c]) ++ cs) in *
    by (by rewrite <- app_assoc).
  replace (S (length pre)) with (length (pre ++ [c]))
    by (rewrite length_app; simpl; lia).
  apply IH. eapply dictOk_set; [done| |done].
  rewrite <- app_assoc. simpl. by rewrite list_lookup_middle.
Qed.

Lemma holds_set_same d key i : holds (dictionarySet d key i) key i.
Proof. apply holds_set. by left. Qed.

Lemma holds_set_kept d key i key' :
  (∃ j, holds d key' j) → ∃ j, holds (dictionarySet d key i) key' j.
Proof.
  intros [j Hj]. destruct (decide (key' = key)) as [->|Hne].
  - exists i. apply holds_set_same.
  - exists j. apply holds_set. by right.
Qed.

Lemma reduceFrom_covered pre cs r :
  covered pre r → covered (pre ++ cs) (reduceFrom (length pre) cs r).
Proof.
  revert pre r. induction cs as [|c cs IH]; intros pre r Hcov.
  - simpl. by rewrite app_nil_r.
  - simpl. replace (pre ++ c :: cs) with ((pre ++ [c]) ++ cs)
      by (by rewrite <- app_assoc).
    replace (S (length pre)) with (length (pre ++ [c]))
      by (rewrite length_app; simpl; lia).
    apply IH. intros c' [Hin|Hin]%elem_of_app.
    + apply holds_set_kept. by apply Hcov.
    + apply list_elem_of_singleton in Hin as ->. eexists. apply holds_set_same.
Qed.

(** ** The two loops of [renderCommands] *)

Lemma forEach_app {A S} (f : A → S → Result S) (l1 l2 : list A) (s : S) :
  forEach f (l1 ++ l2) s
  = match forEach f l1 s with
    | Ok s' => forEach f l2 s'
    | Throw e => Throw e
    end.
Proof.
  revert s. induction l1 as [|x l1 IH]; intros s; simpl; [done|].
  destruct (f x s); [apply IH|done].
Qed.

Lemma forEach_map {A B S} (f : B → S → Result S) (g : A → B) (l : list A) (s : S) :
  forEach f (map g l) s = forEach (λ x, f (g x)) l s.
Proof.
  revert s. induction l as [|x l IH]; intros s; simpl; [done|].
  destruct (f (g x) s); [apply IH|done].
Qed.

(** An invariant of a loop over a list that did not throw. *)
Lemma forEach_invariant {A S} (f : A → S → Result S) (P : list A → S → Prop)
    (l : list A) (s s' : S) :
  (∀ done x s1 s2, P done s1 → f x s1 = Ok s2 → P (done ++ [x]) s2) →
  P [] s → forEach f l s = Ok s' → P l s'.
Proof.
  intros Hstep HP Hrun.
  assert (Hgen : ∀ done s, P done s → forEach f l s = Ok s' → P (done ++ l) s').
  { clear HP Hrun s. induction l as [|x l IH]; intros done s HP Hrun; simpl in *.
    - rewrite app_nil_r. by simplify_eq.
    - destruct (f x s) as [s1|] eqn:Hf; [|done].
      replace (done ++ x :: l) with ((done ++ [x]) ++ l)
        by (by rewrite <- app_assoc).
      eapply IH; [|done]. by eapply Hstep. }
  by apply (Hgen [] s).
Qed.

Lemma alter_middle {A} (f : A → A) (l : list A) i x :
  l !! i = Some x → alter f i l = (take i l ++ f x :: drop (S i) l).
Proof.
  revert i. induction l as [|y l IH]; intros [|i] Hi; simplify_eq/=; [done|].
  f_equal. by apply IH.
Qed.

Lemma map_alter_same {A B} (g : A → B) (f : A → A) (l : list A) i :
  (∀ x, g (f x) = g x) → map g (alter f i l) = map g l.
Proof.
  intros Hg. revert i.
  induction l as [|y l IH]; intros [|i]; simpl; try done; f_equal; auto.
  apply IH.
Qed.

Lemma elem_of_concat {A} (x : A) (ls : list (list A)) :
  x ∈ concat ls ↔ ∃ l, x ∈ l ∧ l ∈ ls.
Proof.
  rewrite list_elem_of_In, in_concat. split.
  - intros (l & Hl & Hx). exists l. by rewrite !list_elem_of_In.
  - intros (l & Hx & Hl). exists l. by rewrite <- !list_elem_of_In.
Qed.

Lemma elem_of_alter {A} (f : A → A) (l : list A) i y :
  y ∈ alter f i l → y ∈ l ∨ ∃ x, l !! i = Some x ∧ y = f x.
Proof.
  intros [j Hj]%list_elem_of_lookup.
  destruct (decide (i = j)) as [->|Hne].
  - rewrite list_lookup_alter_eq in Hj.
    destruct (l !! j) as [x|] eqn:Hx; simplify_eq/=. right. eauto.
  - rewrite list_lookup_alter_ne in Hj by done. left.
    apply list_elem_of_lookup. eauto.
Qed.

Section Loops.
Context `{KeybindingServices}.

Lemma collectCommands_references contributes :
  collectCommands contributes
  = match forEach addReference (references contributes) (initialTable contributes) with
    | Ok t => Ok (commands t)
    | Throw e => Throw e
    end.
Proof.
  unfold collectCommands, references, initialTable.
  rewrite forEach_app.
  set (t0 := {| commands := declaredCommands contributes; allCommands := _ |}).
  assert (Hmenus : ∀ menus t,
    forEach (λ entry : string * list Manifest.IMenu, forEach (addMenu entry.1) entry.2)
      menus t = forEach addReference (menuReferences menus) t).
  { induction menus as [|[context ms] menus IH]; intros t; [done|].
    unfold menuReferences in *. simpl. rewrite forEach_app, forEach_map. simpl.
    destruct (forEach (addMenu context) ms t); [apply IH|done]. }
  rewrite Hmenus.
  destruct (forEach addReference _ t0); [|done].
  by rewrite forEach_map.
Qed.

(** The shape of one step of either loop. *)
Lemma addReference_cases r t t' :
  addReference r t = Ok t' →
  (dictionaryGet (commands t) (allCommands t) (referenceId r) = Missing
   ∧ ∃ fresh, Command.id fresh = referenceId r
      ∧ Command.title fresh = ""
      ∧ Command.menus fresh = menusOf (referenceId r) [r]
      ∧ Command.keybindings fresh = shortcutsOf (referenceId r) [r]
      ∧ t' = {| commands := (commands t ++ [fresh]);
                allCommands := dictionarySet (allCommands t) (referenceId r)
                                 (length (commands t)) |})
  ∨ (∃ i, holds (allCommands t) (referenceId r) i
      ∧ t' = {| commands :=
                  alter (λ c, Command.mk (Command.id c) (Command.title c)
                                (Command.keybindings c ++ shortcutsOf (referenceId r) [r])
                                (Command.menus c ++ menusOf (referenceId r) [r]))
                        i (commands t);
                allCommands := allCommands t |}).
Proof.
  destruct r as [context menu|userString]; simpl;
    unfold addMenu, addKeybinding, refer; simpl; intros Hr.
  - destruct (dictionaryGet _ _ _) as [i| |] eqn:Hget; simplify_eq.
    + right. exists i. split; [by eapply dictionaryGet_found|].
      f_equal. apply list_alter_ext; [|done..].
      intros c _. unfold Command.pushMenu.
      rewrite bool_decide_true by done. by rewrite app_nil_r.
    + left. split; [done|].
      eexists; repeat split; simpl; by rewrite ?bool_decide_true.
  - destruct (dictionaryGet _ _ _) as [i| |] eqn:Hget; simplify_eq.
    + right. exists i. split; [by eapply dictionaryGet_found|].
      f_equal. apply list_alter_ext; [|done..].
      intros c _. unfold Command.pushKeybinding, keyLabel.
      rewrite bool_decide_true by done. by rewrite app_nil_r.
    + left. split; [done|].
      eexists; repeat split; simpl; unfold keyLabel; by rewrite ?bool_decide_true.
Qed.

End Loops.

(** ** What the loops keep true *)

Lemma menusOf_app id refs1 refs2 :
  menusOf id (refs1 ++ refs2) = menusOf id refs1 ++ menusOf id refs2.
Proof. apply omap_app. Qed.

Lemma menusOf_other id r : referenceId r ≠ id → menusOf id [r] = [].
Proof.
  intros Hne. destruct r as [context menu|userString]; simpl in *; [|done].
  by rewrite bool_decide_false.
Qed.

Lemma menusOf_unreferenced id refs :
  id ∉ map referenceId refs → menusOf id refs = [].
Proof.
  induction refs as [|r refs IH]; [done|].
  intros Hnot. simpl in Hnot. apply not_elem_of_cons in Hnot as [Hne Hnot].
  change (r :: refs) with ([r] ++ refs). rewrite menusOf_app, IH by done.
  by rewrite menusOf_other.
Qed.

Section Invariants.
Context `{KeybindingServices}.

Lemma shortcutsOf_app id refs1 refs2 :
  shortcutsOf id (refs1 ++ refs2) = shortcutsOf id refs1 ++ shortcutsOf id refs2.
Proof. apply omap_app. Qed.

Lemma shortcutsOf_other id r : referenceId r ≠ id → shortcutsOf id [r] = [].
Proof.
  intros Hne. destruct r as [context menu|userString]; simpl in *; [done|].
  by rewrite bool_decide_false.
Qed.

Lemma shortcutsOf_unreferenced id refs :
  id ∉ map referenceId refs → shortcutsOf id refs = [].
Proof.
  induction refs as [|r refs IH]; [done|].
  intros Hnot. simpl in Hnot. apply not_elem_of_cons in Hnot as [Hne Hnot].
  change (r :: refs) with ([r] ++ refs). rewrite shortcutsOf_app, IH by done.
  by rewrite shortcutsOf_other.
Qed.

Lemma shortcuts_app refs1 refs2 :
  shortcuts (refs1 ++ refs2) = shortcuts refs1 ++ shortcuts refs2.
Proof. apply omap_app. Qed.

Lemma shortcuts_same r : shortcutsOf (referenceId r) [r] = shortcuts [r].
Proof.
  destruct r as [context menu|userString]; simpl; [done|].
  by rewrite bool_decide_true.
Qed.

Lemma shortcuts_menus menus : shortcuts (menuReferences menus) = [].
Proof.
  unfold menuReferences. induction menus as [|[context ms] menus IH]; [done|].
  simpl. rewrite shortcuts_app, IH, app_nil_r.
  by induction ms.
Qed.

Lemma shortcuts_keys kbs :
  shortcuts (map KeyReference kbs)
  = map (λ u, getLabelFor (newKeybinding (fromUserSettingsLabel (Manifest.key u)))) kbs.
Proof. induction kbs as [|u kbs IH]; [done|]. simpl. by rewrite <- IH. Qed.

Lemma initialTable_dictOk contributes :
  dictOk (commands (initialTable contributes)) (allCommands (initialTable contributes)).
Proof.
  unfold initialTable. simpl.
  apply (reduceFrom_dictOk [] (declaredCommands contributes)).
  intros key i Hh. by apply holds_empty in Hh.
Qed.

Lemma declared_no_keybindings contributes c :
  c ∈ declaredCommands contributes →
  Command.keybindings c = [] ∧ Command.menus c = [].
Proof.
  unfold declaredCommands. intros Hin.
  apply list_elem_of_fmap in Hin as (d & -> & _). done.
Qed.

Lemma Sound_initial contributes : Sound [] (initialTable contributes).
Proof.
  split.
  - apply initialTable_dictOk.
  - simpl. unfold declaredCommands.
    induction (default [] (Manifest.commands contributes)); simpl; done.
  - intros c k Hc Hk. simpl in Hc.
    apply declared_no_keybindings in Hc as [Hkb _]. rewrite Hkb in Hk.
    by apply elem_of_nil in Hk.
Qed.

Lemma Sound_step done r t t' :
  Sound done t → addReference r t = Ok t' → Sound (done ++ [r]) t'.
Proof.
  intros [Hdict Hall Hrow] Hstep.
  apply addReference_cases in Hstep
    as [(Hmiss & fresh & Hid & Htitle & Hmenus & Hkeys & ->)|(i & Hh & ->)].
  - split; cbn [commands allCommands].
    + eapply dictOk_set; [by apply dictOk_app| |done].
      by rewrite list_lookup_middle.
    + rewrite map_app, concat_app, shortcuts_app. cbn [map concat].
      rewrite app_nil_r, Hkeys, shortcuts_same. by rewrite Hall.
    + intros c k [Hc|Hc]%elem_of_app Hk; rewrite shortcutsOf_app.
      * apply elem_of_app. left. by apply Hrow.
      * apply list_elem_of_singleton in Hc as ->.
        apply elem_of_app. right. by rewrite Hid, <- Hkeys.
  - destruct (Hdict _ _ Hh) as (c0 & Hc0 & Hid0).
    pose proof (shortcuts_same r) as Hsame.
    remember (shortcutsOf (referenceId r) [r]) as ks eqn:Hks.
    remember (menusOf (referenceId r) [r]) as ms eqn:Hms.
    split; cbn [commands allCommands].
    + by apply dictOk_alter.
    + rewrite (alter_middle _ _ _ _ Hc0), shortcuts_app, <- Hsame.
      rewrite <- (take_drop_middle _ _ _ Hc0) in Hall.
      rewrite map_app, concat_app in Hall |- *.
      cbn [map concat Command.keybindings] in *.
      rewrite <- Hall, <- !app_assoc.
      apply Permutation_app_head. apply Permutation_app_head.
      apply Permutation_app_comm.
    + intros c k Hc Hk. rewrite shortcutsOf_app. apply elem_of_app.
      apply elem_of_alter in Hc as [Hc|(c1 & Hc1 & ->)].
      * left. by apply Hrow.
      * cbn [Command.keybindings Command.id] in *. simplify_eq.
        apply elem_of_app in Hk as [Hk|Hk].
        -- left. apply Hrow; [|done]. by eapply list_elem_of_lookup_2.
        -- right. by rewrite Hid0.
Qed.

Lemma Sound_final contributes commands' :
  collectCommands contributes = Ok commands' →
  ∃ t, commands t = commands' ∧ Sound (references contributes) t.
Proof.
  rewrite collectCommands_references.
  destruct (forEach addReference _ _) as [t|] eqn:Hrun; [|done].
  intros [= <-]. exists t. split; [done|].
  eapply (forEach_invariant addReference Sound); [|apply Sound_initial|done].
  intros done r s1 s2. apply Sound_step.
Qed.

End Invariants.

(** ** Keyboard shortcuts *)

Lemma codeTexts_code (texts : list string) :
  codeTexts (el "td" [] (map code texts)) = texts.
Proof.
  unfold codeTexts. cbn [el childrenOf].
  induction texts as [|t texts IH]; [done|].
  simpl in *. by f_equal.
Qed.

Section Shortcuts.
Context `{KeybindingServices}.

Lemma rowShortcuts_commandRow c : rowShortcuts (commandRow c) = Command.keybindings c.
Proof. unfold rowShortcuts, commandRow. simpl. apply codeTexts_code. Qed.

Lemma rowMenus_commandRow c : rowMenus (commandRow c) = Command.menus c.
Proof. unfold rowMenus, commandRow. simpl. apply codeTexts_code. Qed.

Lemma rowId_commandRow c : rowId (commandRow c) = Command.id c.
Proof. reflexivity. Qed.

Lemma rowTitle_commandRow c : rowTitle (commandRow c) = Command.title c.
Proof. reflexivity. Qed.

Lemma shortcuts_references contributes :
  shortcuts (references contributes)
  = map (λ u, getLabelFor (newKeybinding (fromUserSettingsLabel (Manifest.key u))))
        (default [] (Manifest.keybindings contributes)).
Proof.
  unfold references. by rewrite shortcuts_app, shortcuts_menus, shortcuts_keys.
Qed.

Lemma elem_of_shortcutsOf k id contributes :
  k ∈ shortcutsOf id (references contributes) →
  ∃ u, u ∈ default [] (Manifest.keybindings contributes)
       ∧ Manifest.keyCommand u = id
       ∧ k = getLabelFor (newKeybinding (fromUserSettingsLabel (Manifest.key u))).
Proof.
  unfold shortcutsOf. intros (r & Hr & Hk)%list_elem_of_omap.
  destruct r as [context menu|u]; [done|].
  case_bool_decide; simplify_eq.
  exists u. split; [|done].
  unfold references in Hr. apply elem_of_app in Hr as [Hr|Hr].
  - unfold menuReferences in Hr.
    apply elem_of_concat in Hr as (l & Hl & Hin).
    apply list_elem_of_fmap in Hin as (entry & -> & _).
    by apply list_elem_of_fmap in Hl as (m & ? & _).
  - by apply list_elem_of_fmap in Hr as (u' & [= <-] & ?).
Qed.

(** C6.  In a Commands table that is rendered, the labels shown in the
    keyboard-shortcut cells are, all rows together, exactly the labels the
    keybinding service returns for the keybinding entries of the manifest:
    one label for each entry, each of them [getLabelFor] applied to the
    [Keybinding] made from [fromUserSettingsLabel] of the entry's key
    string, and each shown in a row of the command the entry names.  The
    component computes no label of its own. *)
Theorem shortcuts_delegated contributes commands :
  collectCommands contributes = Ok commands →
  let labelOf := λ u : Manifest.IKeyBinding,
    getLabelFor (newKeybinding (fromUserSettingsLabel (Manifest.key u))) in
  let rows := map commandRow commands in
  concat (map rowShortcuts rows)
    ≡ₚ map labelOf (default [] (Manifest.keybindings contributes))
  ∧ ∀ row k, row ∈ rows → k ∈ rowShortcuts row →
      ∃ u, u ∈ default [] (Manifest.keybindings contributes)
           ∧ Manifest.keyCommand u = rowId row
           ∧ k = labelOf u.
Proof.
  intros Hc labelOf rows.
  apply Sound_final in Hc as (t & <- & [_ Hall Hrow]).
  split.
  - subst rows labelOf. rewrite <- shortcuts_references, <- Hall.
    rewrite map_map.
    erewrite map_ext; [done|]. intros c. apply rowShortcuts_commandRow.
  - intros row k Hrow' Hk. subst rows.
    apply list_elem_of_fmap in Hrow' as (c & -> & Hc).
    rewrite rowShortcuts_commandRow in Hk. rewrite rowId_commandRow.
    apply elem_of_shortcutsOf. by apply Hrow.
Qed.

End Shortcuts.

(** ** One row for each command id *)

Lemma declaredTitle_absent declared id :
  id ∉ map Manifest.command declared → declaredTitle declared id = "".
Proof.
  unfold declaredTitle. induction declared as [|d declared IH]; [done|].
  intros Hnot. simpl in Hnot. apply not_elem_of_cons in Hnot as [Hne Hnot].
  simpl. destruct (String.eqb_spec (Manifest.command d) id) as [Heq|_]; [done|].
  by apply IH.
Qed.

Lemma declaredTitle_found declared d :
  NoDup (map Manifest.command declared) → d ∈ declared →
  declaredTitle declared (Manifest.command d) = Manifest.title d.
Proof.
  unfold declaredTitle. induction declared as [|d' declared IH]; intros Hnd Hin.
  - by apply elem_of_nil in Hin.
  - simpl in Hnd. apply NoDup_cons in Hnd as [Hnot Hnd]. simpl.
    apply elem_of_cons in Hin as [->|Hin].
    + by rewrite String.eqb_refl.
    + destruct (String.eqb_spec (Manifest.command d') (Manifest.command d)) as [Heq|_].
      * exfalso. apply Hnot. rewrite Heq.
        apply list_elem_of_fmap. by exists d.
      * by apply IH.
Qed.

Section OneRow.
Context `{KeybindingServices}.
Variable contributes : Manifest.IExtensionContributions.
Hypothesis Hdistinct : NoDup (declaredIds contributes).

Lemma declaredCommands_ids :
  map Command.id (declaredCommands contributes) = declaredIds contributes.
Proof. unfold declaredCommands, declaredIds. by rewrite map_map. Qed.

Lemma Exact_initial : Exact contributes [] (initialTable contributes).
Proof.
  split.
  - apply initialTable_dictOk.
  - unfold initialTable. simpl.
    apply (reduceFrom_covered [] (declaredCommands contributes)).
    intros c Hc. by apply elem_of_nil in Hc.
  - simpl. by rewrite declaredCommands_ids.
  - intros x. simpl. rewrite declaredCommands_ids. split; [by left|].
    intros [?|Hx]; [done|]. by apply elem_of_nil in Hx.
  - intros c Hc. simpl in Hc. unfold declaredCommands in Hc.
    apply list_elem_of_fmap in Hc as (d & -> & Hd). simpl.
    split; [|done]. symmetry. by apply declaredTitle_found.
Qed.

Lemma Exact_step done r t t' :
  Exact contributes done t → addReference r t = Ok t' → Exact contributes (done ++ [r]) t'.
Proof.
  intros [Hdict Hcov Hnd Hids Hrows] Hstep.
  apply addReference_cases in Hstep
    as [(Hmiss & fresh & Hid & Htitle & Hmenus & Hkeys & ->)|(i & Hh & ->)].
  - assert (Hfresh : referenceId r ∉ map Command.id (commands t)).
    { intros (c & Hc & Hin)%list_elem_of_fmap.
      destruct (Hcov c Hin) as [i Hi]. rewrite <- Hc in Hi.
      by eapply dictionaryGet_missing. }
    assert (Hother : ∀ c, c ∈ commands t → referenceId r ≠ Command.id c).
    { intros c Hc Heq. apply Hfresh. rewrite Heq.
      apply list_elem_of_fmap. by exists c. }
    split; cbn [commands allCommands].
    + eapply dictOk_set; [by apply dictOk_app| |done].
      by rewrite list_lookup_middle.
    + intros c [Hc|Hc]%elem_of_app.
      * apply holds_set_kept. by apply Hcov.
      * apply list_elem_of_singleton in Hc as ->. rewrite Hid.
        eexists. apply holds_set_same.
    + rewrite map_app. apply NoDup_app. split; [done|]. split.
      * intros x Hx Hx'. simpl in Hx'.
        apply list_elem_of_singleton in Hx' as ->. by rewrite Hid in Hx.
      * simpl. apply NoDup_singleton.
    + intros x. rewrite !map_app, !elem_of_app, Hids. simpl.
      rewrite !list_elem_of_singleton, Hid. tauto.
    + intros c [Hc|Hc]%elem_of_app.
      * destruct (Hrows c Hc) as (Ht & Hm & Hk).
        rewrite menusOf_app, shortcutsOf_app.
        rewrite menusOf_other, shortcutsOf_other by by apply Hother.
        by rewrite !app_nil_r.
      * apply list_elem_of_singleton in Hc as ->.
        assert (Hundeclared : referenceId r ∉ declaredIds contributes).
        { intros Hx. apply Hfresh, Hids. by left. }
        assert (Hunreferenced : referenceId r ∉ map referenceId done).
        { intros Hx. apply Hfresh, Hids. by right. }
        rewrite Hid, menusOf_app, shortcutsOf_app.
        rewrite menusOf_unreferenced, shortcutsOf_unreferenced by done.
        rewrite Htitle, declaredTitle_absent by done. done.
  - destruct (Hdict _ _ Hh) as (c0 & Hc0 & Hid0).
    remember (shortcutsOf (referenceId r) [r]) as ks eqn:Hks.
    remember (menusOf (referenceId r) [r]) as ms eqn:Hms.
    assert (Hin0 : c0 ∈ commands t) by by eapply list_elem_of_lookup_2.
    split; cbn [commands allCommands].
    + by apply dictOk_alter.
    + intros c Hc. apply elem_of_alter in Hc as [Hc|(c1 & Hc1 & ->)].
      * by apply Hcov.
      * cbn [Command.id]. apply Hcov. by eapply list_elem_of_lookup_2.
    + by rewrite map_alter_same.
    + intros x. rewrite map_alter_same by done.
      rewrite map_app, elem_of_app, Hids. simpl.
      rewrite list_elem_of_singleton. split; [tauto|].
      intros [?|[?| ->]]; [tauto..|].
      apply Hids. rewrite <- Hid0. apply list_elem_of_fmap. by exists c0.
    + intros c [j Hj]%list_elem_of_lookup.
      rewrite menusOf_app, shortcutsOf_app.
      destruct (decide (i = j)) as [<-|Hne].
      * rewrite list_lookup_alter_eq, Hc0 in Hj. simplify_eq/=.
        destruct (Hrows c0 Hin0) as (Ht & Hm & Hk).
        by rewrite Ht, Hm, Hk, Hid0.
      * rewrite list_lookup_alter_ne in Hj by done.
        assert (Hc : c ∈ commands t) by by eapply list_elem_of_lookup_2.
        destruct (Hrows c Hc) as (Ht & Hm & Hk).
        assert (Hdiff : referenceId r ≠ Command.id c).
        { intros Heq. apply Hne.
          eapply (NoDup_lookup _ _ _ (referenceId r) Hnd).
          - by rewrite list_lookup_fmap, Hc0, <- Hid0.
          - by rewrite list_lookup_fmap, Hj, Heq. }
        rewrite menusOf_other, shortcutsOf_other by done.
        by rewrite !app_nil_r.
Qed.

Lemma Exact_final commands' :
  collectCommands contributes = Ok commands' →
  ∃ t, commands t = commands' ∧ Exact contributes (references contributes) t.
Proof.
  rewrite collectCommands_references.
  destruct (forEach addReference _ _) as [t|] eqn:Hrun; [|done].
  intros [= <-]. exists t. split; [done|].
  eapply (forEach_invariant addReference (Exact contributes)); [|apply Exact_initial|done].
  intros done r s1 s2. apply Exact_step.
Qed.

End OneRow.

Section CommandsTable.
Context `{KeybindingServices}.

(** C9, amended.  When the command ids declared in [contributes.commands]
    are pairwise distinct and the Commands table is rendered, every command
    id that is declared, or referenced by a menu or keybinding entry, has
    exactly one row and the table has no other row.  The row of an id shows
    the title declared for it, or an empty title when the id is only
    referenced, the labels of all keybinding entries naming it and the
    contexts of all menu entries naming it.  The count in the header is the
    number of distinct command ids. *)
Theorem commands_one_row_each contributes commands :
  NoDup (declaredIds contributes) →
  collectCommands contributes = Ok commands →
  let rows := map commandRow commands in
  let ids := declaredIds contributes ++ map referenceId (references contributes) in
  NoDup (map rowId rows)
  ∧ (∀ id, id ∈ map rowId rows ↔ id ∈ ids)
  ∧ (∀ row, row ∈ rows →
       rowTitle row
         = declaredTitle (default [] (Manifest.commands contributes)) (rowId row)
       ∧ rowShortcuts row = shortcutsOf (rowId row) (references contributes)
       ∧ rowMenus row = menusOf (rowId row) (references contributes))
  ∧ (∀ id, id ∉ declaredIds contributes →
       declaredTitle (default [] (Manifest.commands contributes)) id = "")
  ∧ length rows = length (remove_dups ids)
  ∧ summaryText (commandsSection commands)
    = Some (summaryFor Commands (length (remove_dups ids))).
Proof.
  intros Hdistinct Hc rows ids.
  apply (Exact_final _ Hdistinct) in Hc as (t & <- & [_ _ Hnd Hids Hrows]).
  assert (Hrowids : map rowId rows = map Command.id (commands t)).
  { subst rows. rewrite map_map. by apply map_ext. }
  assert (Hlen : length (commands t) = length (remove_dups ids)).
  { rewrite <- (length_map Command.id). apply Permutation_length.
    apply NoDup_Permutation; [done|apply NoDup_remove_dups|].
    intros x. rewrite elem_of_remove_dups, Hids. subst ids.
    by rewrite elem_of_app. }
  split; [by rewrite Hrowids|].
  split; [intros id; rewrite Hrowids, Hids; subst ids; by rewrite elem_of_app|].
  split.
  { intros row Hrow. subst rows.
    apply list_elem_of_fmap in Hrow as (c & -> & Hc).
    rewrite rowTitle_commandRow, rowShortcuts_commandRow, rowMenus_commandRow,
      rowId_commandRow.
    destruct (Hrows c Hc) as (Ht & Hm & Hk). done. }
  split; [intros id Hid; by apply declaredTitle_absent|].
  split; [subst rows; by rewrite length_map|].
  by rewrite <- Hlen.
Qed.

End CommandsTable.

(** ** Loads and their cancellation *)

Lemma settles_refl loads : settles loads loads.
Proof. split; [done|]. intros l ld Hl. eauto. Qed.

Lemma settles_trans loads1 loads2 loads3 :
  settles loads1 loads2 → settles loads2 loads3 → settles loads1 loads3.
Proof.
  intros [Hlen1 H1] [Hlen2 H2]. split; [congruence|].
  intros l ld3 Hl3. destruct (H2 _ _ Hl3) as (ld2 & Hl2 & Hs2).
  destruct (H1 _ _ Hl2) as (ld1 & Hl1 & Hs1).
  exists ld1. split; [done|]. intros Hrun.
  specialize (Hs2 Hrun). subst ld3. by apply Hs1.
Qed.

Lemma settles_alter loads l f :
  (∀ ld, status (f ld) = Running → f ld = ld) → settles loads (alter f l loads).
Proof.
  intros Hf. split; [by rewrite length_alter|].
  intros l' ld' Hl'. destruct (decide (l = l')) as [<-|Hne].
  - rewrite list_lookup_alter_eq in Hl'.
    destruct (loads !! l) as [ld|]; simplify_eq/=. eauto.
  - rewrite list_lookup_alter_ne in Hl' by done. eauto.
Qed.

Lemma cancel_settles ld : status (cancel ld) = Running → cancel ld = ld.
Proof. unfold cancel. by destruct (status ld) eqn:Hs. Qed.

Lemma cancel_not_running ld : status (cancel ld) ≠ Running.
Proof. unfold cancel. destruct (status ld) eqn:Hs; simpl; congruence. Qed.

Lemma withStatus_settles st ld :
  st ≠ Running → status (withStatus st ld) = Running → withStatus st ld = ld.
Proof. intros Hst Hrun. simpl in Hrun. done. Qed.

(** The fields a disposal leaves alone, and what it does to the loads. *)
Lemma dispose_frame d s :
  content (dispose d s) = content s
  ∧ contentDisposables (dispose d s) = contentDisposables s
  ∧ transientDisposables (dispose d s) = transientDisposables s
  ∧ calls (dispose d s) = calls s
  ∧ input (dispose d s) = input s
  ∧ extensionReadme (dispose d s) = extensionReadme s
  ∧ extensionManifest (dispose d s) = extensionManifest s
  ∧ readmes (dispose d s) = readmes s
  ∧ manifests (dispose d s) = manifests s
  ∧ NavBar.actions (navbar (dispose d s)) = NavBar.actions (navbar s)
  ∧ settles (loads s) (loads (dispose d s)).
Proof.
  destruct d; simpl; repeat split; try done; try apply settles_refl.
  - by rewrite length_alter.
  - apply settles_alter, cancel_settles.
Qed.

Lemma disposeAll_frame ds s :
  content (disposeAll ds s) = content s
  ∧ contentDisposables (disposeAll ds s) = contentDisposables s
  ∧ transientDisposables (disposeAll ds s) = transientDisposables s
  ∧ calls (disposeAll ds s) = calls s
  ∧ input (disposeAll ds s) = input s
  ∧ extensionReadme (disposeAll ds s) = extensionReadme s
  ∧ extensionManifest (disposeAll ds s) = extensionManifest s
  ∧ readmes (disposeAll ds s) = readmes s
  ∧ manifests (disposeAll ds s) = manifests s
  ∧ NavBar.actions (navbar (disposeAll ds s)) = NavBar.actions (navbar s)
  ∧ settles (loads s) (loads (disposeAll ds s)).
Proof.
  unfold disposeAll. revert s. induction ds as [|d ds IH]; intros s; simpl.
  - repeat split; try done. intros l ld Hl. eauto.
  - destruct (IH (dispose d s)) as (H1 & H2 & H3 & H4 & H5 & H6 & H7 & H8 & H9 & H10 & H11).
    destruct (dispose_frame d s) as (G1 & G2 & G3 & G4 & G5 & G6 & G7 & G8 & G9 & G10 & G11).
    repeat split; try congruence.
    + destruct H11 as [Hlen _], G11 as [Hlen' _]. congruence.
    + by apply (settles_trans _ _ _ G11 H11).
Qed.

Lemma disposeAll_cancels ds s l ld :
  CancelLoad l ∈ ds → loads (disposeAll ds s) !! l = Some ld → status ld ≠ Running.
Proof.
  unfold disposeAll. revert s. induction ds as [|d ds IH]; intros s Hin Hl.
  - by apply elem_of_nil in Hin.
  - simpl in Hl. apply elem_of_cons in Hin as [<-|Hin]; [|by eapply IH].
    intros Hrun.
    destruct (disposeAll_frame ds (dispose (CancelLoad l) s))
      as (_ & _ & _ & _ & _ & _ & _ & _ & _ & _ & _ & Hs).
    destruct (Hs _ _ Hl) as (ld0 & Hl0 & Heq). specialize (Heq Hrun). subst ld0.
    simpl in Hl0. rewrite list_lookup_alter_eq in Hl0.
    destruct (loads s !! l) as [ld1|]; simplify_eq/=.
    by eapply cancel_not_running.
Qed.

Lemma disposeAll_listeners ds s k :
  k ∈ NavBar.listeners (navbar (disposeAll ds s)) →
  k ∈ NavBar.listeners (navbar s) ∧ NavbarListener k ∉ ds.
Proof.
  unfold disposeAll. revert s. induction ds as [|d ds IH]; intros s Hk; simpl in *.
  - split; [done|]. apply not_elem_of_nil.
  - apply IH in Hk as [Hk Hnot].
    destruct d; simpl in Hk;
      try (split; [done|]; apply not_elem_of_cons; split; [done|done]).
    apply list_elem_of_filter in Hk as [Hne Hk].
    split; [done|]. apply not_elem_of_cons. split; [congruence|done].
Qed.

Lemma disposeAll_listeners_kept ds s k :
  k ∈ NavBar.listeners (navbar s) → NavbarListener k ∉ ds →
  k ∈ NavBar.listeners (navbar (disposeAll ds s)).
Proof.
  unfold disposeAll. revert s. induction ds as [|d ds IH]; intros s Hk Hnot; simpl; [done|].
  apply not_elem_of_cons in Hnot as [Hne Hnot]. apply IH; [|done].
  destruct d; simpl; try done.
  apply list_elem_of_filter. split; [congruence|done].
Qed.

Lemma foldl_preserves {A B} (P : A → Prop) (f : A → B → A) (l : list B) (a : A) :
  (∀ a' x, P a' → P (f a' x)) → P a → P (foldl f a l).
Proof.
  intros Hf. revert a. induction l as [|x l IH]; intros a Ha; simpl; [done|].
  apply IH. by apply Hf.
Qed.

Lemma onePanel_nil : onePanel [].
Proof. left. constructor. Qed.

Lemma LoadsInv_ext s s' :
  loads s' = loads s → contentDisposables s' = contentDisposables s →
  content s' = content s → LoadsInv s → LoadsInv s'.
Proof.
  intros Hl Hd Hc [H1 H2 H3 H4].
  split; rewrite ?Hl, ?Hd, ?Hc; done.
Qed.

Lemma idle_LoadsInv s : idle s → onePanel (content s) → LoadsInv s.
Proof.
  intros Hidle Hc. split; [| | |done]; intros l ld Hl Hrun; by destruct (Hidle l ld Hl).
Qed.

Lemma LoadsInv_settles s s' :
  settles (loads s) (loads s') → contentDisposables s' = contentDisposables s →
  content s' = content s → LoadsInv s → LoadsInv s'.
Proof.
  intros [Hlen Hs] Hd Hc [H1 H2 H3 H4].
  split; rewrite ?Hd, ?Hc, ?Hlen; [| | |done];
    intros l ld' Hl Hrun; destruct (Hs _ _ Hl) as (ld & Hld & Heq);
    specialize (Heq Hrun); subst ld'; eauto.
Qed.

(** Peel a setter of a field the invariant does not read. *)
Ltac peel_LoadsInv :=
  match goal with
  | |- LoadsInv (setCaches _ _ ?s0) => apply (LoadsInv_ext s0); [reflexivity..|]
  | |- LoadsInv (_ _ ?s0) => apply (LoadsInv_ext s0); [reflexivity..|]
  end.

Lemma LoadsInv_blank s :
  LoadsInv s → LoadsInv (setContent [] s).
Proof.
  intros [H1 H2 H3 H4]. split; simpl; [done|done|done|apply onePanel_nil].
Qed.

Section LoadsPreserved.
Context `{KeybindingServices} `{ReadmeServices}.

Lemma readmeLoaded_continued l r s : Continued l s (readmeLoaded l r s).
Proof.
  assert (Hno : Continued l s (showNoReadme l s)).
  { split; simpl; try done.
    - exists Completed. done.
    - left. exists [noReadme]. split; [done|]. by repeat constructor.
    - exists []. split; [by rewrite app_nil_r|]. intros k. apply not_elem_of_nil. }
  unfold readmeLoaded. destruct r as [readme|]; [|done].
  destruct (markedParse readme) as [html|]; [|done].
  destruct (display (renderBody html)) as [| |assigned]; [|done|].
  - split; simpl; try done.
    + exists Completed. done.
    + left. eexists. split; [done|]. by repeat constructor.
    + eexists. split; [done|]. intros k Hk.
      repeat (apply elem_of_cons in Hk as [Hk|Hk]; [done|]).
      by apply elem_of_nil in Hk.
  - split; simpl; try done.
    + exists Completed. done.
    + left. eexists. split; [by rewrite <- app_assoc|]. by repeat constructor.
    + exists []. split; [by rewrite app_nil_r|]. intros k. apply not_elem_of_nil.
Qed.

Lemma contributionsLoaded_continued l r s : Continued l s (contributionsLoaded l r s).
Proof.
  unfold contributionsLoaded. destruct r as [manifest|].
  - split; simpl; try done.
    + eexists. split; [|done]. by destruct (isOk _).
    + right. eauto.
    + exists []. split; [by rewrite app_nil_r|]. intros k. apply not_elem_of_nil.
  - split; simpl; try done.
    + exists Failed. done.
    + left. exists []. split; [by rewrite app_nil_r|]. constructor.
    + exists []. split; [by rewrite app_nil_r|]. intros k. apply not_elem_of_nil.
Qed.

Lemma continue_cases pn p l s :
  continue pn p l s = s ∨ Continued l s (continue pn p l s).
Proof.
  unfold continue. destruct pn.
  - destruct (readmes s !! p) as [[r|]|]; [|by left..].
    right. apply readmeLoaded_continued.
  - destruct (manifests s !! p) as [[r|]|]; [|by left..].
    right. apply contributionsLoaded_continued.
Qed.

(** After its continuation, a chain that was the only one waiting leaves
    the editor idle. *)
Lemma Continued_idle l s s' :
  (∀ l' ld, loads s !! l' = Some ld → status ld = Running → l' = l) →
  Continued l s s' → idle s'.
Proof.
  intros Honly [(st & Hst & Hloads) _ _ _ _ _ _ _ _ _ _] l' ld' Hl' Hrun.
  rewrite Hloads in Hl'. destruct (decide (l = l')) as [<-|Hne].
  - rewrite list_lookup_alter_eq in Hl'.
    destruct (loads s !! l); simplify_eq/=.
  - rewrite list_lookup_alter_ne in Hl' by done.
    apply Hne. symmetry. by eapply Honly.
Qed.

Lemma Continued_content l s s' :
  content s = [] → Continued l s s' → onePanel (content s').
Proof.
  intros Hc [_ [(extra & -> & Hextra)|(children & ->)] _ _ _ _ _ _ _ _ _].
  - left. by rewrite Hc.
  - right. eauto.
Qed.

Lemma continue_LoadsInv pn p l ld s :
  LoadsInv s → loads s !! l = Some ld → status ld = Running →
  LoadsInv (continue pn p l s).
Proof.
  intros Hinv Hl Hrun. destruct (continue_cases pn p l s) as [->|Hcont]; [done|].
  apply idle_LoadsInv.
  - eapply Continued_idle; [|done].
    intros l' ld' Hl' Hrun'.
    pose proof (inv_last _ Hinv _ _ Hl Hrun).
    pose proof (inv_last _ Hinv _ _ Hl' Hrun'). lia.
  - eapply Continued_content; [|done]. by eapply inv_blank.
Qed.

Lemma deliver_LoadsInv pn p s : LoadsInv s → LoadsInv (deliver pn p s).
Proof.
  intros Hinv. unfold deliver. apply foldl_preserves; [|done].
  intros s' l Hs'. destruct (loads s' !! l) as [ld|] eqn:Hl; [|done].
  case_bool_decide as Hmatch; [|done].
  destruct Hmatch as (_ & _ & Hrun). by eapply continue_LoadsInv.
Qed.

Lemma beginLoad_idle s :
  LoadsInv s →
  idle (beginLoad s) ∧ content (beginLoad s) = []
  ∧ contentDisposables (beginLoad s) = [].
Proof.
  intros Hinv. unfold beginLoad. simpl. split; [|done].
  intros l ld Hl Hrun.
  destruct (disposeAll_frame (contentDisposables s) s)
    as (_ & _ & _ & _ & _ & _ & _ & _ & _ & _ & _ & Hs).
  destruct (Hs _ _ Hl) as (ld0 & Hl0 & Heq). specialize (Heq Hrun). subst ld0.
  apply (disposeAll_cancels (contentDisposables s) s l ld);
    [by eapply inv_cancel|exact Hl|exact Hrun].
Qed.

Lemma attach_LoadsInv pn p s :
  idle s → content s = [] → LoadsInv (attach pn p s).
Proof.
  intros Hidle Hc. unfold attach.
  set (l := length (loads s)).
  set (s1 := setLoads _ s).
  assert (Honly : ∀ l' ld, loads s1 !! l' = Some ld → status ld = Running → l' = l).
  { intros l' ld Hl' Hrun. subst s1. simpl in Hl'.
    apply lookup_app_Some in Hl' as [Hl'|[Hge Hl']].
    - by destruct (Hidle _ _ Hl').
    - apply list_lookup_singleton_Some in Hl' as [Hl' _]. subst l. lia. }
  destruct (continue_cases pn p l s1) as [->|Hcont].
  - split; simpl.
    + intros l' ld Hl' Hrun. rewrite (Honly l' ld Hl' Hrun).
      apply elem_of_app. right. by apply list_elem_of_singleton.
    + intros l' ld Hl' Hrun. rewrite (Honly l' ld Hl' Hrun).
      rewrite length_app. simpl. subst l. lia.
    + done.
    + rewrite Hc. apply onePanel_nil.
  - apply idle_LoadsInv.
    + intros l' ld Hl'. simpl in Hl'.
      by eapply (Continued_idle l s1 _ Honly Hcont).
    + simpl. by eapply (Continued_content l s1).
Qed.

End LoadsPreserved.

(** ** What a load leaves alone *)

Lemma sameCalls_refl s : sameCalls s s.
Proof. by repeat split. Qed.

Lemma sameCalls_trans s1 s2 s3 : sameCalls s1 s2 → sameCalls s2 s3 → sameCalls s1 s3.
Proof. intros (?&?&?&?) (?&?&?&?). repeat split; congruence. Qed.

Lemma sameNav_refl s : sameNav s s.
Proof. by split. Qed.

Lemma sameNav_trans s1 s2 s3 : sameNav s1 s2 → sameNav s2 s3 → sameNav s1 s3.
Proof. intros (?&?) (?&?). split; congruence. Qed.

Lemma quiet_nil : quiet [].
Proof. intros k. apply not_elem_of_nil. Qed.

Lemma quiet_app ds1 ds2 : quiet ds1 → quiet ds2 → quiet (ds1 ++ ds2).
Proof. intros H1 H2 k [?|?]%elem_of_app; [by eapply H1|by eapply H2]. Qed.

Lemma disposeAll_quiet ds s : quiet ds → navbar (disposeAll ds s) = navbar s.
Proof.
  unfold disposeAll. revert s. induction ds as [|d ds IH]; intros s Hq; [done|].
  simpl. rewrite IH.
  - destruct d; simpl; try done. exfalso. eapply Hq. by left.
  - intros k Hk. eapply Hq. by right.
Qed.

Lemma CallsInv_ext s s' : sameCalls s s' → CallsInv s → CallsInv s'.
Proof.
  intros (Hc & Hi & Hr & Hm) [H1 H2 H3 H4].
  split; unfold callCount in *; rewrite ?Hc, ?Hi, ?Hr, ?Hm; done.
Qed.

Section LoadsFrame.
Context `{KeybindingServices} `{ReadmeServices}.

Lemma beginLoad_sameCalls s : sameCalls s (beginLoad s).
Proof.
  destruct (disposeAll_frame (contentDisposables s) s)
    as (_ & _ & _ & ? & ? & ? & ? & _).
  unfold beginLoad. by repeat split.
Qed.

Lemma beginLoad_sameNav s : quiet (contentDisposables s) → sameNav s (beginLoad s).
Proof.
  intros Hq. destruct (disposeAll_frame (contentDisposables s) s)
    as (_ & _ & ? & _).
  unfold beginLoad. split; simpl; [by apply disposeAll_quiet|done].
Qed.

Lemma continue_sameCalls pn p l s : sameCalls s (continue pn p l s).
Proof.
  destruct (continue_cases pn p l s) as [->|[]]; [apply sameCalls_refl|].
  by repeat split.
Qed.

Lemma continue_sameNav pn p l s : sameNav s (continue pn p l s).
Proof.
  destruct (continue_cases pn p l s) as [->|[]]; [apply sameNav_refl|].
  by split.
Qed.

Lemma continue_quiet pn p l s :
  quiet (contentDisposables s) → quiet (contentDisposables (continue pn p l s)).
Proof.
  intros Hq. destruct (continue_cases pn p l s) as [->|[]]; [done|].
  destruct continued_disposables0 as (ds & -> & Hds). by apply quiet_app.
Qed.

Lemma continue_promises pn p l s :
  readmes (continue pn p l s) = readmes s
  ∧ manifests (continue pn p l s) = manifests s
  ∧ length (loads (continue pn p l s)) = length (loads s).
Proof.
  destruct (continue_cases pn p l s) as [->|[]]; [done|].
  destruct continued_loads0 as (st & _ & ->). by rewrite length_alter.
Qed.

Lemma attach_sameCalls pn p s : sameCalls s (attach pn p s).
Proof.
  unfold attach.
  destruct (continue_sameCalls pn p (length (loads s))
              (setLoads (loads s ++ [{| panel := pn; source := p; status := Running |}]) s))
    as (?&?&?&?).
  by repeat split.
Qed.

Lemma attach_sameNav pn p s : sameNav s (attach pn p s).
Proof.
  unfold attach.
  destruct (continue_sameNav pn p (length (loads s))
              (setLoads (loads s ++ [{| panel := pn; source := p; status := Running |}]) s))
    as (?&?).
  by split.
Qed.

Lemma attach_quiet pn p s :
  quiet (contentDisposables s) → quiet (contentDisposables (attach pn p s)).
Proof.
  intros Hq. unfold attach. simpl. apply quiet_app.
  - by apply continue_quiet.
  - intros k Hk. by apply list_elem_of_singleton in Hk.
Qed.

Lemma deliver_sameCalls pn p s : sameCalls s (deliver pn p s).
Proof.
  unfold deliver. apply (foldl_preserves (sameCalls s)); [|apply sameCalls_refl].
  intros s' l Hs'. destruct (loads s' !! l); [|done].
  case_bool_decide; [|done].
  eapply sameCalls_trans; [done|apply continue_sameCalls].
Qed.

Lemma deliver_sameNav pn p s : sameNav s (deliver pn p s).
Proof.
  unfold deliver. apply (foldl_preserves (sameNav s)); [|apply sameNav_refl].
  intros s' l Hs'. destruct (loads s' !! l); [|done].
  case_bool_decide; [|done].
  eapply sameNav_trans; [done|apply continue_sameNav].
Qed.

Lemma deliver_quiet pn p s :
  quiet (contentDisposables s) → quiet (contentDisposables (deliver pn p s)).
Proof.
  intros Hq. unfold deliver.
  apply (foldl_preserves (λ s', quiet (contentDisposables s'))); [|done].
  intros s' l Hs'. destruct (loads s' !! l); [|done].
  case_bool_decide; [|done]. by apply continue_quiet.
Qed.

(** The cache lookups change nothing but the cache, the promises and the
    trace. *)
Lemma readmeGet_frame s p s' :
  readmeGet s = Some (p, s') →
  loads s' = loads s ∧ content s' = content s
  ∧ contentDisposables s' = contentDisposables s ∧ sameNav s s'
  ∧ input s' = input s ∧ extensionManifest s' = extensionManifest s.
Proof.
  unfold readmeGet. destruct (extensionReadme s) as [c|]; [|done]. simpl.
  destruct (promise c); intros [= <- <-]; by repeat split.
Qed.

Lemma manifestGet_frame s p s' :
  manifestGet s = Some (p, s') →
  loads s' = loads s ∧ content s' = content s
  ∧ contentDisposables s' = contentDisposables s ∧ sameNav s s'
  ∧ input s' = input s ∧ extensionReadme s' = extensionReadme s.
Proof.
  unfold manifestGet. destruct (extensionManifest s) as [c|]; [|done]. simpl.
  destruct (promise c); intros [= <- <-]; by repeat split.
Qed.

Lemma openReadme_LoadsInv s : LoadsInv s → LoadsInv (openReadme s).
Proof.
  intros Hinv. destruct (beginLoad_idle s Hinv) as (Hidle & Hc & Hd).
  unfold openReadme. destruct (readmeGet (beginLoad s)) as [[p s2]|] eqn:Hget.
  - apply readmeGet_frame in Hget as (Hl & Hc2 & _).
    apply attach_LoadsInv; [|congruence].
    intros l ld. rewrite Hl. apply Hidle.
  - apply idle_LoadsInv; [done|]. rewrite Hc. apply onePanel_nil.
Qed.

Lemma openContributions_LoadsInv s : LoadsInv s → LoadsInv (openContributions s).
Proof.
  intros Hinv. destruct (beginLoad_idle s Hinv) as (Hidle & Hc & Hd).
  unfold openContributions. destruct (manifestGet (beginLoad s)) as [[p s2]|] eqn:Hget.
  - apply manifestGet_frame in Hget as (Hl & Hc2 & _).
    apply attach_LoadsInv; [|congruence].
    intros l ld. rewrite Hl. apply Hidle.
  - apply idle_LoadsInv; [done|]. rewrite Hc. apply onePanel_nil.
Qed.

Lemma onNavbarChange_LoadsInv id s : LoadsInv s → LoadsInv (onNavbarChange id s).
Proof.
  intros Hinv. unfold onNavbarChange.
  destruct (String.eqb id NavbarSection.Readme); [by apply openReadme_LoadsInv|].
  destruct (String.eqb id NavbarSection.Contributions);
    [by apply openContributions_LoadsInv|done].
Qed.

Lemma run_LoadsInv id s : LoadsInv s → LoadsInv (run id s).
Proof.
  intros Hinv. unfold run. peel_LoadsInv.
  apply foldl_preserves; [|done].
  intros s' _. apply onNavbarChange_LoadsInv.
Qed.

Lemma push_LoadsInv id label s : LoadsInv s → LoadsInv (push id label s).
Proof.
  intros Hinv. unfold push. case_bool_decide.
  - apply run_LoadsInv. by peel_LoadsInv.
  - by peel_LoadsInv.
Qed.

Lemma setInput_LoadsInv extension s : LoadsInv s → LoadsInv (setInput extension s).
Proof.
  intros Hinv. unfold setInput.
  apply LoadsInv_blank. apply push_LoadsInv. apply push_LoadsInv.
  do 6 peel_LoadsInv.
  destruct (disposeAll_frame (transientDisposables s) s)
    as (Hc & Hd & _ & _ & _ & _ & _ & _ & _ & _ & Hs).
  by apply (LoadsInv_settles s).
Qed.

Lemma handle_LoadsInv e s : LoadsInv s → LoadsInv (handle e s).
Proof.
  intros Hinv. destruct e as [extension|id|p r|p r]; simpl.
  - by apply setInput_LoadsInv.
  - destruct (NavBar.hasAction id (navbar s)); [by apply run_LoadsInv|done].
  - destruct (readmes s !! p) as [[r'|]|]; [done| |done].
    apply deliver_LoadsInv. by peel_LoadsInv.
  - destruct (manifests s !! p) as [[r'|]|]; [done| |done].
    apply deliver_LoadsInv. by peel_LoadsInv.
Qed.

Lemma initial_LoadsInv : LoadsInv initial.
Proof.
  apply idle_LoadsInv; [|apply onePanel_nil].
  intros l ld Hl. simpl in Hl. by rewrite lookup_nil in Hl.
Qed.

Lemma reachable_LoadsInv s : reachable s → LoadsInv s.
Proof.
  induction 1 as [|e s _ IH]; [apply initial_LoadsInv|by apply handle_LoadsInv].
Qed.

Lemma runEvents_reachable es : reachable (runEvents es initial).
Proof.
  unfold runEvents. apply foldl_preserves; [|constructor].
  intros s e Hs. by constructor.
Qed.

End LoadsFrame.

(** ** Calls on the extension *)

Lemma callCount_app c s extra :
  length (filter (λ c', c' = c) (calls s ++ extra))
  = callCount c s + length (filter (λ c', c' = c) extra).
Proof. unfold callCount. by rewrite filter_app, length_app. Qed.

Lemma callCount_absent c s : c ∉ calls s → callCount c s = 0.
Proof.
  unfold callCount. intros Hnot.
  induction (calls s) as [|c' cs IH]; [done|].
  apply not_elem_of_cons in Hnot as [Hne Hnot].
  rewrite filter_cons_False by congruence. by apply IH.
Qed.

Lemma sameCalls_setNavbar v s : sameCalls s (setNavbar v s).
Proof. by repeat split. Qed.
Lemma sameCalls_setContent v s : sameCalls s (setContent v s).
Proof. by repeat split. Qed.
Lemma sameCalls_setContentDisposables v s : sameCalls s (setContentDisposables v s).
Proof. by repeat split. Qed.
Lemma sameCalls_setTransientDisposables v s : sameCalls s (setTransientDisposables v s).
Proof. by repeat split. Qed.
Lemma sameCalls_setReadmes v s : sameCalls s (setReadmes v s).
Proof. by repeat split. Qed.
Lemma sameCalls_setManifests v s : sameCalls s (setManifests v s).
Proof. by repeat split. Qed.

(** Peel a setter of a field the invariant does not read. *)
Ltac peel_CallsInv :=
  eapply CallsInv_ext;
  [first [ apply sameCalls_setNavbar | apply sameCalls_setContent
         | apply sameCalls_setContentDisposables
         | apply sameCalls_setTransientDisposables
         | apply sameCalls_setReadmes | apply sameCalls_setManifests ]|].

Section CallsPreserved.
Context `{KeybindingServices} `{ReadmeServices}.

Lemma readmeGet_CallsInv s p s' :
  CallsInv s → readmeGet s = Some (p, s') → CallsInv s'.
Proof.
  intros Hinv. unfold readmeGet.
  destruct (extensionReadme s) as [c|] eqn:Hc; [|done]. simpl.
  destruct (promise c) as [p'|] eqn:Hp; intros [= <- <-]; [done|].
  destruct Hinv as [Hb Ho Hr Hm].
  specialize (Hr c Hc Hp).
  split; simpl.
  - intros c' [Hc'|Hc']%elem_of_app; [by apply Hb|].
    apply list_elem_of_singleton in Hc' as ->. done.
  - intros c'. unfold callCount. simpl. rewrite callCount_app.
    destruct (decide (GetReadme (input s) = c')) as [<-|Hne].
    + rewrite callCount_absent by done. simpl.
      rewrite filter_cons_True by done. simpl. lia.
    + rewrite filter_cons_False by done. simpl.
      specialize (Ho c'). lia.
  - intros c' [= <-]. done.
  - intros c' Hc' Hp' [Hin|Hin]%elem_of_app; [by eapply Hm|].
    by apply list_elem_of_singleton in Hin.
Qed.

Lemma manifestGet_CallsInv s p s' :
  CallsInv s → manifestGet s = Some (p, s') → CallsInv s'.
Proof.
  intros Hinv. unfold manifestGet.
  destruct (extensionManifest s) as [c|] eqn:Hc; [|done]. simpl.
  destruct (promise c) as [p'|] eqn:Hp; intros [= <- <-]; [done|].
  destruct Hinv as [Hb Ho Hr Hm].
  specialize (Hm c Hc Hp).
  split; simpl.
  - intros c' [Hc'|Hc']%elem_of_app; [by apply Hb|].
    apply list_elem_of_singleton in Hc' as ->. done.
  - intros c'. unfold callCount. simpl. rewrite callCount_app.
    destruct (decide (GetManifest (input s) = c')) as [<-|Hne].
    + rewrite callCount_absent by done. simpl.
      rewrite filter_cons_True by done. simpl. lia.
    + rewrite filter_cons_False by done. simpl.
      specialize (Ho c'). lia.
  - intros c' Hc' Hp' [Hin|Hin]%elem_of_app; [by eapply Hr|].
    by apply list_elem_of_singleton in Hin.
  - intros c' [= <-]. done.
Qed.

Lemma openReadme_CallsInv s : CallsInv s → CallsInv (openReadme s).
Proof.
  intros Hinv. unfold openReadme.
  pose proof (CallsInv_ext _ _ (beginLoad_sameCalls s) Hinv) as Hb.
  destruct (readmeGet (beginLoad s)) as [[p s2]|] eqn:Hget; [|done].
  eapply CallsInv_ext; [apply attach_sameCalls|].
  by eapply readmeGet_CallsInv.
Qed.

Lemma openContributions_CallsInv s : CallsInv s → CallsInv (openContributions s).
Proof.
  intros Hinv. unfold openContributions.
  pose proof (CallsInv_ext _ _ (beginLoad_sameCalls s) Hinv) as Hb.
  destruct (manifestGet (beginLoad s)) as [[p s2]|] eqn:Hget; [|done].
  eapply CallsInv_ext; [apply attach_sameCalls|].
  by eapply manifestGet_CallsInv.
Qed.

Lemma onNavbarChange_CallsInv id s : CallsInv s → CallsInv (onNavbarChange id s).
Proof.
  intros Hinv. unfold onNavbarChange.
  destruct (String.eqb id NavbarSection.Readme); [by apply openReadme_CallsInv|].
  destruct (String.eqb id NavbarSection.Contributions);
    [by apply openContributions_CallsInv|done].
Qed.

Lemma run_CallsInv id s : CallsInv s → CallsInv (run id s).
Proof.
  intros Hinv. unfold run. peel_CallsInv.
  apply foldl_preserves; [|done].
  intros s' _. apply onNavbarChange_CallsInv.
Qed.

Lemma push_CallsInv id label s : CallsInv s → CallsInv (push id label s).
Proof.
  intros Hinv. unfold push. case_bool_decide.
  - apply run_CallsInv. by peel_CallsInv.
  - by peel_CallsInv.
Qed.

Lemma setInput_CallsInv extension s : CallsInv s → CallsInv (setInput extension s).
Proof.
  intros [Hb Ho Hr Hm]. unfold setInput.
  peel_CallsInv. apply push_CallsInv. apply push_CallsInv.
  do 3 peel_CallsInv.
  destruct (disposeAll_frame (transientDisposables s) s)
    as (_ & _ & _ & Hc & Hi & _).
  assert (Hnew : ∀ c, callInput c = S (input s) → c ∉ calls s).
  { intros c Hc' Hin. specialize (Hb c Hin). lia. }
  split; unfold callCount; simpl; rewrite ?Hc, ?Hi.
  - intros c Hin. specialize (Hb c Hin). lia.
  - apply Ho.
  - intros c _ _. by apply Hnew.
  - intros c _ _. by apply Hnew.
Qed.

Lemma handle_CallsInv e s : CallsInv s → CallsInv (handle e s).
Proof.
  intros Hinv. destruct e as [extension|id|p r|p r]; simpl.
  - by apply setInput_CallsInv.
  - destruct (NavBar.hasAction id (navbar s)); [by apply run_CallsInv|done].
  - destruct (readmes s !! p) as [[r'|]|]; [done| |done].
    eapply CallsInv_ext; [apply deliver_sameCalls|]. by peel_CallsInv.
  - destruct (manifests s !! p) as [[r'|]|]; [done| |done].
    eapply CallsInv_ext; [apply deliver_sameCalls|]. by peel_CallsInv.
Qed.

Lemma reachable_CallsInv s : reachable s → CallsInv s.
Proof.
  induction 1 as [|e s _ IH]; [|by apply handle_CallsInv].
  split; unfold callCount; simpl; try done.
  - intros c Hc. by apply elem_of_nil in Hc.
  - intros c. lia.
Qed.

End CallsPreserved.

(** ** Listeners of the navigation bar *)

Section NavPreserved.
Context `{KeybindingServices} `{ReadmeServices}.

Lemma openReadme_sameNav s :
  quiet (contentDisposables s) →
  sameNav s (openReadme s) ∧ quiet (contentDisposables (openReadme s)).
Proof.
  intros Hq. unfold openReadme.
  pose proof (beginLoad_sameNav s Hq) as Hb.
  assert (Hqb : quiet (contentDisposables (beginLoad s))) by apply quiet_nil.
  destruct (readmeGet (beginLoad s)) as [[p s2]|] eqn:Hget; [|done].
  apply readmeGet_frame in Hget as (_ & _ & Hd & Hn & _).
  split.
  - eapply sameNav_trans; [done|]. eapply sameNav_trans; [done|apply attach_sameNav].
  - apply attach_quiet. by rewrite Hd.
Qed.

Lemma openContributions_sameNav s :
  quiet (contentDisposables s) →
  sameNav s (openContributions s) ∧ quiet (contentDisposables (openContributions s)).
Proof.
  intros Hq. unfold openContributions.
  pose proof (beginLoad_sameNav s Hq) as Hb.
  assert (Hqb : quiet (contentDisposables (beginLoad s))) by apply quiet_nil.
  destruct (manifestGet (beginLoad s)) as [[p s2]|] eqn:Hget; [|done].
  apply manifestGet_frame in Hget as (_ & _ & Hd & Hn & _).
  split.
  - eapply sameNav_trans; [done|]. eapply sameNav_trans; [done|apply attach_sameNav].
  - apply attach_quiet. by rewrite Hd.
Qed.

Lemma onNavbarChange_sameNav id s :
  quiet (contentDisposables s) →
  sameNav s (onNavbarChange id s) ∧ quiet (contentDisposables (onNavbarChange id s)).
Proof.
  intros Hq. unfold onNavbarChange.
  destruct (String.eqb id NavbarSection.Readme); [by apply openReadme_sameNav|].
  destruct (String.eqb id NavbarSection.Contributions);
    [by apply openContributions_sameNav|].
  split; [apply sameNav_refl|done].
Qed.

Lemma fire_sameNav id (ks : list nat) s :
  quiet (contentDisposables s) →
  sameNav s (foldl (λ s' _, onNavbarChange id s') s ks)
  ∧ quiet (contentDisposables (foldl (λ s' _, onNavbarChange id s') s ks)).
Proof.
  intros Hq.
  apply (foldl_preserves (λ s', sameNav s s' ∧ quiet (contentDisposables s')));
    [|by split; [apply sameNav_refl|]].
  intros s' _ [Hn Hq']. destruct (onNavbarChange_sameNav id s' Hq') as [Hn' Hq''].
  split; [by eapply sameNav_trans|done].
Qed.

Lemma run_navbar id s :
  quiet (contentDisposables s) →
  navbar (run id s) = NavBar.select id (navbar s)
  ∧ transientDisposables (run id s) = transientDisposables s
  ∧ quiet (contentDisposables (run id s)).
Proof.
  intros Hq. unfold run. simpl.
  destruct (fire_sameNav id (NavBar.listeners (navbar s)) s Hq) as [[Hn Ht] Hq'].
  by rewrite Hn.
Qed.

Lemma push_navbar id label s :
  quiet (contentDisposables s) →
  navbar (push id label s)
  = (if bool_decide (length (NavBar.actions (navbar s)) = 0)
     then NavBar.select id (NavBar.addAction id label (navbar s))
     else NavBar.addAction id label (navbar s))
  ∧ transientDisposables (push id label s) = transientDisposables s
  ∧ quiet (contentDisposables (push id label s)).
Proof.
  intros Hq. unfold push. simpl. rewrite length_app. simpl.
  case_bool_decide as Hone; case_bool_decide as Hzero; try lia.
  - by apply (run_navbar id (setNavbar _ s)).
  - done.
Qed.

Lemma setInput_navbar extension s :
  NavInv s →
  navbar (setInput extension s) = twoTabs (S (input s))
  ∧ NavInv (setInput extension s).
Proof.
  intros [Hl Hq]. unfold setInput.
  destruct (disposeAll_frame (transientDisposables s) s)
    as (_ & Hd & _ & _ & Hi & _ & _ & _ & _ & Ha & _).
  assert (Hnone : NavBar.listeners (navbar (disposeAll (transientDisposables s) s)) = []).
  { apply elem_of_nil_inv. intros k Hk.
    apply disposeAll_listeners in Hk as [Hk Hnot]. by apply Hnot, Hl. }
  set (s1 := setTransientDisposables [] _).
  set (s6 := setTransientDisposables _ (setNavbar _ _)).
  assert (Hq6 : quiet (contentDisposables s6)) by (subst s6 s1; simpl; by rewrite Hd).
  destruct (push_navbar NavbarSection.Readme (localize "details" "Details" None) s6 Hq6)
    as (Hn7 & Ht7 & Hq7).
  set (s7 := push _ _ s6) in *.
  destruct (push_navbar NavbarSection.Contributions
              (localize "contributions" "Contributions" None) s7 Hq7)
    as (Hn8 & Ht8 & Hq8).
  assert (Hnav : navbar (push NavbarSection.Contributions
                    (localize "contributions" "Contributions" None) s7)
                 = twoTabs (S (input s))).
  { rewrite Hn8, Hn7. subst s6 s1. simpl.
    unfold NavBar.addAction, NavBar.select, NavBar.onChange, NavBar.clear, twoTabs.
    simpl. rewrite Hnone, Hi. reflexivity. }
  split; [done|].
  set (s8 := push NavbarSection.Contributions _ s7) in *.
  split; [|exact Hq8].
  change (navbar (setContent [] s8)) with (navbar s8).
  change (transientDisposables (setContent [] s8)) with (transientDisposables s8).
  rewrite Hnav, Ht8, Ht7. subst s6 s1. simpl. rewrite Hi.
  intros k Hk. apply list_elem_of_singleton in Hk as ->.
  apply list_elem_of_In. simpl. do 6 right. by left.
Qed.

Lemma run_NavInv id s : NavInv s → NavInv (run id s).
Proof.
  intros [Hl Hq]. destruct (run_navbar id s Hq) as (Hn & Ht & Hq').
  split; [|done]. rewrite Hn, Ht. done.
Qed.

Lemma deliver_NavInv pn p s : NavInv s → NavInv (deliver pn p s).
Proof.
  intros [Hl Hq]. destruct (deliver_sameNav pn p s) as [Hn Ht].
  split; [by rewrite Hn, Ht|by apply deliver_quiet].
Qed.

Lemma handle_NavInv e s : NavInv s → NavInv (handle e s).
Proof.
  intros Hinv. destruct e as [extension|id|p r|p r]; simpl.
  - by apply setInput_navbar.
  - destruct (NavBar.hasAction id (navbar s)); [by apply run_NavInv|done].
  - destruct (readmes s !! p) as [[r'|]|]; [done| |done].
    apply deliver_NavInv. by destruct Hinv.
  - destruct (manifests s !! p) as [[r'|]|]; [done| |done].
    apply deliver_NavInv. by destruct Hinv.
Qed.

Lemma reachable_NavInv s : reachable s → NavInv s.
Proof.
  induction 1 as [|e s _ IH]; [|by apply handle_NavInv].
  split; simpl; [|apply quiet_nil].
  intros k Hk. by apply elem_of_nil in Hk.
Qed.

End NavPreserved.

(** ** When the loops run to the end *)

Lemma forEach_total {A S} (f : A → S → Result S) (P : S → Prop) (l : list A) (s : S) :
  (∀ x s1, x ∈ l → P s1 → ∃ s2, f x s1 = Ok s2 ∧ P s2) →
  P s → ∃ s', forEach f l s = Ok s' ∧ P s'.
Proof.
  revert s. induction l as [|x l IH]; intros s Hf HP; simpl; [eauto|].
  destruct (Hf x s) as (s2 & -> & HP2); [by left|done|].
  apply IH; [|done]. intros y s1 Hy. apply Hf. by right.
Qed.

Lemma reduceFrom_proto i cs r :
  "__proto__" ∉ map Command.id cs → proto (reduceFrom i cs r) = proto r.
Proof.
  revert i r. induction cs as [|c cs IH]; intros i r Hnot; [done|].
  simpl in *. apply not_elem_of_cons in Hnot as [Hne Hnot].
  rewrite IH by done. unfold dictionarySet.
  destruct (String.eqb_spec (Command.id c) "__proto__"); [congruence|done].
Qed.

Lemma dictionaryGet_plain commands d key :
  proto d = None → key ∉ objectPrototypeKeys →
  dictionaryGet commands d key ≠ Inherited.
Proof.
  intros Hp Hkey. unfold dictionaryGet, viaObjectPrototype. rewrite Hp.
  destruct (String.eqb_spec key "__proto__") as [->|_].
  - exfalso. apply Hkey. unfold objectPrototypeKeys. set_solver.
  - destruct (own d !! key); [done|]. simpl.
    by rewrite bool_decide_false.
Qed.

Section Completes.
Context `{KeybindingServices}.

Lemma addReference_plain r t :
  proto (allCommands t) = None → referenceId r ∉ objectPrototypeKeys →
  ∃ t', addReference r t = Ok t' ∧ proto (allCommands t') = None.
Proof.
  intros Hp Hkey.
  pose proof (dictionaryGet_plain (commands t) _ _ Hp Hkey) as Hget.
  assert (Hne : referenceId r ≠ "__proto__").
  { intros Heq. apply Hkey. rewrite Heq. unfold objectPrototypeKeys. set_solver. }
  assert (Hrefer : ∀ fresh push, Command.id fresh = referenceId r →
            ∃ t', refer fresh push t = Ok t' ∧ proto (allCommands t') = None).
  { intros fresh push Hid. unfold refer. rewrite Hid.
    destruct (dictionaryGet _ _ _); [by eexists| |done].
    eexists. split; [done|]. simpl. unfold dictionarySet.
    destruct (String.eqb_spec (referenceId r) "__proto__"); [done|done]. }
  destruct r as [context menu|userString]; simpl in *; by apply Hrefer.
Qed.

(** The loops run to the end when no command is declared under the id
    [__proto__] and no menu or keybinding entry names a member every object
    inherits. *)
Lemma collectCommands_completes contributes :
  "__proto__" ∉ declaredIds contributes →
  (∀ r, r ∈ references contributes → referenceId r ∉ objectPrototypeKeys) →
  ∃ commands, collectCommands contributes = Ok commands.
Proof.
  intros Hdecl Hrefs. rewrite collectCommands_references.
  destruct (forEach_total addReference (λ t, proto (allCommands t) = None)
              (references contributes) (initialTable contributes))
    as (t & -> & _); [| |eauto].
  - intros r t Hr Hp. by apply addReference_plain; [|apply Hrefs].
  - unfold initialTable. simpl. rewrite reduceFrom_proto; [done|].
    by rewrite declaredCommands_ids.
Qed.

(** X2.  The Contributions panel is rendered to the end, without error,
    for every manifest with a [contributes] object that declares no command
    under the id [__proto__] and whose menu and keybinding entries name no
    member every object inherits; which categories are present or absent
    does not matter. *)
Theorem renderContributions_completes manifest contributes :
  Manifest.contributes manifest = Some contributes →
  "__proto__" ∉ declaredIds contributes →
  (∀ r, r ∈ references contributes → referenceId r ∉ objectPrototypeKeys) →
  ∃ children, renderContributions manifest [] = (children, Ok ()).
Proof.
  intros Hc Hdecl Hrefs.
  destruct (collectCommands_completes contributes Hdecl Hrefs) as [commands Hcmds].
  rewrite (renderContributions_ok _ _ _ Hc Hcmds). eauto.
Qed.

(** A manifest whose [contributes] object has no category at all renders an
    empty panel without error. *)
Lemma renderContributions_nothing :
  renderContributions (manifestOf Manifest.noContributions) [] = ([], Ok ()).
Proof. reflexivity. Qed.

(** C10, at a failing input.  The manifest contributes one menu entry that
    names the command id [valueOf] and declares no command.  The lookup
    [allCommands[menu.command]] finds the function every object inherits
    under that name, so the entry is taken for a known command and the push
    onto its [menus] array throws: the panel is left empty and the error
    propagates. *)
Theorem inherited_id_throws :
  collectCommands inheritedId = Throw TypeError
  ∧ renderContributions (manifestOf inheritedId) [] = ([], Throw TypeError).
Proof. split; reflexivity. Qed.

(** C5, at a failing input.  The same manifest contributes one theme, so the
    derived list of the Themes category is not empty; the Commands renderer
    throws before the Themes renderer is called and the panel shows no
    section at all. *)
Theorem themes_section_lost :
  contributionCount inheritedId [] Themes = 1
  ∧ renderContributions (manifestOf inheritedId) [] = ([], Throw TypeError).
Proof. split; reflexivity. Qed.

End Completes.

(** ** The editor, claim by claim *)

Lemma filter_none {A} (P : A → Prop) `{∀ x, Decision (P x)} (l : list A) :
  (∀ x, x ∈ l → ¬ P x) → filter P l = [].
Proof.
  induction l as [|x l IH]; intros Hl; [done|].
  rewrite filter_cons_False by (apply Hl; by left).
  apply IH. intros y Hy. apply Hl. by right.
Qed.

Lemma running_at_most_one (loads : list Load) :
  (∀ l ld, loads !! l = Some ld → status ld = Running → S l = length loads) →
  (length (filter (λ ld, status ld = Running) loads) ≤ 1)%nat.
Proof.
  destruct loads as [|ld0 loads0] using rev_ind; [simpl; lia|].
  intros Hlast. rewrite filter_app, length_app.
  rewrite (filter_none _ loads0).
  - simpl. destruct (decide (status ld0 = Running));
      [rewrite filter_cons_True by done|rewrite filter_cons_False by done]; simpl; lia.
  - intros ld [l Hl]%list_elem_of_lookup Hrun.
    pose proof (lookup_lt_Some _ _ _ Hl) as Hlt.
    specialize (Hlast l ld (lookup_app_l_Some _ _ _ _ Hl) Hrun).
    rewrite length_app in Hlast. simpl in Hlast. lia.
Qed.

Lemma dispose_status d s l ld' :
  loads (dispose d s) !! l = Some ld' →
  ∃ ld, loads s !! l = Some ld ∧ (ld' = ld ∨ ld' = cancel ld).
Proof.
  destruct d; simpl; eauto. intros Hl.
  destruct (decide (load = l)) as [->|Hne].
  - rewrite list_lookup_alter_eq in Hl.
    destruct (loads s !! l) as [ld|]; simplify_eq/=. eauto.
  - rewrite list_lookup_alter_ne in Hl by done. eauto.
Qed.

Lemma cancel_cancel ld : cancel (cancel ld) = cancel ld.
Proof. unfold cancel. by destruct (status ld) eqn:Hs; simpl; rewrite ?Hs. Qed.

Lemma disposeAll_status ds s l ld' :
  loads (disposeAll ds s) !! l = Some ld' →
  ∃ ld, loads s !! l = Some ld ∧ (ld' = ld ∨ ld' = cancel ld).
Proof.
  unfold disposeAll. revert s. induction ds as [|d ds IH]; intros s Hl; simpl in *.
  - eauto.
  - apply IH in Hl as (ld1 & Hl1 & Hd1).
    apply dispose_status in Hl1 as (ld & Hl & Hd).
    exists ld. split; [done|].
    destruct Hd1 as [->| ->], Hd as [->| ->]; rewrite ?cancel_cancel; auto.
Qed.

Section EditorCorrect.
Context `{KeybindingServices} `{ReadmeServices}.

Lemma attach_started pn p s :
  ∃ ld, loads (attach pn p s) !! length (loads s) = Some ld
        ∧ panel ld = pn ∧ source ld = p.
Proof.
  unfold attach. simpl.
  set (s1 := setLoads _ s).
  assert (Hnew : loads s1 !! length (loads s)
                 = Some {| panel := pn; source := p; status := Running |}).
  { subst s1. simpl. by rewrite list_lookup_middle. }
  destruct (continue_cases pn p (length (loads s)) s1) as [->|[]]; [eauto|].
  destruct continued_loads0 as (st & _ & ->).
  rewrite list_lookup_alter_eq, Hnew. simpl. eauto.
Qed.

(** C1.  For every input set by [setInput], in every run of the editor,
    [extension.getReadme()] is called at most once and so is
    [extension.getManifest()], however often the tabs are selected.  Once a
    cache holds the promise of its fetch, a further view of the tab makes no
    call on the extension, keeps the cache as it is, and the load it starts
    waits on that same promise. *)
Theorem fetches_cached es :
  let s := runEvents es initial in
  (∀ k, (callCount (GetReadme k) s ≤ 1)%nat ∧ (callCount (GetManifest k) s ≤ 1)%nat)
  ∧ (∀ c p, extensionReadme s = Some c → promise c = Some p →
       calls (openReadme s) = calls s
       ∧ extensionReadme (openReadme s) = Some c
       ∧ ∃ ld, loads (openReadme s) !! length (loads s) = Some ld
               ∧ panel ld = Readme ∧ source ld = p)
  ∧ (∀ c p, extensionManifest s = Some c → promise c = Some p →
       calls (openContributions s) = calls s
       ∧ extensionManifest (openContributions s) = Some c
       ∧ ∃ ld, loads (openContributions s) !! length (loads s) = Some ld
               ∧ panel ld = Contributions ∧ source ld = p).
Proof.
  intros s. pose proof (reachable_CallsInv s (runEvents_reachable es)) as Hinv.
  split; [intros k; split; apply (calls_once _ Hinv)|].
  destruct (beginLoad_sameCalls s) as (Hc & Hi & Hr & Hm).
  assert (Hlen : length (loads (beginLoad s)) = length (loads s)).
  { unfold beginLoad. simpl.
    by destruct (disposeAll_frame (contentDisposables s) s)
      as (_ & _ & _ & _ & _ & _ & _ & _ & _ & _ & Hlen & _). }
  split; intros c p Hcache Hp.
  - unfold openReadme, readmeGet. rewrite Hr, Hcache. simpl. rewrite Hp.
    destruct (attach_sameCalls Readme p (beginLoad s)) as (Hc' & _ & Hr' & _).
    rewrite Hc', Hr', Hc, Hr, <- Hlen. repeat split; [done|].
    apply attach_started.
  - unfold openContributions, manifestGet. rewrite Hm, Hcache. simpl. rewrite Hp.
    destruct (attach_sameCalls Contributions p (beginLoad s)) as (Hc' & _ & _ & Hm').
    rewrite Hc', Hm', Hc, Hm, <- Hlen. repeat split; [done|].
    apply attach_started.
Qed.

(** C2.  In every run of the editor a load that is still waiting has its
    cancellation among the content disposables, so the first statement of
    [loadContents], which disposes them, cancels it: before the new loading
    task is called no load is waiting any more, and a load that was waiting
    is now cancelled.  At no time is more than one load waiting. *)
Theorem pending_load_cancelled es :
  let s := runEvents es initial in
  (∀ l ld, loads s !! l = Some ld → status ld = Running →
     CancelLoad l ∈ contentDisposables s
     ∧ loads (beginLoad s) !! l = Some (withStatus Cancelled ld))
  ∧ idle (beginLoad s)
  ∧ (runningLoads s ≤ 1)%nat
  ∧ (runningLoads (openReadme s) ≤ 1)%nat
  ∧ (runningLoads (openContributions s) ≤ 1)%nat.
Proof.
  intros s. pose proof (reachable_LoadsInv s (runEvents_reachable es)) as Hinv.
  destruct (beginLoad_idle s Hinv) as (Hidle & _ & _).
  split; [|split; [done|]].
  - intros l ld Hl Hrun. split; [by eapply inv_cancel|].
    destruct (disposeAll_frame (contentDisposables s) s)
      as (_ & _ & _ & _ & _ & _ & _ & _ & _ & _ & Hlen & _).
    destruct (loads (beginLoad s) !! l) as [ld'|] eqn:Hl'.
    + pose proof (Hidle l ld' Hl') as Hnot.
      unfold beginLoad in Hl'. simpl in Hl'.
      apply disposeAll_status in Hl' as (ld0 & Hl0 & [->| ->]); simplify_eq.
      unfold cancel. by rewrite Hrun.
    + apply lookup_ge_None in Hl'. apply lookup_lt_Some in Hl.
      unfold beginLoad in Hl'. simpl in Hl'. lia.
  - split; [|split]; apply running_at_most_one.
    + apply (inv_last _ Hinv).
    + apply (inv_last _ (openReadme_LoadsInv _ Hinv)).
    + apply (inv_last _ (openContributions_LoadsInv _ Hinv)).
Qed.

Lemma onePanel_exclusive nodes :
  onePanel nodes → existsb readmeNode nodes && existsb contributionsNode nodes = false.
Proof.
  intros [Hall|(children & ->)]; [|done].
  apply andb_false_iff. right.
  induction Hall as [|n nodes Hn _ IH]; [done|]. simpl. rewrite IH.
  destruct n as [| tag ? ?|]; simpl in *; try done.
  apply String.eqb_eq in Hn as ->. done.
Qed.

(** C7.  Every load starts by disposing the content disposables and
    emptying the content element, and in every run of the editor the
    content element holds what the README panel put there (the web view, the
    paragraph) or the container of the Contributions panel, never both. *)
Theorem content_one_panel es :
  let s := runEvents es initial in
  showsReadme s && showsContributions s = false
  ∧ content (beginLoad s) = []
  ∧ contentDisposables (beginLoad s) = []
  ∧ idle (beginLoad s).
Proof.
  intros s. pose proof (reachable_LoadsInv s (runEvents_reachable es)) as Hinv.
  destruct (beginLoad_idle s Hinv) as (Hidle & Hc & Hd).
  split; [|done].
  apply onePanel_exclusive, (inv_content _ Hinv).
Qed.

Lemma onNavbarChange_input id s : input (onNavbarChange id s) = input s.
Proof.
  unfold onNavbarChange.
  destruct (String.eqb id NavbarSection.Readme).
  - unfold openReadme.
    destruct (beginLoad_sameCalls s) as (_ & Hi & _).
    destruct (readmeGet (beginLoad s)) as [[p s2]|] eqn:Hget; [|done].
    apply readmeGet_frame in Hget as (_ & _ & _ & _ & Hi2 & _).
    destruct (attach_sameCalls Readme p s2) as (_ & Hi3 & _). congruence.
  - destruct (String.eqb id NavbarSection.Contributions); [|done].
    unfold openContributions.
    destruct (beginLoad_sameCalls s) as (_ & Hi & _).
    destruct (manifestGet (beginLoad s)) as [[p s2]|] eqn:Hget; [|done].
    apply manifestGet_frame in Hget as (_ & _ & _ & _ & Hi2 & _).
    destruct (attach_sameCalls Contributions p s2) as (_ & Hi3 & _). congruence.
Qed.

Lemma run_input id s : input (run id s) = input s.
Proof.
  unfold run. cbn [input setNavbar].
  apply (foldl_preserves (λ s', input s' = input s)); [|done].
  intros s' _ <-. apply onNavbarChange_input.
Qed.

Lemma push_input id label s : input (push id label s) = input s.
Proof. unfold push. case_bool_decide; [by rewrite run_input|done]. Qed.

Lemma input_setContent v s : input (setContent v s) = input s.
Proof. reflexivity. Qed.

Lemma setInput_input extension s : input (setInput extension s) = S (input s).
Proof.
  unfold setInput. rewrite input_setContent, !push_input. cbn.
  by destruct (disposeAll_frame (transientDisposables s) s)
    as (_ & _ & _ & _ & -> & _).
Qed.

Lemma run_single id s k :
  NavBar.listeners (navbar s) = [k] →
  run id s = setNavbar (NavBar.select id (navbar (onNavbarChange id s)))
               (onNavbarChange id s).
Proof. intros Hk. unfold run. by rewrite Hk. Qed.

(** What selecting does on a navigation bar with the two tabs and one
    listener. *)
Lemma twoTabs_select s k :
  navbar s = twoTabs k → quiet (contentDisposables s) →
  handle (Select NavbarSection.Readme) s
    = setNavbar (NavBar.select NavbarSection.Readme (navbar s)) (openReadme s)
  ∧ handle (Select NavbarSection.Contributions) s
    = setNavbar (NavBar.select NavbarSection.Contributions (navbar s))
        (openContributions s)
  ∧ ∀ id, id ≠ NavbarSection.Readme → id ≠ NavbarSection.Contributions →
      NavBar.hasAction id (navbar s) = false
      ∧ handle (Select id) s = s
      ∧ onNavbarChange id s = s.
Proof.
  intros Hnav Hq.
  assert (Hk : NavBar.listeners (navbar s) = [k]) by by rewrite Hnav.
  split; [|split].
  - cbn [handle].
    replace (NavBar.hasAction NavbarSection.Readme (navbar s)) with true
      by by rewrite Hnav.
    rewrite (run_single _ _ _ Hk).
    replace (onNavbarChange NavbarSection.Readme s) with (openReadme s) by done.
    by destruct (openReadme_sameNav s Hq) as [[-> _] _].
  - cbn [handle].
    replace (NavBar.hasAction NavbarSection.Contributions (navbar s)) with true
      by by rewrite Hnav.
    rewrite (run_single _ _ _ Hk).
    replace (onNavbarChange NavbarSection.Contributions s)
      with (openContributions s) by done.
    by destruct (openContributions_sameNav s Hq) as [[-> _] _].
  - intros id Hr Hc.
    assert (Hno : NavBar.hasAction id (navbar s) = false).
    { rewrite Hnav. unfold NavBar.hasAction, twoTabs.
      cbn [existsb NavBar.actions NavBar.id].
      apply String.eqb_neq in Hr, Hc.
      rewrite String.eqb_sym in Hr. rewrite String.eqb_sym in Hc.
      unfold NavbarSection.Readme, NavbarSection.Contributions in *.
      by rewrite Hr, Hc. }
    split; [exact Hno|]. split.
    + cbn [handle]. rewrite Hno. reflexivity.
    + unfold onNavbarChange.
      apply String.eqb_neq in Hr, Hc. rewrite Hr, Hc. reflexivity.
Qed.

(** C3.  After every call of [setInput] the navigation bar holds exactly two
    actions, [readme] labelled "Details" and [contributions] labelled
    "Contributions", and one listener.  Selecting the first runs
    [openReadme], selecting the second runs [openContributions], and any
    other id has no action to select and reaches no panel. *)
Theorem navbar_two_tabs es extension :
  let s := setInput extension (runEvents es initial) in
  navbar s = twoTabs (input s)
  ∧ handle (Select NavbarSection.Readme) s
    = setNavbar (NavBar.select NavbarSection.Readme (navbar s)) (openReadme s)
  ∧ handle (Select NavbarSection.Contributions) s
    = setNavbar (NavBar.select NavbarSection.Contributions (navbar s))
        (openContributions s)
  ∧ ∀ id, id ≠ NavbarSection.Readme → id ≠ NavbarSection.Contributions →
      NavBar.hasAction id (navbar s) = false
      ∧ handle (Select id) s = s
      ∧ onNavbarChange id s = s.
Proof.
  intros s.
  pose proof (reachable_NavInv _ (runEvents_reachable es)) as Hinv0.
  destruct (setInput_navbar extension _ Hinv0) as [Hnav [_ Hq]].
  pose proof (setInput_input extension (runEvents es initial)) as Hinput.
  fold s in Hnav, Hq, Hinput. clearbody s.
  rewrite Hinput. split; [exact Hnav|].
  by apply (twoTabs_select s (S (input (runEvents es initial)))).
Qed.

End EditorCorrect.

(** ** The README panel *)

Lemma substring_skip (a t : string) (n : nat) :
  substring (String.length a) n (a +:+ t) = substring 0 n t.
Proof. induction a as [|c a IH]; [done|]. simpl. apply IH. Qed.

Lemma substring_prefix (s b : string) :
  substring 0 (String.length s) (s +:+ b) = s.
Proof.
  induction s as [|c s IH]; simpl.
  - by destruct b.
  - by rewrite IH.
Qed.

Lemma occursIn_middle (a s b : string) : occursIn s (a +:+ s +:+ b) = true.
Proof.
  unfold occursIn. apply bool_decide_eq_true.
  destruct (String.index 0 s (a +:+ s +:+ b)) as [m|] eqn:Hi; [by eexists|].
  exfalso. destruct (decide (s = "")) as [->|Hne].
  - apply index_correct4 in Hi. lia.
  - apply (index_correct3 0 (String.length a)) in Hi; [|done|lia].
    apply Hi. rewrite substring_skip. apply substring_prefix.
Qed.

Section ReadmePanel.
Context `{KeybindingServices} `{ReadmeServices}.

(** C8.  Whatever fails in the README chain, the rejected fetch, the
    markdown parser or the web view, the handler at the end of the chain
    appends the paragraph "No README available." to the content panel and
    the load completes: it is neither left waiting nor failed, and the
    [loading] mark is removed. *)
Theorem readme_failure_handled l ld r s :
  loads s !! l = Some ld → readmeFails r →
  let s' := readmeLoaded l r s in
  last (content s') = Some (Element "p" [] [Text "No README available."])
  ∧ loads s' !! l = Some (withStatus Completed ld)
  ∧ loading s' = false.
Proof.
  intros Hl Hfail.
  assert (Hno : last (content (showNoReadme l s))
                = Some (Element "p" [] [Text "No README available."])
                ∧ loads (showNoReadme l s) !! l = Some (withStatus Completed ld)
                ∧ loading (showNoReadme l s) = false).
  { simpl. rewrite last_snoc, list_lookup_alter_eq, Hl. done. }
  unfold readmeLoaded, readmeFails in *. destruct r as [readme|]; [|done].
  destruct (markedParse readme) as [html|]; [|done].
  destruct (display (renderBody html)) as [| |assigned]; [done|done|].
  simpl. rewrite last_snoc, list_lookup_alter_eq, Hl. done.
Qed.

(** C4, amended.  The document handed to the web view is the fixed template
    with the markdown-rendered README body embedded as it is between
    [<body>] and [</body>]: the component escapes and removes nothing, so
    whatever markup the renderer produced occurs unchanged in the document
    displayed. *)
Theorem readme_embedded_verbatim l readme html s :
  markedParse readme = Ok html → display (renderBody html) = Displayed →
  content (readmeLoaded l (Resolved readme) s)
  = content s ++ [WebViewElement [documentHead +:+ html +:+ documentTail]]
  ∧ occursIn html (documentHead +:+ html +:+ documentTail) = true.
Proof.
  intros Hparse Hshow. split; [|apply occursIn_middle].
  unfold readmeLoaded. by rewrite Hparse, Hshow.
Qed.

End ReadmePanel.

(** ** The statements on sample inputs *)

(** C4 as stated fails: a rendered body with script markup occurs unchanged
    in the document, and a README that the renderer hands on as it is reaches
    the web view with its script element. *)
Lemma script_reaches_webview :
  occursIn "<script>" scriptBody = true
  ∧ occursIn scriptBody (@renderBody sampleReadme scriptBody) = true
  ∧ content (@runEvents sampleKeybindings sampleReadme
               [SetInput pendingExtension; SettleReadme 0 (Resolved scriptBody)] initial)
    = [WebViewElement [@renderBody sampleReadme scriptBody]].
Proof. repeat split; vm_compute; reflexivity. Qed.

Lemma readme_embedded_verbatim_witness :
  @markedParse sampleReadme scriptBody = Ok scriptBody
  ∧ @display sampleReadme (@renderBody sampleReadme scriptBody) = Displayed
  ∧ (content (@readmeLoaded sampleReadme 0 (Resolved scriptBody) initial)
     = content initial
       ++ [WebViewElement [@documentHead sampleReadme +:+ scriptBody +:+ documentTail]]
     ∧ occursIn scriptBody (@documentHead sampleReadme +:+ scriptBody +:+ documentTail)
       = true).
Proof.
  split; [reflexivity|]. split; [reflexivity|].
  apply (@readme_embedded_verbatim sampleReadme 0 scriptBody scriptBody initial);
    reflexivity.
Defined.

(** C9 as stated fails: an id declared twice has two rows, and the header
    counts two commands for one distinct id. *)
Lemma declared_twice_two_rows :
  ∃ commands,
    @collectCommands sampleKeybindings declaredTwice = Ok commands
    ∧ map rowId (map (@commandRow) commands) = ["a"; "a"]
    ∧ ¬ NoDup (map rowId (map (@commandRow) commands))
    ∧ summaryText (commandsSection commands) = Some "Commands (2)"
    ∧ length (remove_dups (declaredIds declaredTwice
                           ++ map referenceId (references declaredTwice))) = 1.
Proof.
  eexists. split; [reflexivity|]. split; [reflexivity|].
  split; [|split; reflexivity].
  intros Hnd. apply NoDup_cons in Hnd as [Hnot _]. apply Hnot. by left.
Qed.

Lemma commands_one_row_each_witness :
  ∃ commands,
    NoDup (declaredIds smallContributes)
    ∧ @collectCommands sampleKeybindings smallContributes = Ok commands
    ∧ (let rows := map (@commandRow) commands in
       let ids := declaredIds smallContributes
                  ++ map referenceId (references smallContributes) in
       NoDup (map rowId rows)
       ∧ (∀ id, id ∈ map rowId rows ↔ id ∈ ids)
       ∧ (∀ row, row ∈ rows →
            rowTitle row
              = declaredTitle (default [] (Manifest.commands smallContributes)) (rowId row)
            ∧ rowShortcuts row
              = @shortcutsOf sampleKeybindings (rowId row) (references smallContributes)
            ∧ rowMenus row = menusOf (rowId row) (references smallContributes))
       ∧ (∀ id, id ∉ declaredIds smallContributes →
            declaredTitle (default [] (Manifest.commands smallContributes)) id = "")
       ∧ length rows = length (remove_dups ids)
       ∧ summaryText (commandsSection commands)
         = Some (summaryFor Commands (length (remove_dups ids)))).
Proof.
  eexists. split; [apply NoDup_singleton|]. split; [reflexivity|].
  apply (@commands_one_row_each sampleKeybindings smallContributes);
    [apply NoDup_singleton|reflexivity].
Defined.

Lemma shortcuts_delegated_witness :
  ∃ commands,
    @collectCommands sampleKeybindings smallContributes = Ok commands
    ∧ (let labelOf := λ u : Manifest.IKeyBinding,
         @getLabelFor sampleKeybindings
           (newKeybinding (fromUserSettingsLabel (Manifest.key u))) in
       let rows := map (@commandRow) commands in
       concat (map rowShortcuts rows)
         ≡ₚ map labelOf (default [] (Manifest.keybindings smallContributes))
       ∧ ∀ row k, row ∈ rows → k ∈ rowShortcuts row →
           ∃ u, u ∈ default [] (Manifest.keybindings smallContributes)
                ∧ Manifest.keyCommand u = rowId row
                ∧ k = labelOf u).
Proof.
  eexists. split; [reflexivity|].
  apply (@shortcuts_delegated sampleKeybindings smallContributes). reflexivity.
Defined.

Lemma readme_failure_handled_witness :
  let s := @runEvents sampleKeybindings sampleReadme [SetInput pendingExtension] initial in
  let ld := {| panel := Readme; source := 0; status := Running |} in
  loads s !! 0 = Some ld
  ∧ @readmeFails sampleReadme Rejected
  ∧ (let s' := @readmeLoaded sampleReadme 0 Rejected s in
     last (content s') = Some (Element "p" [] [Text "No README available."])
     ∧ loads s' !! 0 = Some (withStatus Completed ld)
     ∧ loading s' = false).
Proof.
  intros s ld. split; [reflexivity|]. split; [exact I|].
  apply (@readme_failure_handled sampleReadme 0 ld Rejected s); [reflexivity|exact I].
Defined.

Lemma contributions_sections_counted_witness :
  ∃ children,
    @renderContributions sampleKeybindings (manifestOf smallContributes) []
    = (children, Ok ())
    ∧ ∃ contributes commands,
        Manifest.contributes (manifestOf smallContributes) = Some contributes
        ∧ @collectCommands sampleKeybindings contributes = Ok commands
        ∧ Forall2
            (λ cat sec,
               summaryText sec
               = Some (summaryFor cat (contributionCount contributes commands cat))
               ∧ length (entries sec) = contributionCount contributes commands cat)
            (filter (λ cat, contributionCount contributes commands cat ≠ 0) categories)
            children.
Proof.
  exists (@renderContributions sampleKeybindings (manifestOf smallContributes) []).1.
  split; [vm_compute; reflexivity|].
  apply (@contributions_sections_counted sampleKeybindings (manifestOf smallContributes)).
  vm_compute; reflexivity.
Defined.

Lemma renderContributions_completes_witness :
  Manifest.contributes (manifestOf smallContributes) = Some smallContributes
  ∧ ("__proto__" ∉ declaredIds smallContributes)
  ∧ (∀ r, r ∈ references smallContributes → referenceId r ∉ objectPrototypeKeys)
  ∧ ∃ children,
      @renderContributions sampleKeybindings (manifestOf smallContributes) []
      = (children, Ok ()).
Proof.
  assert (H1 : "__proto__" ∉ declaredIds smallContributes).
  { apply (bool_decide_unpack _). vm_compute. exact I. }
  assert (H2 : ∀ r, r ∈ references smallContributes →
                    referenceId r ∉ objectPrototypeKeys).
  { apply Forall_forall. apply (bool_decide_unpack _). vm_compute. exact I. }
  split; [reflexivity|]. split; [exact H1|]. split; [exact H2|].
  apply (@renderContributions_completes sampleKeybindings
           (manifestOf smallContributes) smallContributes);
    [reflexivity|exact H1|exact H2].
Defined.

(** ** The order of the rows and repeated declarations *)

Lemma firstSeen_snoc seen ids id :
  firstSeen seen (ids ++ [id])
  = if bool_decide (id ∈ firstSeen seen ids)
    then firstSeen seen ids else firstSeen seen ids ++ [id].
Proof. unfold firstSeen. by rewrite foldl_snoc. Qed.

Lemma holds_functional d key i j : holds d key i → holds d key j → i = j.
Proof.
  unfold holds. destruct (String.eqb key "__proto__"); congruence.
Qed.

Lemma reduceFrom_pointsLast pre cs r :
  pointsLast pre r → pointsLast (pre ++ cs) (reduceFrom (length pre) cs r).
Proof.
  revert pre r. induction cs as [|c cs IH]; intros pre r Hq.
  - simpl. by rewrite app_nil_r.
  - simpl. replace (pre ++ c :: cs) with ((pre ++ [c]) ++ cs)
      by (by rewrite <- app_assoc).
    replace (S (length pre)) with (length (pre ++ [c]))
      by (rewrite length_app; simpl; lia).
    apply IH. intros key i [[-> ->]|[Hne Hh]]%holds_set j c' Hj Hid.
    + apply lookup_lt_Some in Hj. rewrite length_app in Hj. simpl in Hj. lia.
    + apply lookup_app_Some in Hj as [Hj|[_ Hj]]; [by eapply Hq|].
      apply list_lookup_singleton_Some in Hj as [_ <-]. done.
Qed.

Lemma lookup_alter_id {A B} (g : A → B) (f : A → A) (l : list A) i j y :
  (∀ x, g (f x) = g x) → alter f i l !! j = Some y →
  ∃ x, l !! j = Some x ∧ g y = g x ∧ (i ≠ j → y = x) ∧ (i = j → y = f x).
Proof.
  intros Hg Hj. destruct (decide (i = j)) as [->|Hne].
  - rewrite list_lookup_alter_eq in Hj.
    destruct (l !! j) as [x|]; simplify_eq/=. exists x. by rewrite Hg.
  - rewrite list_lookup_alter_ne in Hj by done. exists y. done.
Qed.

Lemma firstSeen_elem seen ids x :
  x ∈ firstSeen seen ids ↔ x ∈ seen ∨ x ∈ ids.
Proof.
  induction ids as [|id ids IH] using rev_ind.
  - simpl. split; [by left|]. intros [?|Hx]; [done|]. by apply elem_of_nil in Hx.
  - rewrite firstSeen_snoc. case_bool_decide as Hin.
    + rewrite IH, elem_of_app, list_elem_of_singleton.
      split; [tauto|]. intros [?|[?| ->]]; [tauto|tauto|]. by apply IH.
    + rewrite !elem_of_app, IH, list_elem_of_singleton. tauto.
Qed.

Section RowOrder.
Context `{KeybindingServices}.

Lemma tableInvariant_initial contributes :
  tableInvariant contributes [] (initialTable contributes).
Proof.
  split; [apply initialTable_dictOk|]. split; [|split; [|split; [|split; [|split]]]].
  - unfold initialTable. simpl.
    apply (reduceFrom_covered [] (declaredCommands contributes)).
    intros c Hc. by apply elem_of_nil in Hc.
  - unfold initialTable. simpl.
    apply (reduceFrom_pointsLast [] (declaredCommands contributes)).
    intros key i Hh. by apply holds_empty in Hh.
  - intros j c i Hj _ _. simpl in Hj.
    apply list_elem_of_lookup_2 in Hj.
    by apply declared_no_keybindings in Hj as [? ?].
  - simpl. apply declaredCommands_ids.
  - intros j id Hj. simpl. rewrite <- declaredCommands_ids in Hj.
    apply list_lookup_fmap_Some_1 in Hj as (c & -> & Hc). eauto.
  - intros key i c _ Hc. simpl in Hc.
    apply list_elem_of_lookup_2 in Hc.
    by apply declared_no_keybindings in Hc as [? ?].
Qed.

Lemma tableInvariant_step contributes done r t t' :
  tableInvariant contributes done t → addReference r t = Ok t' →
  tableInvariant contributes (done ++ [r]) t'.
Proof.
  intros (Hdict & Hcov & Hlast & Hbare & Hids & Hdecl & Hall) Hstep.
  apply addReference_cases in Hstep
    as [(Hmiss & fresh & Hid & Htitle & Hmenus & Hkeys & ->)|(i & Hh & ->)].
  - assert (Hfresh : referenceId r ∉ map Command.id (commands t)).
    { intros (c & Hc & Hin)%list_elem_of_fmap.
      destruct (Hcov c Hin) as [i Hi]. rewrite <- Hc in Hi.
      by eapply dictionaryGet_missing. }
    assert (Hnew : referenceId r ∉ map referenceId done).
    { intros Hin. apply Hfresh. rewrite Hids. apply firstSeen_elem. by right. }
    unfold tableInvariant. cbn [commands allCommands].
    split; [|split; [|split; [|split; [|split; [|split]]]]].
    + eapply dictOk_set; [by apply dictOk_app| |done].
      by rewrite list_lookup_middle.
    + intros c [Hc|Hc]%elem_of_app.
      * apply holds_set_kept. by apply Hcov.
      * apply list_elem_of_singleton in Hc as ->. rewrite Hid.
        eexists. apply holds_set_same.
    + intros key i [[-> ->]|[Hne Hh]]%holds_set j c Hj Hc.
      * apply lookup_lt_Some in Hj. rewrite length_app in Hj. simpl in Hj. lia.
      * apply lookup_app_Some in Hj as [Hj|[_ Hj]]; [by eapply Hlast|].
        apply list_lookup_singleton_Some in Hj as [_ <-]. congruence.
    + intros j c i Hj [[Hc ->]|[Hne Hh]]%holds_set Hij.
      * apply lookup_app_Some in Hj as [Hj|[Hge Hj]].
        -- exfalso. apply Hfresh. rewrite <- Hc.
           apply list_elem_of_fmap. exists c.
           split; [done|]. by eapply list_elem_of_lookup_2.
        -- apply list_lookup_singleton_Some in Hj as [Hj _]. lia.
      * apply lookup_app_Some in Hj as [Hj|[_ Hj]]; [by eapply Hbare|].
        apply list_lookup_singleton_Some in Hj as [_ <-]. congruence.
    + rewrite !map_app. cbn [map]. rewrite firstSeen_snoc, <- Hids.
      rewrite bool_decide_false by done. by rewrite Hid.
    + intros j id Hj. destruct (Hdecl j id Hj) as (c & Hc & Hcid).
      exists c. split; [by apply lookup_app_l_Some|done].
    + intros key i c [[-> ->]|[Hne Hh]]%holds_set Hc;
        rewrite menusOf_app, shortcutsOf_app.
      * rewrite list_lookup_middle in Hc by done. simplify_eq.
        rewrite (menusOf_unreferenced _ _ Hnew), (shortcutsOf_unreferenced _ _ Hnew).
        by rewrite Hmenus, Hkeys.
      * destruct (Hdict _ _ Hh) as (c1 & Hc1 & _).
        rewrite (lookup_app_l_Some _ _ _ _ Hc1) in Hc. simplify_eq.
        rewrite menusOf_other, shortcutsOf_other, !app_nil_r by done.
        by apply (Hall key i).
  - destruct (Hdict _ _ Hh) as (c0 & Hc0 & Hid0).
    remember (shortcutsOf (referenceId r) [r]) as ks eqn:Hks.
    remember (menusOf (referenceId r) [r]) as ms eqn:Hms.
    set (push := λ c, Command.mk (Command.id c) (Command.title c)
                        (Command.keybindings c ++ ks) (Command.menus c ++ ms)).
    assert (Hpush : ∀ c, Command.id (push c) = Command.id c) by done.
    unfold tableInvariant. cbn [commands allCommands].
    split; [|split; [|split; [|split; [|split; [|split]]]]].
    + by apply dictOk_alter.
    + intros c Hc. apply elem_of_alter in Hc as [Hc|(c1 & Hc1 & ->)].
      * by apply Hcov.
      * rewrite Hpush. apply Hcov. by eapply list_elem_of_lookup_2.
    + intros key i' Hh' j c Hj Hc.
      apply (lookup_alter_id Command.id) in Hj as (c1 & Hj & Hcid & _); [|done].
      eapply Hlast; [done|done|congruence].
    + intros j c i' Hj Hh' Hij.
      apply (lookup_alter_id Command.id) in Hj as (c1 & Hj & Hcid & Hne & Heq); [|done].
      destruct (decide (i = j)) as [<-|Hdiff].
      * exfalso. apply Hij. simplify_eq.
        rewrite Hcid, Hid0 in Hh'. by eapply holds_functional.
      * specialize (Hne Hdiff) as ->. by apply (Hbare j c1 i').
    + rewrite map_alter_same by done.
      rewrite map_app. cbn [map]. rewrite firstSeen_snoc, <- Hids.
      rewrite bool_decide_true; [done|].
      rewrite <- Hid0. apply list_elem_of_fmap. exists c0.
      split; [done|]. by eapply list_elem_of_lookup_2.
    + intros j id Hj. destruct (Hdecl j id Hj) as (c & Hc & Hcid).
      destruct (decide (i = j)) as [->|Hne].
      * exists (push c). rewrite list_lookup_alter_eq, Hc. done.
      * exists c. by rewrite list_lookup_alter_ne.
    + intros key i' c Hh' Hc. rewrite menusOf_app, shortcutsOf_app.
      apply (lookup_alter_id Command.id) in Hc as (c1 & Hc1 & _ & Hne & Heq); [|done].
      destruct (Hall key i' c1 Hh' Hc1) as [Hm1 Hk1].
      destruct (decide (i = i')) as [<-|Hdiff].
      * specialize (Heq eq_refl) as ->. simplify_eq.
        destruct (Hdict _ _ Hh') as (c2 & Hc2 & Hid2). simplify_eq.
        subst push. cbn [Command.menus Command.keybindings].
        by rewrite Hm1, Hk1, Hid0.
      * specialize (Hne Hdiff) as ->.
        assert (Hother : referenceId r ≠ key).
        { intros <-. apply Hdiff. by eapply holds_functional. }
        by rewrite menusOf_other, shortcutsOf_other, !app_nil_r.
Qed.

Lemma tableInvariant_final contributes commands' :
  collectCommands contributes = Ok commands' →
  ∃ t, commands t = commands'
       ∧ tableInvariant contributes (references contributes) t.
Proof.
  rewrite collectCommands_references.
  destruct (forEach addReference _ _) as [t|] eqn:Hrun; [|done].
  intros [= <-]. exists t. split; [done|].
  eapply (forEach_invariant addReference (tableInvariant contributes));
    [|apply tableInvariant_initial|done].
  intros done r s1 s2. apply tableInvariant_step.
Qed.

(** X3.  In a Commands table that is rendered, the rows stand in the order in
    which the ids were first met: the commands of [contributes.commands] in
    the order they are declared (repeated ids included), then the ids that
    only menu and keybinding entries name, each where it is first named,
    menus before keybindings. *)
Theorem rows_in_first_seen_order contributes commands' :
  collectCommands contributes = Ok commands' →
  map rowId (map commandRow commands')
  = firstSeen (declaredIds contributes) (map referenceId (references contributes)).
Proof.
  intros Hc.
  apply tableInvariant_final in Hc as (t & <- & (_ & _ & _ & _ & Hids & _ & _)).
  rewrite <- Hids, map_map. by apply map_ext.
Qed.

(** X4.  When [contributes.commands] declares an id more than once, the menu
    contexts and keybinding labels naming that id all go to the row of its
    last declaration: the row of any earlier declaration of the id shows no
    keyboard shortcut and no menu context. *)
Theorem earlier_declaration_bare contributes commands' j j' row :
  collectCommands contributes = Ok commands' →
  (j < j')%nat →
  map commandRow commands' !! j = Some row →
  declaredIds contributes !! j' = Some (rowId row) →
  rowShortcuts row = [] ∧ rowMenus row = [].
Proof.
  intros Hc Hlt Hrow Hlater.
  apply tableInvariant_final in Hc
    as (t & <- & (Hdict & Hcov & Hlast & Hbare & _ & Hdecl & _)).
  apply list_lookup_fmap_Some_1 in Hrow as (c & -> & Hj).
  rewrite rowShortcuts_commandRow, rowMenus_commandRow.
  rewrite rowId_commandRow in Hlater.
  destruct (Hdecl _ _ Hlater) as (c' & Hj' & Hid').
  destruct (Hcov c (list_elem_of_lookup_2 _ _ _ Hj)) as [i Hi].
  assert (Hle : (j' ≤ i)%nat) by by eapply Hlast.
  destruct (Hbare j c i Hj Hi) as [Hm Hk]; [lia|]. done.
Qed.

(** X15.  In a Commands table that is rendered, whatever ids the manifest
    declares and however often, the last row of an id shows the labels of all
    keybinding entries and the contexts of all menu entries that name the
    id, in the order the entries are read. *)
Theorem last_row_collects_references contributes commands' j row :
  collectCommands contributes = Ok commands' →
  let rows := map commandRow commands' in
  rows !! j = Some row →
  forallb (λ row', negb (String.eqb (rowId row') (rowId row))) (drop (S j) rows) = true →
  rowShortcuts row = shortcutsOf (rowId row) (references contributes)
  ∧ rowMenus row = menusOf (rowId row) (references contributes).
Proof.
  intros Hc rows Hrow Hlater.
  apply tableInvariant_final in Hc
    as (t & <- & (Hdict & Hcov & Hlast & _ & _ & _ & Hall)).
  subst rows.
  apply list_lookup_fmap_Some_1 in Hrow as (c & -> & Hj).
  rewrite rowShortcuts_commandRow, rowMenus_commandRow, rowId_commandRow.
  destruct (Hcov c (list_elem_of_lookup_2 _ _ _ Hj)) as [i Hi].
  destruct (Hdict _ _ Hi) as (ci & Hci & Hid).
  assert (Hle : (j ≤ i)%nat) by by eapply Hlast.
  assert (Hij : i = j).
  { destruct (decide (i = j)) as [|Hne]; [done|]. exfalso.
    rewrite forallb_forall in Hlater.
    assert (Hin : In (commandRow ci) (drop (S j) (map commandRow (commands t)))).
    { apply list_elem_of_In, (list_elem_of_lookup_2 _ (i - S j)).
      rewrite lookup_drop, list_lookup_fmap.
      replace (S j + (i - S j))%nat with i by lia. by rewrite Hci. }
    specialize (Hlater _ Hin). rewrite !rowId_commandRow, Hid in Hlater.
    by rewrite String.eqb_refl in Hlater. }
  subst i. simplify_eq. destruct (Hall _ _ _ Hi Hj) as [Hm Hk]. done.
Qed.

End RowOrder.

Lemma rows_in_first_seen_order_witness :
  ∃ commands,
    @collectCommands sampleKeybindings smallContributes = Ok commands
    ∧ map rowId (map (@commandRow) commands)
      = firstSeen (declaredIds smallContributes)
          (map referenceId (references smallContributes)).
Proof.
  eexists. split; [reflexivity|].
  apply (@rows_in_first_seen_order sampleKeybindings smallContributes). reflexivity.
Defined.

Lemma earlier_declaration_bare_witness :
  let commands :=
    match @collectCommands sampleKeybindings declaredTwiceReferenced with
    | Ok commands => commands
    | Throw _ => []
    end in
  let row := commandRow {| Command.id := "a"; Command.title := "First";
                           Command.keybindings := []; Command.menus := [] |} in
  @collectCommands sampleKeybindings declaredTwiceReferenced = Ok commands
  ∧ (0 < 1)%nat
  ∧ map (@commandRow) commands !! 0%nat = Some row
  ∧ declaredIds declaredTwiceReferenced !! 1%nat = Some (rowId row)
  ∧ (rowShortcuts row = [] ∧ rowMenus row = []).
Proof.
  intros commands row.
  split; [reflexivity|]. split; [lia|].
  split; [reflexivity|]. split; [reflexivity|].
  apply (@earlier_declaration_bare sampleKeybindings declaredTwiceReferenced
           commands 0 1 row);
    [reflexivity|lia|reflexivity|reflexivity].
Defined.

(** ** Selecting, late fetches and disposal *)

Lemma disposeAll_loads ds s :
  (∀ l, CancelLoad l ∉ ds) → loads (disposeAll ds s) = loads s.
Proof.
  unfold disposeAll. revert s. induction ds as [|d ds IH]; intros s Hno; [done|].
  simpl. rewrite IH.
  - destruct d; simpl; try done. exfalso. eapply Hno. by left.
  - intros l Hl. eapply Hno. by right.
Qed.

Lemma existsb_app_false {A} (f : A → bool) (l1 l2 : list A) :
  existsb f l1 = false → existsb f l2 = false → existsb f (l1 ++ l2) = false.
Proof. intros H1 H2. by rewrite existsb_app, H1, H2. Qed.

Lemma readme_nodes_hide_contributions (nodes : list Node) :
  Forall (λ n, readmeNode n = true) nodes → existsb contributionsNode nodes = false.
Proof.
  induction 1 as [|n nodes Hn _ IH]; [done|]. simpl. rewrite IH.
  destruct n as [| tag ? ?|]; simpl in *; try done.
  apply String.eqb_eq in Hn as ->. done.
Qed.

Section SelectingAndDisposal.
Context `{KeybindingServices} `{ReadmeServices}.

(** X5.  In every run of the editor, selecting a tab of the navigation bar
    leaves the bar with the same tabs and the same listener, the selected tab
    disabled and every other tab enabled: loading the panel does not disturb
    the bar. *)
Theorem selected_tab_disabled es id :
  let s := runEvents es initial in
  let s' := handle (Select id) s in
  NavBar.hasAction id (navbar s) = true →
  NavBar.listeners (navbar s') = NavBar.listeners (navbar s)
  ∧ map NavBar.id (NavBar.actions (navbar s')) = map NavBar.id (NavBar.actions (navbar s))
  ∧ map NavBar.label (NavBar.actions (navbar s'))
    = map NavBar.label (NavBar.actions (navbar s))
  ∧ ∀ a, a ∈ NavBar.actions (navbar s') →
      NavBar.enabled a = negb (String.eqb (NavBar.id a) id).
Proof.
  intros s s' Hhas.
  pose proof (reachable_NavInv s (runEvents_reachable es)) as [_ Hq].
  destruct (run_navbar id s Hq) as (Hnav & _ & _).
  subst s'. cbn [handle]. rewrite Hhas, Hnav. clearbody s.
  unfold NavBar.select. cbn [NavBar.listeners NavBar.actions].
  split; [done|]. rewrite !map_map. cbn [NavBar.id NavBar.label].
  split; [done|]. split; [done|].
  intros a (a0 & -> & _)%list_elem_of_fmap. done.
Qed.

Lemma deliver_other pn p s :
  (∀ l ld, loads s !! l = Some ld → status ld = Running →
     ¬ (panel ld = pn ∧ source ld = p)) →
  deliver pn p s = s.
Proof.
  intros Hother. unfold deliver.
  induction (seq 0 (length (loads s))) as [|l ls IH]; [done|].
  simpl. destruct (loads s !! l) as [ld|] eqn:Hl; [|done].
  rewrite bool_decide_false; [done|].
  intros (Hpn & Hp & Hrun). by eapply Hother.
Qed.

Lemma attach_running pn p s l ld :
  idle s → loads (attach pn p s) !! l = Some ld → status ld = Running →
  panel ld = pn ∧ source ld = p ∧ l = length (loads s).
Proof.
  intros Hidle. unfold attach. cbn [loads setContentDisposables].
  set (s1 := setLoads _ s).
  assert (Hnew : ∀ l' ld', loads s1 !! l' = Some ld' → status ld' = Running →
            panel ld' = pn ∧ source ld' = p ∧ l' = length (loads s)).
  { intros l' ld' Hl' Hrun. subst s1. cbn [loads setLoads] in Hl'.
    apply lookup_app_Some in Hl' as [Hl'|[Hge Hl']].
    - by destruct (Hidle _ _ Hl').
    - apply list_lookup_singleton_Some in Hl' as [Hl' <-].
      repeat split; simpl. lia. }
  destruct (continue_cases pn p (length (loads s)) s1) as [->|Hcont].
  - apply Hnew.
  - intros Hl Hrun. exfalso.
    eapply (Continued_idle _ s1 _ (λ l' ld' Hl' Hrun', proj2 (proj2 (Hnew l' ld' Hl' Hrun')))
              Hcont); done.
Qed.

Lemma readmeLoaded_content l r s :
  ∃ extra, content (readmeLoaded l r s) = content s ++ extra
           ∧ Forall (λ n, readmeNode n = true) extra.
Proof.
  assert (Hno : ∃ extra, content (showNoReadme l s) = content s ++ extra
                         ∧ Forall (λ n, readmeNode n = true) extra).
  { exists [noReadme]. split; [done|]. by repeat constructor. }
  unfold readmeLoaded. destruct r as [readme|]; [|done].
  destruct (markedParse readme) as [html|]; [|done].
  destruct (display (renderBody html)) as [| |assigned]; [|done|].
  - eexists. split; [done|]. by repeat constructor.
  - eexists. split; [simpl; by rewrite <- app_assoc|]. by repeat constructor.
Qed.

Lemma contributionsLoaded_content l r s :
  content (contributionsLoaded l r s) = content s
  ∨ ∃ children, content (contributionsLoaded l r s) = [subcontent children].
Proof. unfold contributionsLoaded. destruct r; [right; eauto|by left]. Qed.

(** A continuation of panel [pn] puts nothing of the other panel into an
    empty or own content panel. *)
Lemma continue_hides_other pn p l s :
  shows (otherPanel pn) s = false →
  shows (otherPanel pn) (continue pn p l s) = false.
Proof.
  intros Hs. unfold continue. destruct pn; simpl in *.
  - destruct (readmes s !! p) as [[r|]|]; [|done..].
    destruct (readmeLoaded_content l r s) as (extra & Hc & Hextra).
    unfold showsContributions in *. rewrite Hc.
    apply existsb_app_false; [done|]. by apply readme_nodes_hide_contributions.
  - destruct (manifests s !! p) as [[r|]|]; [|done..].
    unfold showsReadme in *.
    destruct (contributionsLoaded_content l r s) as [->|[children ->]]; done.
Qed.

Lemma continue_loads_settle pn p l s :
  settles (loads s) (loads (continue pn p l s)).
Proof.
  destruct (continue_cases pn p l s) as [->|[(st & Hst & ->) _ _ _ _ _ _ _ _ _ _]];
    [apply settles_refl|].
  apply settles_alter. intros ld Hrun. by apply withStatus_settles.
Qed.

Lemma openPanel_panelOpen pn s : LoadsInv s → panelOpen pn (openPanel pn s).
Proof.
  intros Hinv. destruct (beginLoad_idle s Hinv) as (Hidle & Hc & Hd).
  assert (Hattach : ∀ p s2, loads s2 = loads (beginLoad s) →
            content s2 = content (beginLoad s) → panelOpen pn (attach pn p s2)).
  { intros p s2 Hl Hc2.
    assert (Hidle2 : idle s2) by (intros l ld; rewrite Hl; apply Hidle).
    split; [apply attach_LoadsInv; [done|congruence]|]. split.
    - intros l ld Hld Hrun. by destruct (attach_running pn p s2 l ld Hidle2 Hld Hrun).
    - unfold attach.
      set (s1 := setLoads _ s2).
      assert (Hs1 : shows (otherPanel pn) s1 = false).
      { subst s1. destruct pn; unfold shows, showsReadme, showsContributions;
          cbn [content setLoads otherPanel]; by rewrite Hc2, Hc. }
      pose proof (continue_hides_other pn p (length (loads s2)) s1 Hs1) as Hk.
      destruct pn; exact Hk. }
  assert (Hnone : panelOpen pn (beginLoad s)).
  { split; [apply idle_LoadsInv; [done|rewrite Hc; apply onePanel_nil]|]. split.
    - intros l ld Hl Hrun. by destruct (Hidle l ld Hl).
    - destruct pn; unfold shows, showsReadme, showsContributions;
        cbn [otherPanel]; by rewrite Hc. }
  destruct pn; simpl.
  - unfold openReadme.
    destruct (readmeGet (beginLoad s)) as [[p s2]|] eqn:Hget; [|done].
    apply readmeGet_frame in Hget as (Hl & Hc2 & _). by apply Hattach.
  - unfold openContributions.
    destruct (manifestGet (beginLoad s)) as [[p s2]|] eqn:Hget; [|done].
    apply manifestGet_frame in Hget as (Hl & Hc2 & _). by apply Hattach.
Qed.

Lemma deliver_panelOpen pn pn' p s :
  panelOpen pn s → panelOpen pn (deliver pn' p s).
Proof.
  intros Hopen. unfold deliver. apply foldl_preserves; [|done].
  clear s Hopen. intros s l (Hinv & Hrun & Hshow).
  destruct (loads s !! l) as [ld|] eqn:Hl; [|done].
  case_bool_decide as Hmatch; [|done].
  destruct Hmatch as (Hpn & Hp & Hr).
  rewrite (Hrun l ld Hl Hr) in Hpn. subst pn'.
  split; [by eapply continue_LoadsInv|]. split.
  - intros l' ld' Hl' Hr'.
    destruct (continue_loads_settle pn p l s) as [_ Hs].
    destruct (Hs _ _ Hl') as (ld0 & Hl0 & Heq). specialize (Heq Hr'). subst ld0.
    by eapply Hrun.
  - by apply continue_hides_other.
Qed.

Lemma panelOpen_ext s s' pn :
  loads s' = loads s → contentDisposables s' = contentDisposables s →
  content s' = content s → panelOpen pn s → panelOpen pn s'.
Proof.
  intros Hl Hd Hc (Hinv & Hrun & Hshow).
  split; [by apply (LoadsInv_ext s)|]. split; [by rewrite Hl|].
  destruct pn; unfold shows, showsReadme, showsContributions in *;
    cbn [otherPanel] in *; by rewrite Hc.
Qed.

(** X6.  Once a tab has been opened, no fetch that settles afterwards brings
    up the other panel: the README that arrives after the user switched to
    Contributions is not displayed, and a manifest that arrives after the
    user switched back to Details is not rendered.  This holds in every run
    of the editor and for any number of fetches settling in any order. *)
Theorem late_fetch_not_shown es pn later :
  forallb isSettle later = true →
  shows (otherPanel pn)
    (runEvents later (openPanel pn (runEvents es initial))) = false.
Proof.
  intros Hlater.
  pose proof (reachable_LoadsInv _ (runEvents_reachable es)) as Hinv.
  pose proof (openPanel_panelOpen pn _ Hinv) as Hopen.
  generalize dependent (openPanel pn (runEvents es initial)).
  clear Hinv. induction later as [|e later IH]; intros s Hopen.
  - by destruct Hopen as (_ & _ & Hshow).
  - simpl in Hlater. apply andb_true_iff in Hlater as [He Hlater].
    unfold runEvents. simpl. apply (IH Hlater).
    destruct e as [extension|id|p r|p r]; try done; cbn [handle].
    + destruct (readmes s !! p) as [[r'|]|]; [done| |done].
      apply deliver_panelOpen. by apply (panelOpen_ext s).
    + destruct (manifests s !! p) as [[r'|]|]; [done| |done].
      apply deliver_panelOpen. by apply (panelOpen_ext s).
Qed.

End SelectingAndDisposal.

(** ** Promises and the chains waiting for them *)

Lemma PromisesInv_ext s s' :
  loads s' = loads s → readmes s' = readmes s → manifests s' = manifests s →
  extensionReadme s' = extensionReadme s → extensionManifest s' = extensionManifest s →
  PromisesInv s → PromisesInv s'.
Proof.
  intros Hl Hr Hm Hcr Hcm [H1 H2 H3].
  split; rewrite ?Hl, ?Hr, ?Hm, ?Hcr, ?Hcm; [exact H1|exact H2|].
  intros l ld Hld Hrun. specialize (H3 l ld Hld Hrun).
  unfold pendingAt in *. destruct (panel ld); congruence.
Qed.

Lemma PromisesInv_settles s s' :
  settles (loads s) (loads s') → readmes s' = readmes s → manifests s' = manifests s →
  (∀ c p, extensionReadme s' = Some c → promise c = Some p →
     (p < length (readmes s))%nat) →
  (∀ c p, extensionManifest s' = Some c → promise c = Some p →
     (p < length (manifests s))%nat) →
  (∀ l ld, loads s !! l = Some ld → status ld = Running →
     pendingAt (panel ld) (source ld) s) →
  PromisesInv s'.
Proof.
  intros [_ Hs] Hr Hm H1 H2 H3.
  split; rewrite ?Hr, ?Hm; [exact H1|exact H2|].
  intros l ld' Hl Hrun. destruct (Hs _ _ Hl) as (ld & Hld & Heq).
  specialize (Heq Hrun). subst ld'. specialize (H3 l ld Hld Hrun).
  unfold pendingAt in *. destruct (panel ld); congruence.
Qed.

Lemma PromisesInv_setContent v s : PromisesInv s → PromisesInv (setContent v s).
Proof. by apply PromisesInv_ext. Qed.

Ltac peel_PromisesInv :=
  match goal with
  | |- PromisesInv (_ _ ?s0) => apply (PromisesInv_ext s0); [reflexivity..|]
  end.

Section PromisesPreserved.
Context `{KeybindingServices} `{ReadmeServices}.

Lemma beginLoad_PromisesInv s : PromisesInv s → PromisesInv (beginLoad s).
Proof.
  intros [H1 H2 H3]. unfold beginLoad. do 3 peel_PromisesInv.
  destruct (disposeAll_frame (contentDisposables s) s)
    as (_ & _ & _ & _ & _ & Hr & Hm & Hrs & Hms & _ & Hs).
  apply (PromisesInv_settles s); rewrite ?Hr, ?Hm; done.
Qed.

Lemma readmeGet_PromisesInv s p s' :
  PromisesInv s → readmeGet s = Some (p, s') →
  PromisesInv s' ∧ (p < length (readmes s'))%nat.
Proof.
  intros Hinv Hget. unfold readmeGet in Hget.
  destruct (extensionReadme s) as [c|] eqn:Hc; [|done]. simpl in Hget.
  destruct (promise c) as [p'|] eqn:Hp; simplify_eq; destruct Hinv as [H1 H2 H3].
  - split; [done|]. by eapply H1.
  - split; [|simpl; rewrite length_app; simpl; lia].
    split; simpl.
    + intros c' p [= <-] [= <-]. rewrite length_app. simpl. lia.
    + exact H2.
    + intros l ld Hl Hrun. specialize (H3 l ld Hl Hrun).
      unfold pendingAt in *. simpl. destruct (panel ld); [|done].
      by apply lookup_app_l_Some.
Qed.

Lemma manifestGet_PromisesInv s p s' :
  PromisesInv s → manifestGet s = Some (p, s') →
  PromisesInv s' ∧ (p < length (manifests s'))%nat.
Proof.
  intros Hinv Hget. unfold manifestGet in Hget.
  destruct (extensionManifest s) as [c|] eqn:Hc; [|done]. simpl in Hget.
  destruct (promise c) as [p'|] eqn:Hp; simplify_eq; destruct Hinv as [H1 H2 H3].
  - split; [done|]. by eapply H2.
  - split; [|simpl; rewrite length_app; simpl; lia].
    split; simpl.
    + exact H1.
    + intros c' p [= <-] [= <-]. rewrite length_app. simpl. lia.
    + intros l ld Hl Hrun. specialize (H3 l ld Hl Hrun).
      unfold pendingAt in *. simpl. destruct (panel ld); [done|].
      by apply lookup_app_l_Some.
Qed.

Lemma attach_PromisesInv pn p s :
  idle s →
  match pn with
  | Readme => (p < length (readmes s))%nat
  | Contributions => (p < length (manifests s))%nat
  end →
  PromisesInv s → PromisesInv (attach pn p s).
Proof.
  intros Hidle Hvalid [H1 H2 H3]. unfold attach.
  set (l := length (loads s)).
  set (new := {| panel := pn; source := p; status := Running |}).
  set (s1 := setLoads _ s).
  assert (Honly : ∀ l' ld, loads s1 !! l' = Some ld → status ld = Running →
            l' = l ∧ ld = new).
  { intros l' ld Hl' Hrun. subst s1. simpl in Hl'.
    apply lookup_app_Some in Hl' as [Hl'|[Hge Hl']].
    - by destruct (Hidle _ _ Hl').
    - apply list_lookup_singleton_Some in Hl' as [Hl' <-]. subst l. split; [lia|done]. }
  apply (PromisesInv_ext (continue pn p l s1)); [reflexivity..|].
  assert (Hdone : ∀ s', Continued l s1 s' → PromisesInv s').
  { intros s' Hcont.
    pose proof (Continued_idle l s1 s' (λ l' ld Hl' Hr, proj1 (Honly l' ld Hl' Hr)) Hcont)
      as Hidle'.
    destruct Hcont as [_ _ _ _ _ _ _ Hre Hma Hrs Hms].
    split; rewrite ?Hre, ?Hma, ?Hrs, ?Hms; [exact H1|exact H2|].
    intros l' ld Hl' Hrun. by destruct (Hidle' l' ld Hl'). }
  destruct pn; unfold continue.
  - destruct (readmes s1 !! p) as [[r|]|] eqn:Hp.
    + apply Hdone, readmeLoaded_continued.
    + split; [exact H1|exact H2|]. intros l' ld Hl' Hrun.
      destruct (Honly l' ld Hl' Hrun) as [_ ->]. exact Hp.
    + apply lookup_ge_None in Hp. unfold s1 in Hp. simpl in Hp.
      exfalso. exact (proj1 (Nat.lt_nge _ _) Hvalid Hp).
  - destruct (manifests s1 !! p) as [[r|]|] eqn:Hp.
    + apply Hdone, contributionsLoaded_continued.
    + split; [exact H1|exact H2|]. intros l' ld Hl' Hrun.
      destruct (Honly l' ld Hl' Hrun) as [_ ->]. exact Hp.
    + apply lookup_ge_None in Hp. unfold s1 in Hp. simpl in Hp.
      exfalso. exact (proj1 (Nat.lt_nge _ _) Hvalid Hp).
Qed.

Lemma openReadme_PromisesInv s :
  LoadsInv s → PromisesInv s → PromisesInv (openReadme s).
Proof.
  intros Hinv Hp. destruct (beginLoad_idle s Hinv) as (Hidle & _ & _).
  pose proof (beginLoad_PromisesInv s Hp) as Hb.
  unfold openReadme. destruct (readmeGet (beginLoad s)) as [[p s2]|] eqn:Hget; [|done].
  destruct (readmeGet_PromisesInv _ _ _ Hb Hget) as [Hp2 Hlt].
  apply readmeGet_frame in Hget as (Hl & _).
  apply attach_PromisesInv; [|done|done].
  intros l ld. rewrite Hl. apply Hidle.
Qed.

Lemma openContributions_PromisesInv s :
  LoadsInv s → PromisesInv s → PromisesInv (openContributions s).
Proof.
  intros Hinv Hp. destruct (beginLoad_idle s Hinv) as (Hidle & _ & _).
  pose proof (beginLoad_PromisesInv s Hp) as Hb.
  unfold openContributions.
  destruct (manifestGet (beginLoad s)) as [[p s2]|] eqn:Hget; [|done].
  destruct (manifestGet_PromisesInv _ _ _ Hb Hget) as [Hp2 Hlt].
  apply manifestGet_frame in Hget as (Hl & _).
  apply attach_PromisesInv; [|done|done].
  intros l ld. rewrite Hl. apply Hidle.
Qed.

Lemma onNavbarChange_PromisesInv id s :
  LoadsInv s → PromisesInv s → PromisesInv (onNavbarChange id s).
Proof.
  intros Hinv Hp. unfold onNavbarChange.
  destruct (String.eqb id NavbarSection.Readme); [by apply openReadme_PromisesInv|].
  destruct (String.eqb id NavbarSection.Contributions);
    [by apply openContributions_PromisesInv|done].
Qed.

Lemma run_PromisesInv id s : LoadsInv s → PromisesInv s → PromisesInv (run id s).
Proof.
  intros Hinv Hp. unfold run. peel_PromisesInv.
  apply (foldl_preserves (λ s', LoadsInv s' ∧ PromisesInv s')); [|done].
  intros s' _ [Hinv' Hp']. split.
  - by apply onNavbarChange_LoadsInv.
  - by apply onNavbarChange_PromisesInv.
Qed.

Lemma push_PromisesInv id label s :
  LoadsInv s → PromisesInv s → PromisesInv (push id label s).
Proof.
  intros Hinv Hp. unfold push. case_bool_decide.
  - apply run_PromisesInv; [by peel_LoadsInv|by peel_PromisesInv].
  - by peel_PromisesInv.
Qed.

Lemma setInput_PromisesInv extension s :
  LoadsInv s → PromisesInv s → PromisesInv (setInput extension s).
Proof.
  intros Hinv [H1 H2 H3]. unfold setInput. apply PromisesInv_setContent.
  set (s6 := setTransientDisposables _ (setNavbar _ _)).
  destruct (disposeAll_frame (transientDisposables s) s)
    as (Hc & Hd & _ & _ & _ & _ & _ & Hrs & Hms & _ & Hs).
  assert (Hi6 : LoadsInv s6).
  { subst s6. do 6 peel_LoadsInv. by apply (LoadsInv_settles s). }
  assert (Hp6 : PromisesInv s6).
  { apply (PromisesInv_settles s); subst s6; simpl; try done.
    - intros c p [= <-]. done.
    - intros c p [= <-]. done. }
  apply push_PromisesInv; [by apply push_LoadsInv|by apply push_PromisesInv].
Qed.

Lemma deliver_skip pn p s ls :
  (∀ l ld, l ∈ ls → loads s !! l = Some ld → status ld = Running →
     ¬ (panel ld = pn ∧ source ld = p)) →
  foldl (λ s' l,
           match loads s' !! l with
           | Some ld =>
               if bool_decide (panel ld = pn ∧ source ld = p ∧ status ld = Running)
               then continue pn p l s' else s'
           | None => s'
           end) s ls = s.
Proof.
  induction ls as [|l ls IH]; intros Hother; [done|].
  simpl. destruct (loads s !! l) as [ld|] eqn:Hl.
  - rewrite bool_decide_false.
    + apply IH. intros l' ld' Hin. apply Hother. by right.
    + intros (Hpn & Hp & Hrun). eapply Hother; [by left|done..].
  - apply IH. intros l' ld' Hin. apply Hother. by right.
Qed.

(** With the invariant of the loads, a promise that settles runs the one
    chain waiting for it. *)
Lemma deliver_running pn p s l ld :
  LoadsInv s → loads s !! l = Some ld →
  panel ld = pn → source ld = p → status ld = Running →
  deliver pn p s = continue pn p l s.
Proof.
  intros Hinv Hl Hpn Hp Hrun. unfold deliver.
  rewrite <- (inv_last _ Hinv _ _ Hl Hrun), seq_S, foldl_app. simpl.
  rewrite deliver_skip.
  - by rewrite Hl, bool_decide_true.
  - intros l' ld' Hin Hl' Hrun' _. apply elem_of_seq in Hin.
    pose proof (inv_last _ Hinv _ _ Hl' Hrun').
    pose proof (inv_last _ Hinv _ _ Hl Hrun). lia.
Qed.

Lemma deliver_cases pn p s :
  LoadsInv s →
  (∃ l ld, loads s !! l = Some ld ∧ panel ld = pn ∧ source ld = p
           ∧ status ld = Running ∧ deliver pn p s = continue pn p l s)
  ∨ ((∀ l ld, loads s !! l = Some ld → status ld = Running →
        ¬ (panel ld = pn ∧ source ld = p))
     ∧ deliver pn p s = s).
Proof.
  intros Hinv.
  assert (Hlast : ∀ l ld, loads s !! l = Some ld → status ld = Running →
            loads s !! (length (loads s) - 1)%nat = Some ld).
  { intros l ld Hl Hrun. pose proof (inv_last _ Hinv _ _ Hl Hrun).
    by replace (length (loads s) - 1)%nat with l by lia. }
  destruct (loads s !! (length (loads s) - 1)%nat) as [ld|] eqn:Hl.
  - destruct (decide (panel ld = pn ∧ source ld = p ∧ status ld = Running))
      as [(Hpn & Hp & Hrun)|Hno].
    + left. exists (length (loads s) - 1)%nat, ld.
      repeat split; try done. by apply deliver_running with ld.
    + right.
      assert (Hother : ∀ l' ld', loads s !! l' = Some ld' → status ld' = Running →
                ¬ (panel ld' = pn ∧ source ld' = p)).
      { intros l' ld' Hl' Hrun [Hpn Hp]. apply Hno.
        pose proof (Hlast _ _ Hl' Hrun). by simplify_eq. }
      split; [done|by apply deliver_other].
  - right.
    assert (Hother : ∀ l' ld', loads s !! l' = Some ld' → status ld' = Running →
              ¬ (panel ld' = pn ∧ source ld' = p)).
    { intros l' ld' Hl' Hrun _. by pose proof (Hlast _ _ Hl' Hrun). }
    split; [done|by apply deliver_other].
Qed.

Lemma settleReadme_PromisesInv p r s :
  LoadsInv s → PromisesInv s → readmes s !! p = Some None →
  PromisesInv (deliver Readme p (setReadmes (<[p := Some r]> (readmes s)) s)).
Proof.
  intros Hinv [H1 H2 H3] Hp.
  set (s1 := setReadmes _ s).
  assert (Hinv1 : LoadsInv s1) by (by apply (LoadsInv_ext s)).
  assert (Hins : readmes s1 !! p = Some (Some r)).
  { subst s1. simpl. apply list_lookup_insert_eq. by eapply lookup_lt_Some. }
  assert (Hlen : length (readmes s1) = length (readmes s)).
  { subst s1. simpl. apply length_insert. }
  destruct (deliver_cases Readme p s1 Hinv1)
    as [(l & ld & Hl & Hpn & Hsrc & Hrun & ->)|[Hother ->]].
  - unfold continue. rewrite Hins.
    pose proof (readmeLoaded_continued l r s1) as Hcont.
    assert (Hidle : idle (readmeLoaded l r s1)).
    { eapply Continued_idle; [|done]. intros l' ld' Hl' Hrun'.
      pose proof (inv_last _ Hinv1 _ _ Hl Hrun).
      pose proof (inv_last _ Hinv1 _ _ Hl' Hrun'). lia. }
    destruct Hcont as [_ _ _ _ _ _ _ Hre Hma Hrs Hms].
    split; rewrite ?Hre, ?Hma, ?Hrs, ?Hms, ?Hlen; [exact H1|exact H2|].
    intros l' ld' Hl' Hrun'. by destruct (Hidle l' ld' Hl').
  - split; rewrite ?Hlen; [exact H1|exact H2|].
    intros l ld Hl Hrun. specialize (H3 l ld Hl Hrun).
    specialize (Hother l ld Hl Hrun).
    unfold pendingAt in *. destruct (panel ld) eqn:Hpn; [|done].
    subst s1. simpl. rewrite list_lookup_insert_ne; [done|]. intros Heq. by apply Hother.
Qed.

Lemma settleManifest_PromisesInv p r s :
  LoadsInv s → PromisesInv s → manifests s !! p = Some None →
  PromisesInv (deliver Contributions p (setManifests (<[p := Some r]> (manifests s)) s)).
Proof.
  intros Hinv [H1 H2 H3] Hp.
  set (s1 := setManifests _ s).
  assert (Hinv1 : LoadsInv s1) by (by apply (LoadsInv_ext s)).
  assert (Hins : manifests s1 !! p = Some (Some r)).
  { subst s1. simpl. apply list_lookup_insert_eq. by eapply lookup_lt_Some. }
  assert (Hlen : length (manifests s1) = length (manifests s)).
  { subst s1. simpl. apply length_insert. }
  destruct (deliver_cases Contributions p s1 Hinv1)
    as [(l & ld & Hl & Hpn & Hsrc & Hrun & ->)|[Hother ->]].
  - unfold continue. rewrite Hins.
    pose proof (contributionsLoaded_continued l r s1) as Hcont.
    assert (Hidle : idle (contributionsLoaded l r s1)).
    { eapply Continued_idle; [|done]. intros l' ld' Hl' Hrun'.
      pose proof (inv_last _ Hinv1 _ _ Hl Hrun).
      pose proof (inv_last _ Hinv1 _ _ Hl' Hrun'). lia. }
    destruct Hcont as [_ _ _ _ _ _ _ Hre Hma Hrs Hms].
    split; rewrite ?Hre, ?Hma, ?Hrs, ?Hms, ?Hlen; [exact H1|exact H2|].
    intros l' ld' Hl' Hrun'. by destruct (Hidle l' ld' Hl').
  - split; rewrite ?Hlen; [exact H1|exact H2|].
    intros l ld Hl Hrun. specialize (H3 l ld Hl Hrun).
    specialize (Hother l ld Hl Hrun).
    unfold pendingAt in *. destruct (panel ld) eqn:Hpn; [done|].
    subst s1. simpl. rewrite list_lookup_insert_ne; [done|]. intros Heq. by apply Hother.
Qed.

Lemma handle_PromisesInv e s :
  LoadsInv s → PromisesInv s → PromisesInv (handle e s).
Proof.
  intros Hinv Hp. destruct e as [extension|id|p r|p r]; simpl.
  - by apply setInput_PromisesInv.
  - destruct (NavBar.hasAction id (navbar s)); [by apply run_PromisesInv|done].
  - destruct (readmes s !! p) as [[r'|]|] eqn:Hr; [done| |done].
    by apply settleReadme_PromisesInv.
  - destruct (manifests s !! p) as [[r'|]|] eqn:Hr; [done| |done].
    by apply settleManifest_PromisesInv.
Qed.

Lemma reachable_PromisesInv s : reachable s → PromisesInv s.
Proof.
  induction 1 as [|e s Hs IH].
  - split; simpl; done.
  - apply handle_PromisesInv; [by apply reachable_LoadsInv|done].
Qed.

(** What a fetch that settles does when a chain waits for it. *)
Lemma settle_waiting pn p s :
  reachable s → waiting pn p s →
  ∃ l, loads s !! l = Some {| panel := pn; source := p; status := Running |}
       ∧ S l = length (loads s)
       ∧ content s = []
       ∧ pendingAt pn p s.
Proof.
  intros Hs [l Hl]. exists l.
  pose proof (reachable_LoadsInv s Hs) as Hinv.
  pose proof (reachable_PromisesInv s Hs) as Hp.
  repeat split; [done|by eapply (inv_last _ Hinv)|by eapply (inv_blank _ Hinv)|].
  by apply (promises_pending _ Hp l _ Hl).
Qed.

(** X7.  In every run of the editor, when the README a chain is waiting for
    arrives and [marked.parse] and the [WebView] do not fail, the content
    panel holds exactly the [WebView] with the document [renderBody] builds
    from the parsed README, the [loading] class is removed, no chain is left
    waiting, and the [WebView] and its two listeners are registered for
    disposal. *)
Theorem readme_shown_on_arrival es p readme html :
  let s := runEvents es initial in
  let s' := handle (SettleReadme p (Resolved readme)) s in
  waiting Readme p s →
  markedParse readme = Ok html →
  display (renderBody html) = Displayed →
  content s' = [WebViewElement [renderBody html]]
  ∧ loading s' = false
  ∧ idle s'
  ∧ ∃ ds, contentDisposables s'
          = ds ++ [WebViewHandle; LinkListener; ThemeListener].
Proof.
  intros s s' Hwait Hparse Hdisplay.
  pose proof (runEvents_reachable es) as Hreach. fold s in Hreach.
  destruct (settle_waiting Readme p s Hreach Hwait) as (l & Hl & Hlast & Hc & Hpend).
  pose proof (reachable_LoadsInv s Hreach) as Hinv.
  subst s'. clearbody s. cbn [handle]. unfold pendingAt in Hpend. rewrite Hpend.
  set (s1 := setReadmes _ s).
  assert (Hinv1 : LoadsInv s1) by (by apply (LoadsInv_ext s)).
  rewrite (deliver_running Readme p s1 l _ Hinv1 Hl); [|done..].
  unfold continue.
  assert (Hins : readmes s1 !! p = Some (Some (Resolved readme))).
  { subst s1. simpl. apply list_lookup_insert_eq. by eapply lookup_lt_Some. }
  rewrite Hins.
  assert (Hidle : idle (readmeLoaded l (Resolved readme) s1)).
  { eapply Continued_idle; [|apply readmeLoaded_continued]. intros l' ld' Hl' Hrun'.
    pose proof (inv_last _ Hinv1 _ _ Hl' Hrun'). simpl in *. lia. }
  revert Hidle. unfold readmeLoaded. rewrite Hparse, Hdisplay. intros Hidle.
  split; [simpl; by rewrite Hc|]. split; [done|]. split; [done|].
  simpl. eauto.
Qed.

(** X8.  In every run of the editor, when the manifest a chain is waiting
    for arrives, the content panel holds exactly one [subcontent] container
    with whatever the five renderers appended, the [loading] class is
    removed, no chain is left waiting, and the load fails exactly when a
    renderer threw. *)
Theorem contributions_shown_on_arrival es p manifest :
  let s := runEvents es initial in
  let s' := handle (SettleManifest p (Resolved manifest)) s in
  waiting Contributions p s →
  content s' = [subcontent (renderContributions manifest []).1]
  ∧ loading s' = false
  ∧ idle s'
  ∧ last (loads s')
    = Some {| panel := Contributions; source := p;
              status := if isOk (renderContributions manifest []).2
                        then Completed else Failed |}.
Proof.
  intros s s' Hwait.
  pose proof (runEvents_reachable es) as Hreach. fold s in Hreach.
  destruct (settle_waiting Contributions p s Hreach Hwait)
    as (l & Hl & Hlast & Hc & Hpend).
  pose proof (reachable_LoadsInv s Hreach) as Hinv.
  subst s'. clearbody s. cbn [handle]. unfold pendingAt in Hpend. rewrite Hpend.
  set (s1 := setManifests _ s).
  assert (Hinv1 : LoadsInv s1) by (by apply (LoadsInv_ext s)).
  rewrite (deliver_running Contributions p s1 l _ Hinv1 Hl); [|done..].
  unfold continue.
  assert (Hins : manifests s1 !! p = Some (Some (Resolved manifest))).
  { subst s1. simpl. apply list_lookup_insert_eq. by eapply lookup_lt_Some. }
  rewrite Hins.
  assert (Hidle : idle (contributionsLoaded l (Resolved manifest) s1)).
  { eapply Continued_idle; [|apply contributionsLoaded_continued].
    intros l' ld' Hl' Hrun'.
    pose proof (inv_last _ Hinv1 _ _ Hl' Hrun'). simpl in *. lia. }
  split; [done|]. split; [done|]. split; [done|].
  unfold contributionsLoaded, settleLoad. cbn [loads setLoading setLoads setContent].
  subst s1. cbn [loads setManifests].
  rewrite last_lookup, length_alter, <- Hlast. simpl.
  by rewrite list_lookup_alter_eq, Hl.
Qed.

(** X9.  The Contributions chain has no rejection handler: in every run of
    the editor, when the manifest a chain is waiting for is rejected, the
    content panel stays empty, with no message, the [loading] class is
    removed, no chain is left waiting, and the load has failed. *)
Theorem contributions_rejection_silent es p :
  let s := runEvents es initial in
  let s' := handle (SettleManifest p Rejected) s in
  waiting Contributions p s →
  content s' = []
  ∧ loading s' = false
  ∧ idle s'
  ∧ last (loads s')
    = Some {| panel := Contributions; source := p; status := Failed |}.
Proof.
  intros s s' Hwait.
  pose proof (runEvents_reachable es) as Hreach. fold s in Hreach.
  destruct (settle_waiting Contributions p s Hreach Hwait)
    as (l & Hl & Hlast & Hc & Hpend).
  pose proof (reachable_LoadsInv s Hreach) as Hinv.
  subst s'. clearbody s. cbn [handle]. unfold pendingAt in Hpend. rewrite Hpend.
  set (s1 := setManifests _ s).
  assert (Hinv1 : LoadsInv s1) by (by apply (LoadsInv_ext s)).
  rewrite (deliver_running Contributions p s1 l _ Hinv1 Hl); [|done..].
  unfold continue.
  assert (Hins : manifests s1 !! p = Some (Some Rejected)).
  { subst s1. simpl. apply list_lookup_insert_eq. by eapply lookup_lt_Some. }
  rewrite Hins.
  assert (Hidle : idle (contributionsLoaded l Rejected s1)).
  { eapply Continued_idle; [|apply contributionsLoaded_continued].
    intros l' ld' Hl' Hrun'.
    pose proof (inv_last _ Hinv1 _ _ Hl' Hrun'). simpl in *. lia. }
  split; [done|]. split; [done|]. split; [done|].
  unfold contributionsLoaded, settleLoad. cbn [loads setLoading setLoads setContent].
  subst s1. cbn [loads setManifests].
  rewrite last_lookup, length_alter, <- Hlast. simpl.
  by rewrite list_lookup_alter_eq, Hl.
Qed.

End PromisesPreserved.

(** ** What [setInput] fetches, and when *)

Section InputAndFetches.
Context `{KeybindingServices} `{ReadmeServices}.

Lemma openReadme_calls s c :
  extensionReadme s = Some c → promise c = None →
  calls (openReadme s) = calls s ++ [GetReadme (input s)].
Proof.
  intros Hc Hp. unfold openReadme. cbv zeta.
  destruct (beginLoad_sameCalls s) as (Hcalls & Hin & Hre & _).
  revert Hcalls Hin Hre. generalize (beginLoad s). intros b Hcalls Hin Hre.
  unfold readmeGet. rewrite Hre, Hc. simpl. rewrite Hp.
  match goal with
  | |- calls (attach ?pn ?p ?s2) = _ => destruct (attach_sameCalls pn p s2) as (-> & _)
  end.
  simpl. by rewrite Hcalls, Hin.
Qed.

Lemma openContributions_calls s c :
  extensionManifest s = Some c → promise c = None →
  calls (openContributions s) = calls s ++ [GetManifest (input s)].
Proof.
  intros Hc Hp. unfold openContributions. cbv zeta.
  destruct (beginLoad_sameCalls s) as (Hcalls & Hin & _ & Hma).
  revert Hcalls Hin Hma. generalize (beginLoad s). intros b Hcalls Hin Hma.
  unfold manifestGet. rewrite Hma, Hc. simpl. rewrite Hp.
  match goal with
  | |- calls (attach ?pn ?p ?s2) = _ => destruct (attach_sameCalls pn p s2) as (-> & _)
  end.
  simpl. by rewrite Hcalls, Hin.
Qed.

Lemma openReadme_manifest s : extensionManifest (openReadme s) = extensionManifest s.
Proof.
  unfold openReadme. destruct (beginLoad_sameCalls s) as (_ & _ & _ & Hm).
  destruct (readmeGet (beginLoad s)) as [[p s2]|] eqn:Hget; [|done].
  apply readmeGet_frame in Hget as (_ & _ & _ & _ & _ & Hm2).
  destruct (attach_sameCalls Readme p s2) as (_ & _ & _ & Hm3). congruence.
Qed.

(** [setInput] unfolded: the first [push] runs the Details tab, which opens
    the README on the new caches; the second only adds its tab. *)
Lemma setInput_exact extension s :
  NavInv s →
  ∃ s0,
    setInput extension s
    = setContent [] (setNavbar (twoTabs (S (input s))) (openReadme s0))
    ∧ (LoadsInv s → LoadsInv s0)
    ∧ calls s0 = calls s
    ∧ input s0 = S (input s)
    ∧ extensionReadme s0 = Some {| task := extension; promise := None |}
    ∧ extensionManifest s0 = Some {| task := extension; promise := None |}
    ∧ transientDisposables s0
      = [Widget "iconError"; Widget "install"; Widget "ratings";
         Widget "enableAction"; Widget "updateAction"; Widget "installAction";
         NavbarListener (S (input s))]
    ∧ quiet (contentDisposables s0).
Proof.
  intros [Hl Hq].
  destruct (disposeAll_frame (transientDisposables s) s)
    as (_ & Hd & _ & Hca & Hi & _ & _ & _ & _ & Ha & _).
  assert (Hnone : NavBar.listeners (navbar (disposeAll (transientDisposables s) s)) = []).
  { apply elem_of_nil_inv. intros k Hk.
    apply disposeAll_listeners in Hk as [Hk Hnot]. by apply Hnot, Hl. }
  unfold setInput.
  set (s1 := setTransientDisposables [] _).
  set (s6 := setTransientDisposables _ (setNavbar _ _)).
  set (lr := localize "details" "Details" None).
  set (lc := localize "contributions" "Contributions" None).
  set (s0 := setNavbar (NavBar.addAction NavbarSection.Readme lr (navbar s6)) s6).
  assert (Hq0 : quiet (contentDisposables s0)).
  { unfold s0, s6, s1. simpl. by rewrite Hd. }
  assert (Hnav0 : navbar s0
            = {| NavBar.actions := [ {| NavBar.id := NavbarSection.Readme;
                                        NavBar.label := lr; NavBar.enabled := true |} ];
                 NavBar.listeners := [S (input s)] |}).
  { unfold s0, s6, s1. simpl.
    unfold NavBar.addAction, NavBar.onChange, NavBar.clear. simpl.
    rewrite Hnone, Hi. reflexivity. }
  assert (H7 : push NavbarSection.Readme lr s6
               = setNavbar (NavBar.select NavbarSection.Readme (navbar (openReadme s0)))
                   (openReadme s0)).
  { change (push NavbarSection.Readme lr s6)
      with (if bool_decide (length (NavBar.actions (navbar s0)) = 1)
            then run NavbarSection.Readme s0 else s0).
    rewrite bool_decide_true by (by rewrite Hnav0).
    rewrite (run_single NavbarSection.Readme s0 (S (input s))) by (by rewrite Hnav0).
    reflexivity. }
  exists s0. split.
  - rewrite H7. destruct (openReadme_sameNav s0 Hq0) as [[Hn _] _].
    clear H7. revert Hn. generalize (openReadme s0). intros s' Hn.
    unfold push. cbn [navbar setNavbar].
    rewrite bool_decide_false.
    + rewrite Hn, Hnav0. reflexivity.
    + rewrite Hn, Hnav0. simpl. lia.
  - split.
    + intros Hinv. unfold s0, s6. do 7 peel_LoadsInv. fold s1.
      destruct (disposeAll_frame (transientDisposables s) s)
        as (Hc & _ & _ & _ & _ & _ & _ & _ & _ & _ & Hs).
      by apply (LoadsInv_settles s).
    + unfold s0, s6, s1. simpl. rewrite Hca, Hi, Hd. done.
Qed.

(** X10.  In every run of the editor, [setInput] asks the extension for its
    README once, at once, and asks for nothing else: the trace of calls grows
    by exactly the call of [getReadme] for the new input. *)
Theorem readme_fetched_with_input es extension :
  let s := runEvents es initial in
  let s' := handle (SetInput extension) s in
  input s' = S (input s) ∧ calls s' = calls s ++ [GetReadme (input s')].
Proof.
  intros s s'.
  pose proof (reachable_NavInv s (runEvents_reachable es)) as Hnav.
  destruct (setInput_exact extension s Hnav)
    as (s0 & Heq & _ & Hca & Hi & Hre & _ & _ & _).
  subst s'. cbn [handle]. rewrite Heq. clearbody s.
  change (input (setContent [] (setNavbar (twoTabs (S (input s))) (openReadme s0))))
    with (input (openReadme s0)).
  change (calls (setContent [] (setNavbar (twoTabs (S (input s))) (openReadme s0))))
    with (calls (openReadme s0)).
  rewrite (openReadme_calls s0 _ Hre eq_refl), Hca, Hi.
  pose proof (onNavbarChange_input NavbarSection.Readme s0) as Hin.
  unfold onNavbarChange in Hin. simpl in Hin. by rewrite Hin, Hi.
Qed.

Lemma hasAction_ids id (n : NavBar.t) :
  NavBar.hasAction id n = true ↔ id ∈ map NavBar.id (NavBar.actions n).
Proof.
  unfold NavBar.hasAction. rewrite existsb_exists, list_elem_of_fmap.
  split.
  - intros (a & Ha & Heq). apply String.eqb_eq in Heq. exists a.
    split; [done|]. by apply list_elem_of_In.
  - intros (a & -> & Ha). exists a. split; [by apply list_elem_of_In|].
    apply String.eqb_refl.
Qed.

Lemma select_ids id (n : NavBar.t) :
  map NavBar.id (NavBar.actions (NavBar.select id n)) = map NavBar.id (NavBar.actions n).
Proof. unfold NavBar.select. simpl. by rewrite map_map. Qed.

Lemma onNavbarChange_manifest id s :
  String.eqb id NavbarSection.Contributions = false →
  extensionManifest (onNavbarChange id s) = extensionManifest s.
Proof.
  intros Hid. unfold onNavbarChange. rewrite Hid.
  destruct (String.eqb id NavbarSection.Readme); [apply openReadme_manifest|done].
Qed.

Lemma handle_manifestUnfetched k e s :
  NavInv s → keepsManifest e = true →
  manifestUnfetched k s → manifestUnfetched k (handle e s).
Proof.
  intros [_ Hq] He (Hi & (c & Hc & Hp) & Hls & Hids).
  destruct e as [extension|id|p r|p r]; try done; cbn [handle].
  - destruct (NavBar.hasAction id (navbar s)); [|by repeat split; eauto].
    destruct (run_navbar id s Hq) as (Hn & _ & _).
    rewrite (run_single id s k Hls) in *. simpl in Hn.
    apply negb_true_iff in He.
    repeat split; cbn [input extensionManifest navbar setNavbar].
    + by rewrite onNavbarChange_input.
    + exists c. by rewrite onNavbarChange_manifest.
    + by rewrite Hn.
    + by rewrite Hn, select_ids.
  - destruct (readmes s !! p) as [[r'|]|]; [by repeat split; eauto| |by repeat split; eauto].
    set (s1 := setReadmes _ s).
    destruct (deliver_sameCalls Readme p s1) as (_ & Hi' & _ & Hm').
    destruct (deliver_sameNav Readme p s1) as [Hn' _].
    repeat split; rewrite ?Hi', ?Hm', ?Hn'; eauto.
  - destruct (manifests s !! p) as [[r'|]|]; [by repeat split; eauto| |by repeat split; eauto].
    set (s1 := setManifests _ s).
    destruct (deliver_sameCalls Contributions p s1) as (_ & Hi' & _ & Hm').
    destruct (deliver_sameNav Contributions p s1) as [Hn' _].
    repeat split; rewrite ?Hi', ?Hm', ?Hn'; eauto.
Qed.

Lemma setInput_manifestUnfetched extension s :
  NavInv s → manifestUnfetched (S (input s)) (setInput extension s).
Proof.
  intros Hnav.
  destruct (setInput_exact extension s Hnav)
    as (s0 & Heq & _ & Hca & Hi & Hre & Hma & _ & _).
  rewrite Heq.
  pose proof (openReadme_manifest s0) as Hm.
  pose proof (onNavbarChange_input NavbarSection.Readme s0) as Hin.
  unfold onNavbarChange in Hin. simpl in Hin.
  revert Hm Hin. generalize (openReadme s0). intros s' Hm Hin.
  repeat split; simpl; [congruence| |done..].
  eexists. rewrite Hm, Hma. done.
Qed.

(** X11.  The manifest is fetched on demand: in every run of the editor,
    after [setInput] and any events that neither select the Contributions tab
    nor set another input, [getManifest] was not called for the input; the
    first selection of the Contributions tab then calls it, and nothing
    else. *)
Theorem manifest_fetched_on_demand es extension later :
  let s0 := handle (SetInput extension) (runEvents es initial) in
  let s1 := runEvents later s0 in
  forallb keepsManifest later = true →
  (GetManifest (input s1) ∉ calls s1)
  ∧ calls (handle (Select NavbarSection.Contributions) s1)
    = calls s1 ++ [GetManifest (input s1)].
Proof.
  intros s0 s1 Hlater.
  assert (Hreach0 : reachable s0).
  { apply reachable_handle, runEvents_reachable. }
  assert (Hun0 : manifestUnfetched (input s0) s0).
  { subst s0. cbn [handle]. rewrite setInput_input.
    apply setInput_manifestUnfetched, reachable_NavInv, runEvents_reachable. }
  assert (Hboth : reachable s1 ∧ manifestUnfetched (input s0) s1).
  { subst s1. clearbody s0. generalize dependent s0.
    induction later as [|e later IH]; intros s0 Hreach0 Hun0; [done|].
    simpl in Hlater. apply andb_true_iff in Hlater as [He Hlater].
    unfold runEvents. simpl.
    pose proof (handle_manifestUnfetched _ e s0 (reachable_NavInv _ Hreach0) He Hun0)
      as Hun1.
    assert (Hi1 : input (handle e s0) = input s0) by (by destruct Hun1).
    rewrite <- Hi1 in *.
    apply (IH Hlater); [by apply reachable_handle|done]. }
  destruct Hboth as [Hreach1 (Hi & (c & Hc & Hp) & Hls & Hids)].
  clearbody s1 s0. split.
  - by apply (calls_manifest _ (reachable_CallsInv _ Hreach1) c).
  - cbn [handle].
    assert (Hhas : NavBar.hasAction NavbarSection.Contributions (navbar s1) = true).
    { apply hasAction_ids. rewrite Hids. apply list_elem_of_In. simpl. auto. }
    rewrite Hhas, (run_single _ s1 _ Hls).
    change (onNavbarChange NavbarSection.Contributions s1) with (openContributions s1).
    cbn [calls setNavbar]. by apply (openContributions_calls s1 c).
Qed.

(** ** Disposal of the editor *)

Lemma reachable_transient s :
  reachable s → ∀ l, CancelLoad l ∉ transientDisposables s.
Proof.
  induction 1 as [|e s Hs IH]; [intros l; apply not_elem_of_nil|].
  pose proof (reachable_NavInv s Hs) as Hnav.
  destruct e as [extension|id|p r|p r]; cbn [handle].
  - destruct (setInput_exact extension s Hnav)
      as (s0 & -> & _ & _ & _ & _ & _ & Ht & Hq0).
    destruct (openReadme_sameNav s0 Hq0) as [[_ Ht'] _].
    cbn [transientDisposables setContent setNavbar]. rewrite Ht', Ht.
    intros l Hl. apply list_elem_of_In in Hl. simpl in Hl.
    repeat (destruct Hl as [Hl|Hl]; [done|]). done.
  - destruct (NavBar.hasAction id (navbar s)); [|done].
    destruct Hnav as [_ Hq]. destruct (run_navbar id s Hq) as (_ & -> & _). done.
  - destruct (readmes s !! p) as [[r'|]|]; [done| |done].
    destruct (deliver_sameNav Readme p (setReadmes (<[p:=Some r]> (readmes s)) s))
      as [_ ->]. done.
  - destruct (manifests s !! p) as [[r'|]|]; [done| |done].
    destruct (deliver_sameNav Contributions p
                (setManifests (<[p:=Some r]> (manifests s)) s)) as [_ ->]. done.
Qed.

(** X12.  [dispose()] of the editor removes the listener of the navigation
    bar but cancels no load: in every run of the editor, a chain that is
    waiting when the editor is disposed is still waiting afterwards, with its
    cancellation still registered and not run; and selecting a tab afterwards
    starts no load and no fetch. *)
Theorem dispose_keeps_pending_load es :
  let s := runEvents es initial in
  let s' := disposeEditor s in
  loads s' = loads s
  ∧ contentDisposables s' = contentDisposables s
  ∧ NavBar.listeners (navbar s') = []
  ∧ ∀ id, loads (handle (Select id) s') = loads s'
          ∧ calls (handle (Select id) s') = calls s'
          ∧ content (handle (Select id) s') = content s'.
Proof.
  intros s s'.
  pose proof (runEvents_reachable es) as Hreach. fold s in Hreach.
  pose proof (reachable_NavInv s Hreach) as [Hl _].
  pose proof (reachable_transient s Hreach) as Hno.
  subst s'. clearbody s. unfold disposeEditor.
  destruct (disposeAll_frame (transientDisposables s) s)
    as (_ & Hd & _ & _ & _ & _ & _ & _ & _ & _ & _).
  assert (Hnone : NavBar.listeners (navbar (disposeAll (transientDisposables s) s)) = []).
  { apply elem_of_nil_inv. intros k Hk.
    apply disposeAll_listeners in Hk as [Hk Hnot]. by apply Hnot, Hl. }
  pose proof (disposeAll_loads (transientDisposables s) s Hno) as Hloads.
  revert Hd Hnone Hloads. generalize (disposeAll (transientDisposables s) s).
  intros s1 Hd Hnone Hloads.
  split; [done|]. split; [done|]. split; [done|].
  intros id. cbn [handle navbar setTransientDisposables].
  destruct (NavBar.hasAction id (navbar s1)); [|done].
  unfold run. cbn [navbar setTransientDisposables]. rewrite Hnone. done.
Qed.

End InputAndFetches.

(** ** The header *)

Lemma setInput_untouched extension h :
  Header.untouched h → Header.untouched (Header.setInput None extension h).
Proof. intros (?&?&?&?&?&?). by repeat split. Qed.

Lemma run_untouched extensions : Header.untouched (Header.run None extensions).
Proof.
  unfold Header.run. apply foldl_preserves; [|by repeat split].
  intros h extension. apply setInput_untouched.
Qed.

Lemma run_licenseText gallery extensions :
  Header.licenseText (Header.run gallery extensions) = Header.licenseText Header.create.
Proof.
  unfold Header.run.
  apply (foldl_preserves (λ h, Header.licenseText h = Header.licenseText Header.create));
    [|done].
  intros h extension Hh. by destruct gallery.
Qed.

(** X13.  The header never shows anything of an extension viewed before:
    after any sequence of inputs, the header is the one [setInput] builds for
    the last input on the header [createEditor] made, whether or not the
    product has a gallery. *)
Theorem header_shows_last_input gallery extensions extension :
  Header.run gallery (extensions ++ [extension])
  = Header.setInput gallery extension Header.create.
Proof.
  unfold Header.run. rewrite foldl_snoc. fold (Header.run gallery extensions).
  pose proof (run_licenseText gallery extensions) as Ht.
  destruct gallery as [g|].
  - unfold Header.setInput. by rewrite Ht.
  - destruct (run_untouched extensions) as (H1 & H2 & H3 & H4 & H5 & H6).
    unfold Header.setInput. rewrite H1, H2, H3, H4, H5, H6. reflexivity.
Qed.

(** X14.  After any sequence of inputs, the License link is visible exactly
    when the product has a gallery and the last input has a license URL that
    is not empty, and then a click opens that URL; otherwise the link is
    hidden and has no click handler. *)
Theorem license_link_of_last_input gallery extensions extension :
  let h := Header.run gallery (extensions ++ [extension]) in
  match gallery, Header.licenseUrl extension with
  | Some _, Some url =>
      if truthy url
      then Header.licenseDisplay h = "initial"
           ∧ Header.licenseOnclick h = Some (Header.OpenExternal url)
      else Header.licenseDisplay h = "none" ∧ Header.licenseOnclick h = None
  | _, _ => Header.licenseDisplay h = "none" ∧ Header.licenseOnclick h = None
  end.
Proof.
  intros h. subst h.
  unfold Header.run. rewrite foldl_snoc. fold (Header.run gallery extensions).
  destruct gallery as [g|].
  - unfold Header.setInput, Header.hasLicense. simpl.
    destruct (Header.licenseUrl extension) as [url|]; [|done].
    by destruct (truthy url).
  - destruct (run_untouched (extensions ++ [extension])) as (_ & H2 & _ & _ & _ & H6).
    unfold Header.run in H2, H6. rewrite foldl_snoc in H2, H6.
    by destruct (Header.licenseUrl extension).
Qed.

(** ** Runs that meet the hypotheses *)

Lemma selected_tab_disabled_witness :
  let s := @runEvents sampleKeybindings sampleReadme [SetInput pendingExtension] initial in
  let s' := @handle sampleKeybindings sampleReadme (Select "contributions") s in
  NavBar.hasAction "contributions" (navbar s) = true
  ∧ (NavBar.listeners (navbar s') = NavBar.listeners (navbar s)
     ∧ map NavBar.id (NavBar.actions (navbar s'))
       = map NavBar.id (NavBar.actions (navbar s))
     ∧ map NavBar.label (NavBar.actions (navbar s'))
       = map NavBar.label (NavBar.actions (navbar s))
     ∧ ∀ a, a ∈ NavBar.actions (navbar s') →
         NavBar.enabled a = negb (String.eqb (NavBar.id a) "contributions")).
Proof.
  intros s s'. split; [reflexivity|].
  apply (@selected_tab_disabled sampleKeybindings sampleReadme
           [SetInput pendingExtension] "contributions").
  reflexivity.
Defined.

Lemma late_fetch_not_shown_witness :
  let later := [SettleReadme 0 (Resolved scriptBody)] in
  forallb isSettle later = true
  ∧ shows (otherPanel Contributions)
      (@runEvents sampleKeybindings sampleReadme later
         (@openPanel sampleKeybindings sampleReadme Contributions
            (@runEvents sampleKeybindings sampleReadme
               [SetInput pendingExtension] initial))) = false.
Proof.
  intros later. split; [reflexivity|].
  apply (@late_fetch_not_shown sampleKeybindings sampleReadme
           [SetInput pendingExtension] Contributions later).
  reflexivity.
Defined.

Lemma readme_shown_on_arrival_witness :
  let s := @runEvents sampleKeybindings sampleReadme [SetInput pendingExtension] initial in
  let s' := @handle sampleKeybindings sampleReadme
              (SettleReadme 0 (Resolved scriptBody)) s in
  waiting Readme 0 s
  ∧ @markedParse sampleReadme scriptBody = Ok scriptBody
  ∧ @display sampleReadme (@renderBody sampleReadme scriptBody) = Displayed
  ∧ (content s' = [WebViewElement [@renderBody sampleReadme scriptBody]]
     ∧ loading s' = false
     ∧ idle s'
     ∧ ∃ ds, contentDisposables s'
             = ds ++ [WebViewHandle; LinkListener; ThemeListener]).
Proof.
  intros s s'.
  assert (Hwait : waiting Readme 0 s) by (exists 0%nat; reflexivity).
  split; [exact Hwait|]. split; [reflexivity|]. split; [reflexivity|].
  apply (@readme_shown_on_arrival sampleKeybindings sampleReadme
           [SetInput pendingExtension] 0 scriptBody scriptBody);
    [exact Hwait|reflexivity|reflexivity].
Defined.

Lemma contributions_shown_on_arrival_witness :
  let es := [SetInput pendingExtension; Select "contributions"] in
  let manifest := manifestOf smallContributes in
  let s := @runEvents sampleKeybindings sampleReadme es initial in
  let s' := @handle sampleKeybindings sampleReadme
              (SettleManifest 0 (Resolved manifest)) s in
  waiting Contributions 0 s
  ∧ (content s' = [subcontent (@renderContributions sampleKeybindings manifest []).1]
     ∧ loading s' = false
     ∧ idle s'
     ∧ last (loads s')
       = Some {| panel := Contributions; source := 0;
                 status := if isOk (@renderContributions sampleKeybindings manifest []).2
                           then Completed else Failed |}).
Proof.
  intros es manifest s s'.
  assert (Hwait : waiting Contributions 0 s) by (exists 1%nat; reflexivity).
  split; [exact Hwait|].
  apply (@contributions_shown_on_arrival sampleKeybindings sampleReadme es 0 manifest).
  exact Hwait.
Defined.

Lemma contributions_rejection_silent_witness :
  let es := [SetInput pendingExtension; Select "contributions"] in
  let s := @runEvents sampleKeybindings sampleReadme es initial in
  let s' := @handle sampleKeybindings sampleReadme (SettleManifest 0 Rejected) s in
  waiting Contributions 0 s
  ∧ (content s' = []
     ∧ loading s' = false
     ∧ idle s'
     ∧ last (loads s')
       = Some {| panel := Contributions; source := 0; status := Failed |}).
Proof.
  intros es s s'.
  assert (Hwait : waiting Contributions 0 s) by (exists 1%nat; reflexivity).
  split; [exact Hwait|].
  apply (@contributions_rejection_silent sampleKeybindings sampleReadme es 0).
  exact Hwait.
Defined.

Lemma manifest_fetched_on_demand_witness :
  let later := [Select "readme"; SettleReadme 0 Rejected] in
  let s0 := @handle sampleKeybindings sampleReadme (SetInput pendingExtension)
              (@runEvents sampleKeybindings sampleReadme [] initial) in
  let s1 := @runEvents sampleKeybindings sampleReadme later s0 in
  forallb keepsManifest later = true
  ∧ ((GetManifest (input s1) ∉ calls s1)
     ∧ calls (@handle sampleKeybindings sampleReadme
                (Select NavbarSection.Contributions) s1)
       = calls s1 ++ [GetManifest (input s1)]).
Proof.
  intros later s0 s1. split; [reflexivity|].
  apply (@manifest_fetched_on_demand sampleKeybindings sampleReadme
           [] pendingExtension later).
  reflexivity.
Defined.

Lemma last_row_collects_references_witness :
  let commands :=
    match @collectCommands sampleKeybindings declaredTwiceReferenced with
    | Ok commands => commands
    | Throw _ => []
    end in
  let rows := map (@commandRow) commands in
  let row := default (Text "") (rows !! 1%nat) in
  @collectCommands sampleKeybindings declaredTwiceReferenced = Ok commands
  ∧ rows !! 1%nat = Some row
  ∧ forallb (λ row', negb (String.eqb (rowId row') (rowId row))) (drop 2 rows) = true
  ∧ (rowShortcuts row
     = @shortcutsOf sampleKeybindings (rowId row) (references declaredTwiceReferenced)
     ∧ rowMenus row = menusOf (rowId row) (references declaredTwiceReferenced)).
Proof.
  intros commands rows row.
  split; [reflexivity|]. split; [reflexivity|]. split; [reflexivity|].
  apply (@last_row_collects_references sampleKeybindings declaredTwiceReferenced
           commands 1 row);
    reflexivity.
Defined.

(** ** The [loading] class *)

Lemma busy_idle s : busy s = false ↔ idle s.
Proof.
  unfold busy, idle. split.
  - intros Hb l ld Hl Hrun.
    assert (Hex : existsb (λ ld, bool_decide (status ld = Running)) (loads s) = true).
    { apply existsb_exists. exists ld.
      split; [by eapply list_elem_of_In, list_elem_of_lookup_2|].
      by apply bool_decide_eq_true. }
    congruence.
  - intros Hidle. apply not_true_iff_false. intros Hex.
    apply existsb_exists in Hex as (ld & Hin & Hrun).
    apply bool_decide_eq_true in Hrun.
    apply list_elem_of_In, list_elem_of_lookup in Hin as [l Hl].
    by eapply Hidle.
Qed.

Section LoadingClass.
Context `{KeybindingServices} `{ReadmeServices}.

Lemma readmeLoaded_loading l r s : loading (readmeLoaded l r s) = false.
Proof.
  unfold readmeLoaded. destruct r as [readme|]; [|done].
  destruct (markedParse readme); [|done]. by destruct (display _).
Qed.

Lemma contributionsLoaded_loading l r s : loading (contributionsLoaded l r s) = false.
Proof. unfold contributionsLoaded. by destruct r. Qed.

Lemma continue_loading pn p l s :
  continue pn p l s = s
  ∨ (Continued l s (continue pn p l s) ∧ loading (continue pn p l s) = false).
Proof.
  destruct pn; unfold continue.
  - destruct (readmes s !! p) as [[r|]|]; [right|by left..].
    split; [apply readmeLoaded_continued|apply readmeLoaded_loading].
  - destruct (manifests s !! p) as [[r|]|]; [right|by left..].
    split; [apply contributionsLoaded_continued|apply contributionsLoaded_loading].
Qed.

Lemma attach_loading pn p s :
  idle s → loading s = true → loading (attach pn p s) = busy (attach pn p s).
Proof.
  intros Hidle Hloading. unfold attach.
  set (l := length (loads s)).
  set (s1 := setLoads _ s).
  destruct (continue_loading pn p l s1) as [->|[Hcont Hfalse]].
  - unfold busy, s1. simpl. rewrite existsb_app. simpl.
    by rewrite Hloading, orb_true_r.
  - symmetry. change (loading (setContentDisposables
                        (contentDisposables (continue pn p l s1) ++ [CancelLoad l])
                        (continue pn p l s1)))
      with (loading (continue pn p l s1)).
    rewrite Hfalse. apply busy_idle.
    intros l' ld Hl'. simpl in Hl'.
    eapply (Continued_idle l s1); [|done|done].
    intros l'' ld' Hl'' Hrun. unfold s1 in Hl''. simpl in Hl''.
    apply lookup_app_Some in Hl'' as [Hl''|[Hge Hl'']].
    + by destruct (Hidle _ _ Hl'').
    + apply list_lookup_singleton_Some in Hl'' as [Hl'' _]. subst l. lia.
Qed.

Lemma hasCaches_ext s s' : sameCalls s s' → hasCaches s → hasCaches s'.
Proof. intros (_ & _ & Hr & Hm) [? ?]. split; congruence. Qed.

Lemma openReadme_loadingInvariant s :
  LoadsInv s → hasCaches s → loadingInvariant (openReadme s).
Proof.
  intros Hinv [[c Hc] Hm].
  split; [by apply openReadme_LoadsInv|]. split.
  - split; [|by rewrite openReadme_manifest].
    unfold openReadme. cbv zeta.
    destruct (beginLoad_sameCalls s) as (_ & _ & Hre & _).
    unfold readmeGet. rewrite Hre, Hc. simpl.
    destruct (promise c);
      match goal with
      | |- is_Some (extensionReadme (attach ?pn ?p ?s2)) =>
          destruct (attach_sameCalls pn p s2) as (_ & _ & -> & _)
      end; [by rewrite Hre, Hc|done].
  - destruct (beginLoad_idle s Hinv) as (Hidle & _ & _).
    unfold openReadme. cbv zeta.
    destruct (readmeGet (beginLoad s)) as [[p s2]|] eqn:Hget.
    + assert (Hl : loads s2 = loads (beginLoad s) ∧ loading s2 = true).
      { unfold readmeGet in Hget.
        destruct (extensionReadme (beginLoad s)) as [c'|]; [|done]. simpl in Hget.
        destruct (promise c'); by simplify_eq. }
      destruct Hl as [Hl Hloading].
      apply attach_loading; [|done]. intros l ld. rewrite Hl. apply Hidle.
    + unfold readmeGet in Hget.
      destruct (beginLoad_sameCalls s) as (_ & _ & Hre & _).
      rewrite Hre, Hc in Hget. simpl in Hget. by destruct (promise c).
Qed.

Lemma openContributions_loadingInvariant s :
  LoadsInv s → hasCaches s → loadingInvariant (openContributions s).
Proof.
  intros Hinv [Hr [c Hc]].
  assert (Hcaches : hasCaches (openContributions s)).
  { unfold openContributions. cbv zeta.
    destruct (beginLoad_sameCalls s) as (_ & _ & Hre & Hma).
    revert Hre Hma. generalize (beginLoad s). intros b Hre Hma.
    unfold manifestGet. rewrite Hma, Hc. simpl.
    destruct (promise c);
      match goal with
      | |- hasCaches (attach ?pn ?p ?s2) =>
          destruct (attach_sameCalls pn p s2) as (_ & _ & Hr2 & Hm2)
      end; split; rewrite ?Hr2, ?Hm2; simpl; rewrite ?Hre, ?Hma, ?Hc; done. }
  split; [by apply openContributions_LoadsInv|]. split; [done|].
  destruct (beginLoad_idle s Hinv) as (Hidle & _ & _).
  unfold openContributions. cbv zeta.
  destruct (manifestGet (beginLoad s)) as [[p s2]|] eqn:Hget.
  - assert (Hl : loads s2 = loads (beginLoad s) ∧ loading s2 = true).
    { unfold manifestGet in Hget.
      destruct (extensionManifest (beginLoad s)) as [c'|]; [|done]. simpl in Hget.
      destruct (promise c'); by simplify_eq. }
    destruct Hl as [Hl Hloading].
    apply attach_loading; [|done]. intros l ld. rewrite Hl. apply Hidle.
  - unfold manifestGet in Hget.
    destruct (beginLoad_sameCalls s) as (_ & _ & _ & Hma).
    rewrite Hma, Hc in Hget. simpl in Hget. by destruct (promise c).
Qed.

Lemma onNavbarChange_loadingInvariant id s :
  loadingInvariant s → loadingInvariant (onNavbarChange id s).
Proof.
  intros (Hinv & Hcaches & Hl). unfold onNavbarChange.
  destruct (String.eqb id NavbarSection.Readme);
    [by apply openReadme_loadingInvariant|].
  destruct (String.eqb id NavbarSection.Contributions);
    [by apply openContributions_loadingInvariant|done].
Qed.

Lemma loadingInvariant_setNavbar v s :
  loadingInvariant s → loadingInvariant (setNavbar v s).
Proof. intros (Hinv & Hcaches & Hl). split; [by peel_LoadsInv|done]. Qed.

Lemma run_loadingInvariant id s : loadingInvariant s → loadingInvariant (run id s).
Proof.
  intros Hs. unfold run. apply loadingInvariant_setNavbar.
  apply foldl_preserves; [|done].
  intros s' _. apply onNavbarChange_loadingInvariant.
Qed.

Lemma deliver_loadingInvariant pn p s :
  loadingInvariant s → loadingInvariant (deliver pn p s).
Proof.
  intros (Hinv & Hcaches & Hl).
  split; [by apply deliver_LoadsInv|]. split.
  - eapply hasCaches_ext; [apply deliver_sameCalls|done].
  - destruct (deliver_cases pn p s Hinv)
      as [(l & ld & Hld & _ & _ & Hrun & ->)|[_ ->]]; [|done].
    destruct (continue_loading pn p l s) as [->|[Hcont ->]]; [done|].
    symmetry. apply busy_idle. eapply Continued_idle; [|done].
    intros l' ld' Hl' Hrun'.
    pose proof (inv_last _ Hinv _ _ Hld Hrun).
    pose proof (inv_last _ Hinv _ _ Hl' Hrun'). lia.
Qed.

Lemma setInput_loadingInvariant extension s :
  NavInv s → LoadsInv s → loadingInvariant (setInput extension s).
Proof.
  intros Hnav Hinv.
  pose proof (setInput_LoadsInv extension s Hinv) as Hinv'.
  destruct (setInput_exact extension s Hnav)
    as (s0 & Heq & Hinv0 & _ & _ & Hre & Hma & _ & _).
  assert (Hcaches : hasCaches s0) by (split; [by rewrite Hre|by rewrite Hma]).
  destruct (openReadme_loadingInvariant s0 (Hinv0 Hinv) Hcaches) as (_ & Hc & Hl).
  split; [done|]. rewrite Heq. revert Hc Hl. generalize (openReadme s0).
  intros s' Hc Hl. split; done.
Qed.

Lemma reachable_loadingInvariant s :
  reachable s → s = initial ∨ loadingInvariant s.
Proof.
  induction 1 as [|e s Hs IH]; [by left|].
  pose proof (reachable_NavInv s Hs) as Hnav.
  pose proof (reachable_LoadsInv s Hs) as Hinv.
  destruct e as [extension|id|p r|p r]; cbn [handle].
  - right. by apply setInput_loadingInvariant.
  - destruct IH as [->|IH]; [by left|].
    destruct (NavBar.hasAction id (navbar s)); [|by right].
    right. by apply run_loadingInvariant.
  - destruct IH as [->|IH]; [by left|].
    destruct (readmes s !! p) as [[r'|]|]; [by right| |by right].
    right. apply deliver_loadingInvariant.
    destruct IH as (? & ? & ?). split; [by peel_LoadsInv|done].
  - destruct IH as [->|IH]; [by left|].
    destruct (manifests s !! p) as [[r'|]|]; [by right| |by right].
    right. apply deliver_loadingInvariant.
    destruct IH as (? & ? & ?). split; [by peel_LoadsInv|done].
Qed.

(** X16.  In every run of the editor, the content element has the [loading]
    class exactly while a load is waiting for its fetch: it is set when a
    load starts and removed when the load settles. *)
Theorem loading_while_waiting es :
  let s := runEvents es initial in
  loading s = busy s.
Proof.
  intros s.
  destruct (reachable_loadingInvariant s (runEvents_reachable es)) as [->|(_ & _ & Hl)];
    done.
Qed.

End LoadingClass.
